(** * Distributed synchronisation platform: Raft, locks, queue, cache

    A shallow embedding of the state machines of the repository
    (src/consensus/raft.py, src/nodes/lock_manager.py,
    src/nodes/queue_node.py, src/nodes/cache_node.py,
    src/communication/failure_detector.py) and the properties proved
    about them.

    Conventions of the embedding:
    - Python [int] is [Z]; list positions follow Python (zero based,
      negative positions count from the end, out of range raises);
    - clock readings ([time.time()]) and other floats that are only
      added, subtracted and compared are rationals [Q];
    - [dict] whose iteration order is irrelevant is [gmap], [set] is
      [gset]; a [dict] or [OrderedDict] whose order is observed is an
      association list in insertion order;
    - every coroutine is run to completion: one call is one function
      from the state before to the state after. *)

From Stdlib Require Import ZArith QArith Qabs Lia.
From stdpp Require Import gmap strings list fin_maps fin_sets pretty sorting.

Local Open Scope Z_scope.

(** ** Python list primitives *)

Module Py.

(** [l[i]]: [None] stands for IndexError. *)
Definition get {A} (l : list A) (i : Z) : option A :=
  let n := Z.of_nat (length l) in
  if 0 <=? i then l !! Z.to_nat i
  else if - n <=? i then l !! Z.to_nat (n + i)
  else None.

(** [l[:k]]. *)
Definition slice_to {A} (l : list A) (k : Z) : list A :=
  if 0 <=? k then take (Z.to_nat k) l
  else take (Z.to_nat (Z.of_nat (length l) + k)) l.

Definition len {A} (l : list A) : Z := Z.of_nat (length l).

(** [x > y] on clock readings. *)
Definition Qgtb (x y : Q) : bool := negb (Qle_bool x y).

(** [x < y] on clock readings. *)
Definition Qltb (x y : Q) : bool := negb (Qle_bool y x).

End Py.

(** ** Raft (src/consensus/raft.py) *)

Module Raft.

Inductive RaftState := FOLLOWER | CANDIDATE | LEADER.

Definition RaftState_eqb (a b : RaftState) : bool :=
  match a, b with
  | FOLLOWER, FOLLOWER | CANDIDATE, CANDIDATE | LEADER, LEADER => true
  | _, _ => false
  end.

Section WithCommand.

(** The payload of a log entry ([Dict[str, Any]] in the source) is
    opaque to Raft. *)
Context {Command : Type}.

Record LogEntry := mkLogEntry {
  term : Z;
  index : Z;
  command : Command;
  timestamp : Q
}.

(** The fields of [RaftNode] that the replication path reads or
    writes.  [cluster_nodes] holds the keys of the source's dict
    (the peers, without the node itself).  [applied] records, oldest
    first, the commands handed to [on_commit_callback]. *)
Record RaftNode := mkRaftNode {
  node_id : string;
  cluster_nodes : gset string;
  current_term : Z;
  voted_for : option string;
  log : list LogEntry;
  commit_index : Z;
  last_applied : Z;
  state : RaftState;
  next_index : gmap string Z;
  match_index : gmap string Z;
  last_heartbeat : Q;
  applied : list Command
}.

Definition set_commit_index (v : Z) (s : RaftNode) : RaftNode :=
  mkRaftNode (node_id s) (cluster_nodes s) (current_term s) (voted_for s)
    (log s) v (last_applied s) (state s) (next_index s) (match_index s)
    (last_heartbeat s) (applied s).

Definition set_log (v : list LogEntry) (s : RaftNode) : RaftNode :=
  mkRaftNode (node_id s) (cluster_nodes s) (current_term s) (voted_for s)
    v (commit_index s) (last_applied s) (state s) (next_index s)
    (match_index s) (last_heartbeat s) (applied s).

Definition set_state (v : RaftState) (s : RaftNode) : RaftNode :=
  mkRaftNode (node_id s) (cluster_nodes s) (current_term s) (voted_for s)
    (log s) (commit_index s) (last_applied s) v (next_index s)
    (match_index s) (last_heartbeat s) (applied s).

Definition set_last_heartbeat (v : Q) (s : RaftNode) : RaftNode :=
  mkRaftNode (node_id s) (cluster_nodes s) (current_term s) (voted_for s)
    (log s) (commit_index s) (last_applied s) (state s) (next_index s)
    (match_index s) v (applied s).

Definition set_next_index (v : gmap string Z) (s : RaftNode) : RaftNode :=
  mkRaftNode (node_id s) (cluster_nodes s) (current_term s) (voted_for s)
    (log s) (commit_index s) (last_applied s) (state s) v
    (match_index s) (last_heartbeat s) (applied s).

Definition set_match_index (v : gmap string Z) (s : RaftNode) : RaftNode :=
  mkRaftNode (node_id s) (cluster_nodes s) (current_term s) (voted_for s)
    (log s) (commit_index s) (last_applied s) (state s) (next_index s)
    v (last_heartbeat s) (applied s).

(** One turn of the loop of [_apply_committed_entries]:
    [last_applied += 1] and the callback on the entry. *)
Definition set_applied (i : Z) (c : Command) (s : RaftNode) : RaftNode :=
  mkRaftNode (node_id s) (cluster_nodes s) (current_term s) (voted_for s)
    (log s) (commit_index s) i (state s) (next_index s)
    (match_index s) (last_heartbeat s) (applied s ++ [c]).

Definition set_last_applied (i : Z) (s : RaftNode) : RaftNode :=
  mkRaftNode (node_id s) (cluster_nodes s) (current_term s) (voted_for s)
    (log s) (commit_index s) i (state s) (next_index s)
    (match_index s) (last_heartbeat s) (applied s).

(** A call either returns a value or raises IndexError; the node
    state reached is kept in both cases. *)
Inductive result (A : Type) :=
| Ok (s : RaftNode) (a : A)
| Raise (s : RaftNode).
Global Arguments Ok {A} s a.
Global Arguments Raise {A} s.

Definition state_of {A} (r : result A) : RaftNode :=
  match r with Ok s _ => s | Raise s => s end.

(** [_apply_committed_entries]: the [while] loop runs
    [commit_index - last_applied] times, which is the fuel. *)
Fixpoint apply_loop (fuel : nat) (s : RaftNode) : result unit :=
  match fuel with
  | O => Ok s tt
  | S fuel' =>
      let i := last_applied s + 1 in
      match Py.get (log s) i with
      | None => Raise (set_last_applied i s)
      | Some entry => apply_loop fuel' (set_applied i (command entry) s)
      end
  end.

Definition _apply_committed_entries (s : RaftNode) : result unit :=
  apply_loop (Z.to_nat (commit_index s - last_applied s)) s.

(** [self.match_index.get(peer_id, 0)] *)
Definition match_of (s : RaftNode) (peer_id : string) : Z :=
  default 0 (match_index s !! peer_id).

(** [count] of [_update_commit_index] for a candidate index [n]:
    one for the node itself, one per peer whose match index
    reaches [n]. *)
Definition count_for (s : RaftNode) (n : Z) : Z :=
  1 + Z.of_nat (size (filter (λ peer_id, n <= match_of s peer_id)
                             (cluster_nodes s))).

(** [(len(self.cluster_nodes) + 1) // 2 + 1] *)
Definition quorum (s : RaftNode) : Z :=
  (Z.of_nat (size (cluster_nodes s)) + 1) / 2 + 1.

(** The [for n in range(len(self.log) - 1, self.commit_index, -1)]
    loop, started at [n] with [fuel] values of [n] left. *)
Fixpoint commit_scan (fuel : nat) (n : Z) (s : RaftNode) : result unit :=
  match fuel with
  | O => Ok s tt
  | S fuel' =>
      match Py.get (log s) n with
      | None => Raise s
      | Some entry =>
          if term entry =? current_term s then
            if quorum s <=? count_for s n then
              _apply_committed_entries (set_commit_index n s)
            else commit_scan fuel' (n - 1) s
          else commit_scan fuel' (n - 1) s
      end
  end.

Definition _update_commit_index (s : RaftNode) : result unit :=
  if negb (RaftState_eqb (state s) LEADER) then Ok s tt
  else
    commit_scan (Z.to_nat (Py.len (log s) - 1 - commit_index s))
                (Py.len (log s) - 1) s.

(** [_step_down]; [now] is the clock reading taken there. *)
Definition _step_down (new_term : Z) (now : Q) (s : RaftNode) : RaftNode :=
  mkRaftNode (node_id s) (cluster_nodes s) new_term None
    (log s) (commit_index s) (last_applied s) FOLLOWER (next_index s)
    (match_index s) now (applied s).

(** The [data] of an append_entries_response, with the defaults of
    [data.get] already applied. *)
Record AppendEntriesResponse := mkAppendEntriesResponse {
  resp_term : Z;
  resp_success : bool;
  resp_match_index : Z
}.

(** [self.next_index[peer_id]] raises KeyError for an unknown peer;
    [Raise] stands for that too. *)
Definition _handle_append_entries_response
    (peer_id : string) (response : AppendEntriesResponse) (now : Q)
    (s : RaftNode) : result unit :=
  if current_term s <? resp_term response then
    Ok (_step_down (resp_term response) now s) tt
  else if negb (RaftState_eqb (state s) LEADER) then Ok s tt
  else if resp_success response then
    let m := resp_match_index response in
    _update_commit_index
      (set_match_index (<[peer_id := m]> (match_index s))
         (set_next_index (<[peer_id := m + 1]> (next_index s)) s))
  else
    match next_index s !! peer_id with
    | None => Raise s
    | Some ni =>
        Ok (set_next_index (<[peer_id := Z.max 0 (ni - 1)]> (next_index s)) s) tt
    end.

(** The [data] of an append_entries message as the leader builds it
    ([AppendEntriesMessage]), entries decoded by
    [LogEntry.from_dict]. *)
Record AppendEntries := mkAppendEntries {
  msg_term : Z;
  leader_id : string;
  prev_log_index : Z;
  prev_log_term : Z;
  entries : list LogEntry;
  leader_commit : Z
}.

(** The reply: [term], [success], [match_index]. *)
Record AppendReply := mkAppendReply {
  reply_term : Z;
  success : bool;
  reply_match_index : Z
}.

(** The test [prev_log_index == -1 or (prev_log_index < len(self.log)
    and self.log[prev_log_index].term == prev_log_term)];
    [None] when the indexing raises. *)
Definition log_matches (s : RaftNode) (m : AppendEntries) : option bool :=
  if prev_log_index m =? -1 then Some true
  else if prev_log_index m <? Py.len (log s) then
    match Py.get (log s) (prev_log_index m) with
    | None => None
    | Some e => Some (term e =? prev_log_term m)
    end
  else Some false.

(** The log after [if entries_data: ...]. *)
Definition append_new_entries (l : list LogEntry) (m : AppendEntries)
  : list LogEntry :=
  match entries m with
  | [] => l
  | _ :: _ =>
      let new_index := prev_log_index m + 1 in
      (if new_index <? Py.len l then Py.slice_to l new_index else l)
        ++ entries m
  end.

Definition _handle_append_entries (m : AppendEntries) (now : Q)
    (s : RaftNode) : result AppendReply :=
  if msg_term m <? current_term s then
    Ok s (mkAppendReply (current_term s) false 0)
  else
    let s1 := set_last_heartbeat now s in
    let s2 := if RaftState_eqb (state s1) CANDIDATE
              then set_state FOLLOWER s1 else s1 in
    match log_matches s2 m with
    | None => Raise s2
    | Some false => Ok s2 (mkAppendReply (current_term s2) false 0)
    | Some true =>
        let s3 := set_log (append_new_entries (log s2) m) s2 in
        let match_index := prev_log_index m + Py.len (entries m) in
        if commit_index s3 <? leader_commit m then
          let s4 := set_commit_index
                      (Z.min (leader_commit m) (Py.len (log s3) - 1)) s3 in
          match _apply_committed_entries s4 with
          | Ok s5 _ => Ok s5 (mkAppendReply (current_term s5) true match_index)
          | Raise s5 => Raise s5
          end
        else Ok s3 (mkAppendReply (current_term s3) true match_index)
    end.

End WithCommand.

Global Arguments LogEntry : clear implicits.
Global Arguments RaftNode : clear implicits.
Global Arguments AppendEntries : clear implicits.
Global Arguments result : clear implicits.

End Raft.

(** ** Lock manager (src/nodes/lock_manager.py) *)

Module Lock.

Inductive LockType := SHARED | EXCLUSIVE.

Global Instance LockType_eq_dec : EqDecision LockType.
Proof. solve_decision. Defined.

Record LockRequest := mkLockRequest {
  req_resource_id : string;
  req_lock_type : LockType;
  req_client_id : string;
  req_timestamp : Q
}.

Record LockInfo := mkLockInfo {
  resource_id : string;
  lock_type : LockType;
  holders : gset string;
  waiters : list LockRequest;
  acquired_at : Q
}.

(** [DeadlockDetector.wait_for_graph] and its two updates. *)
Definition add_edge (client_from client_to : string)
    (g : gmap string (gset string)) : gmap string (gset string) :=
  <[client_from := default ∅ (g !! client_from) ∪ {[client_to]}]> g.

Definition remove_edge (client_from client_to : string)
    (g : gmap string (gset string)) : gmap string (gset string) :=
  alter (λ tos, tos ∖ {[client_to]}) client_from g.

(** The state of [LockManager] that applied commands read and write. *)
Record LockManager := mkLockManager {
  locks : gmap string LockInfo;
  client_locks : gmap string (gset string);
  wait_for_graph : gmap string (gset string)
}.

Definition init : LockManager := mkLockManager ∅ ∅ ∅.

(** The committed command, a dict in the source, read by its
    ['operation'] key. *)
Inductive Command :=
| Acquire (resource_id : string) (lock_type : LockType)
          (client_id : string) (timestamp : Q)
| Release (resource_id : string) (client_id : string)
| Other (operation : string).

Definition _apply_acquire (rid : string) (lt : LockType) (cid : string)
    (ts : Q) (st : LockManager) : LockManager :=
  (* Initialize lock if doesn't exist *)
  let lock := default (mkLockInfo rid lt ∅ [] ts) (locks st !! rid) in
  let can_grant :=
    if bool_decide (holders lock = ∅) then true
    else if bool_decide (lt = SHARED) && bool_decide (lock_type lock = SHARED)
    then true
    else false in
  if can_grant then
    mkLockManager
      (<[rid := mkLockInfo (resource_id lock) lt (holders lock ∪ {[cid]})
                  (waiters lock) (acquired_at lock)]> (locks st))
      (<[cid := default ∅ (client_locks st !! cid) ∪ {[rid]}]>
         (client_locks st))
      (wait_for_graph st)
  else
    mkLockManager
      (<[rid := mkLockInfo (resource_id lock) (lock_type lock) (holders lock)
                  (waiters lock ++ [mkLockRequest rid lt cid ts])
                  (acquired_at lock)]> (locks st))
      (client_locks st)
      (set_fold (λ holder g, add_edge cid holder g)
                (wait_for_graph st) (holders lock)).

(** [list.sort(key=lambda x: x.timestamp)]: a stable sort, smallest
    timestamp first. *)
Fixpoint insert_by_timestamp (r : LockRequest) (l : list LockRequest)
  : list LockRequest :=
  match l with
  | [] => [r]
  | r' :: l' =>
      if Qle_bool (req_timestamp r) (req_timestamp r') then r :: r' :: l'
      else r' :: insert_by_timestamp r l'
  end.

Fixpoint sort_by_timestamp (l : list LockRequest) : list LockRequest :=
  match l with
  | [] => []
  | r :: l' => insert_by_timestamp r (sort_by_timestamp l')
  end.

Definition _apply_release (rid cid : string) (st : LockManager)
  : LockManager :=
  match locks st !! rid with
  | None => st
  | Some lock =>
      (* Remove from holders *)
      let holders' := holders lock ∖ {[cid]} in
      (* Remove from client locks *)
      let client_locks' := alter (λ rs, rs ∖ {[rid]}) cid (client_locks st) in
      (* Remove from wait-for graph *)
      let graph' := set_fold (λ holder g, remove_edge cid holder g)
                             (wait_for_graph st) holders' in
      (* Grant to waiters if possible *)
      match bool_decide (holders' = ∅), sort_by_timestamp (waiters lock) with
      | true, first_waiter :: rest =>
          _apply_acquire
            (req_resource_id first_waiter) (req_lock_type first_waiter)
            (req_client_id first_waiter) (req_timestamp first_waiter)
            (mkLockManager
               (<[rid := mkLockInfo (resource_id lock) (lock_type lock)
                           holders' rest (acquired_at lock)]> (locks st))
               client_locks' graph')
      | _, _ =>
          mkLockManager
            (<[rid := mkLockInfo (resource_id lock) (lock_type lock)
                        holders' (waiters lock) (acquired_at lock)]> (locks st))
            client_locks' graph'
      end
  end.

Definition _apply_lock_operation (command : Command) (st : LockManager)
  : LockManager :=
  match command with
  | Acquire rid lt cid ts => _apply_acquire rid lt cid ts st
  | Release rid cid => _apply_release rid cid st
  | Other _ => st
  end.

(** The commit stream applied in order, oldest command first. *)
Definition apply_all (commands : list Command) (st : LockManager)
  : LockManager :=
  foldl (λ st c, _apply_lock_operation c st) st commands.

(** [_is_lock_held] *)
Definition _is_lock_held (rid cid : string) (st : LockManager) : bool :=
  match locks st !! rid with
  | Some lock => bool_decide (cid ∈ holders lock)
  | None => false
  end.

End Lock.

(** ** Insertion-ordered dictionaries

    [dict] and [OrderedDict] where the order of the items is observed:
    the items in insertion order, every key at most once. *)

Module Dict.

Section Ops.
Context {V : Type}.

(** [d.get(k)] *)
Fixpoint get (d : list (string * V)) (k : string) : option V :=
  match d with
  | [] => None
  | (k', v) :: d' => if String.eqb k k' then Some v else get d' k
  end.

(** [k in d] *)
Definition mem (d : list (string * V)) (k : string) : bool :=
  match get d k with Some _ => true | None => false end.

(** [del d[k]] (and [d.pop(k)]) for a key that is present. *)
Definition del (d : list (string * V)) (k : string) : list (string * V) :=
  filter (λ kv, negb (String.eqb k kv.1) = true) d.

(** [d[k] = v]: a present key keeps its place, a new one goes last. *)
Fixpoint set (d : list (string * V)) (k : string) (v : V)
  : list (string * V) :=
  match d with
  | [] => [(k, v)]
  | (k', v') :: d' =>
      if String.eqb k k' then (k', v) :: d' else (k', v') :: set d' k v
  end.

(** [d.move_to_end(k)] for a key that is present. *)
Definition move_to_end (d : list (string * V)) (k : string)
  : list (string * V) :=
  match get d k with
  | Some v => del d k ++ [(k, v)]
  | None => d
  end.

End Ops.

End Dict.

(** ** Queue (src/nodes/queue_node.py) *)

Module Queue.

Section WithData.

(** The payload of a message ([Dict] in the source). *)
Context {Data : Type}.

Record Message := mkMessage {
  message_id : string;
  partition : Z;
  data : Data;
  timestamp : Q;
  attempts : Z;
  delivered : bool
}.

(** [ConsistentHash].  Every method that changes [ring] ends with
    [self.sorted_keys = sorted(self.ring.keys())], so [sorted_keys] is
    computed from [ring]. *)
Record ConsistentHash := mkConsistentHash {
  virtual_nodes : nat;
  ring : gmap Z string
}.

Definition sorted_keys (ch : ConsistentHash) : list Z :=
  merge_sort Z.le (elements (dom (ring ch))).

(** [hashlib.md5(key.encode()).hexdigest()] read as a base 16 number:
    a library function, taken as given. *)
Variable md5 : string → Z.

Definition _hash (key : string) : Z := md5 key.

(** [f"{node}:{i}"] *)
Definition virtual_key (node : string) (i : nat) : string :=
  node +:+ ":" +:+ pretty i.

Definition add_node (node : string) (ch : ConsistentHash) : ConsistentHash :=
  mkConsistentHash (virtual_nodes ch)
    (foldl (λ r i, <[_hash (virtual_key node i) := node]> r)
           (ring ch) (seq 0 (virtual_nodes ch))).

Definition remove_node (node : string) (ch : ConsistentHash)
  : ConsistentHash :=
  mkConsistentHash (virtual_nodes ch)
    (foldl (λ r i, delete (_hash (virtual_key node i)) r)
           (ring ch) (seq 0 (virtual_nodes ch))).

(** [ConsistentHash(nodes, virtual_nodes)] *)
Definition new_ring (nodes : list string) (vn : nat) : ConsistentHash :=
  foldl (λ ch node, add_node node ch) (mkConsistentHash vn ∅) nodes.

Definition get_node (key : string) (ch : ConsistentHash) : option string :=
  if bool_decide (ring ch = ∅) then None
  else
    let hash_value := _hash key in
    (* Find first node with hash >= key hash *)
    match list_find (λ ring_hash, hash_value <= ring_hash) (sorted_keys ch) with
    | Some (_, ring_hash) => ring ch !! ring_hash
    | None =>
        (* Wrap around to first node *)
        head (sorted_keys ch) ≫= λ k, ring ch !! k
    end.

(** [self.stats] *)
Record Stats := mkStats {
  produced : Z;
  consumed : Z;
  redelivered : Z;
  persisted : Z
}.

(** The state of [QueueNode].  [redis_client] is [None] when no client
    is connected and otherwise holds the stored messages by key; its
    calls are taken to succeed. *)
Record QueueNode := mkQueueNode {
  node_id : string;
  consistent_hash : ConsistentHash;
  partitions : gmap Z (list Message);
  pending_acks : list (string * Message);
  stats : Stats;
  redis_client : option (gmap string Message)
}.

(** The builtin [hash] on [str] and [None], and
    [Config.QUEUE_PARTITIONS]. *)
Variable py_hash : option string → Z.
Variable QUEUE_PARTITIONS : Z.

(** [a % b]: the result has the sign of [b], as [Z.modulo] has.  For
    [b = 0] Python raises ZeroDivisionError; the properties below take
    [b > 0]. *)
Definition py_mod (a b : Z) : Z := a mod b.

Definition _get_partition (key : string) (st : QueueNode) : Z :=
  let node := get_node key (consistent_hash st) in
  (* Map node to partition number *)
  py_mod (py_hash node) QUEUE_PARTITIONS.

(** [str] of a float inside an f-string, taken as given. *)
Variable str_of_float : Q → string.

(** [_persist_message] *)
Definition _persist_message (m : Message) (st : QueueNode) : QueueNode :=
  mkQueueNode (node_id st) (consistent_hash st) (partitions st)
    (pending_acks st) (stats st)
    (match redis_client st with
     | Some store => Some (<["message:" +:+ message_id m := m]> store)
     | None => None
     end).


(** The partition [produce] assigns: [if partition_key:] is false for
    [None] and for the empty string. *)
Definition assigned_partition (partition_key : option string)
    (st : QueueNode) : Z :=
  match partition_key with
  | Some key =>
      if String.eqb key "" then py_mod (produced (stats st)) QUEUE_PARTITIONS
      else _get_partition key st
  | None => py_mod (produced (stats st)) QUEUE_PARTITIONS
  end.

(** [produce]; [now_id] and [now_ts] are the two clock readings taken,
    for the message id and for the message's [timestamp]. *)
Definition produce (d : Data) (partition_key : option string)
    (now_id now_ts : Q) (st : QueueNode) : string * QueueNode :=
  (* Generate message ID *)
  let mid := node_id st +:+ ":" +:+ str_of_float now_id +:+ ":"
             +:+ pretty (produced (stats st)) in
  (* Determine partition *)
  let p := assigned_partition partition_key st in
  (* Create message *)
  let message := mkMessage mid p d now_ts 0 false in
  (* Add to partition *)
  let st1 := mkQueueNode (node_id st) (consistent_hash st)
               (<[p := default [] (partitions st !! p) ++ [message]]>
                  (partitions st))
               (pending_acks st) (stats st) (redis_client st) in
  (* Persist to Redis *)
  let st2 :=
    match redis_client st1 with
    | Some _ =>
        let st' := _persist_message message st1 in
        mkQueueNode (node_id st') (consistent_hash st') (partitions st')
          (pending_acks st')
          (mkStats (produced (stats st')) (consumed (stats st'))
                   (redelivered (stats st')) (persisted (stats st') + 1))
          (redis_client st')
    | None => st1
    end in
  (mid,
   mkQueueNode (node_id st2) (consistent_hash st2) (partitions st2)
     (pending_acks st2)
     (mkStats (produced (stats st2) + 1) (consumed (stats st2))
              (redelivered (stats st2)) (persisted (stats st2)))
     (redis_client st2)).

End WithData.

Global Arguments Message : clear implicits.
Global Arguments QueueNode : clear implicits.

Section Delivery.
Context {Data : Type}.
Implicit Types (st : QueueNode Data) (m : Message Data).

(** [f"{consumer_id}:{message_id}"] *)
Definition ack_key (consumer_id mid : string) : string :=
  consumer_id +:+ ":" +:+ mid.

Definition with_attempts (n : Z) m : Message Data :=
  mkMessage (message_id m) (partition m) (data m) (timestamp m) n
            (delivered m).

(** The body of the loop of [consume] when the partition has a
    message. *)
Definition deliver (p : Z) (consumer_id : string) (message : Message Data)
    (rest : list (Message Data)) st : Message Data * QueueNode Data :=
  let message := with_attempts (attempts message + 1) message in
  (message,
   mkQueueNode (node_id st) (consistent_hash st)
     (<[p := rest]> (partitions st))
     (Dict.set (pending_acks st) (ack_key consumer_id (message_id message))
               message)
     (mkStats (produced (stats st)) (consumed (stats st) + 1)
              (redelivered (stats st)) (persisted (stats st)))
     (redis_client st)).

(** [consume].  [clock] holds the readings of [time.time()] made by the
    loop test, one per turn; nothing else touches the node between two
    turns. *)
Fixpoint consume_loop (clock : list Q) (start_time timeout : Q) (p : Z)
    (consumer_id : string) st : option (Message Data) * QueueNode Data :=
  match clock with
  | [] => (None, st)
  | now :: clock' =>
      if Py.Qltb (now - start_time) timeout then
        match partitions st !! p with
        | Some (message :: rest) =>
            let '(m, st') := deliver p consumer_id message rest st in
            (Some m, st')
        | _ => consume_loop clock' start_time timeout p consumer_id st
        end
      else (None, st)
  end.

Definition consume (p : Z) (consumer_id : string) (timeout : Q)
    (start_time : Q) (clock : list Q) st
  : option (Message Data) * QueueNode Data :=
  consume_loop clock start_time timeout p consumer_id st.


(** The test of [_check_redelivery]: [now - message.timestamp > timeout]
    with [timeout = 30.0]. *)
Definition expired (now : Q) m : bool :=
  Py.Qgtb (now - timestamp m) 30.

(** One turn of the second loop of [_check_redelivery]; indexing
    [self.pending_acks] with an absent key would raise, which cannot
    happen for the keys the first loop collects. *)
Definition requeue (key : string) st : QueueNode Data :=
  match Dict.get (pending_acks st) key with
  | None => st
  | Some message =>
      mkQueueNode (node_id st) (consistent_hash st)
        (<[partition message :=
             message :: default [] (partitions st !! partition message)]>
           (partitions st))
        (Dict.del (pending_acks st) key)
        (mkStats (produced (stats st)) (consumed (stats st))
                 (redelivered (stats st) + 1) (persisted (stats st)))
        (redis_client st)
  end.

(** One scan of [_check_redelivery], made at clock reading [now]. *)
Definition _check_redelivery (now : Q) st : QueueNode Data :=
  (* Check pending acks *)
  let expired_keys :=
    (filter (λ km, expired now km.2 = true) (pending_acks st)).*1 in
  (* Redeliver expired messages *)
  foldl (λ st key, requeue key st) st expired_keys.

End Delivery.

End Queue.

(** ** Cache (src/nodes/cache_node.py) *)

Module Cache.

Inductive CacheState := MODIFIED | EXCLUSIVE | SHARED | INVALID.

Global Instance CacheState_eq_dec : EqDecision CacheState.
Proof. solve_decision. Defined.

Section WithValue.

(** The cached values ([Any] in the source). *)
Context {Value : Type}.

Record CacheLine := mkCacheLine {
  key : string;
  value : Value;
  state : CacheState;
  timestamp : Q;
  access_count : Z;
  dirty : bool
}.

(** The constructor with [__post_init__]. *)
Definition new_CacheLine (k : string) (v : Value) (s : CacheState)
    (ts : Q) (ac : Z) (d : bool) : CacheLine :=
  mkCacheLine k v s ts ac (if bool_decide (s = MODIFIED) then true else d).

(** [LRUCache]; the first item of [cache] is the least recently used. *)
Record LRUCache := mkLRUCache {
  capacity_bytes : Z;
  current_size : Z;
  cache : list (string * CacheLine)
}.

Definition new_LRUCache (capacity_mb : Z) : LRUCache :=
  mkLRUCache (capacity_mb * 1024 * 1024) 0 [].

(** [_estimate_size]: 1 KB per entry. *)
Definition _estimate_size (c : list (string * CacheLine)) : Z :=
  Py.len c * 1024.

(** [LRUCache.get]: the line found, and the cache with the key moved to
    the end and the line's access count raised. *)
Definition get (k : string) (c : LRUCache) : option CacheLine * LRUCache :=
  match Dict.get (cache c) k with
  | Some line =>
      let line' := mkCacheLine (key line) (value line) (state line)
                     (timestamp line) (access_count line + 1) (dirty line) in
      (Some line',
       mkLRUCache (capacity_bytes c) (current_size c)
         (Dict.del (cache c) k ++ [(k, line')]))
  | None => (None, c)
  end.

(** [_evict_lru]: [popitem(last=False)] takes the first item; the
    source returns its key, here the whole item is given. *)
Definition _evict_lru (c : list (string * CacheLine))
  : option (string * CacheLine) * list (string * CacheLine) :=
  match c with
  | [] => (None, [])
  | item :: c' => (Some item, c')
  end.

(** The loop [while len(self.cache) > 0 and self._estimate_size() >
    self.capacity_bytes: self._evict_lru()].  Every turn shortens the
    cache by one item, so [fuel = len(self.cache)] turns are enough.
    The items evicted, first evicted first, and what is left. *)
Fixpoint evict_loop (fuel : nat) (capacity : Z)
    (c : list (string * CacheLine))
  : list (string * CacheLine) * list (string * CacheLine) :=
  match fuel with
  | O => ([], c)
  | S fuel' =>
      if (0 <? Py.len c) && (capacity <? _estimate_size c) then
        match _evict_lru c with
        | (Some item, c') =>
            let '(evicted, rest) := evict_loop fuel' capacity c' in
            (item :: evicted, rest)
        | (None, c') => ([], c')
        end
      else ([], c)
  end.

(** The cache of [put] once the new entry is in, before the loop. *)
Definition with_entry (k : string) (line : CacheLine) (c : LRUCache)
  : list (string * CacheLine) :=
  (* Remove old entry *)
  let without := if Dict.mem (cache c) k then Dict.del (cache c) k
                 else cache c in
  (* Add new entry *)
  Dict.move_to_end (Dict.set without k line) k.

(** [LRUCache.put]; the items evicted are dropped. *)
Definition put (k : string) (line : CacheLine) (c : LRUCache) : LRUCache :=
  let added := with_entry k line c in
  (* Evict if necessary *)
  mkLRUCache (capacity_bytes c) (current_size c)
    (evict_loop (length added) (capacity_bytes c) added).2.

(** The items a [put] evicts. *)
Definition evicted_by_put (k : string) (line : CacheLine) (c : LRUCache)
  : list (string * CacheLine) :=
  let added := with_entry k line c in
  (evict_loop (length added) (capacity_bytes c) added).1.

(** [LRUCache.remove] *)
Definition remove (k : string) (c : LRUCache) : LRUCache :=
  if Dict.mem (cache c) k
  then mkLRUCache (capacity_bytes c) (current_size c) (Dict.del (cache c) k)
  else c.

(** The commands a cache node hands to [raft.submit_command]. *)
Inductive Command :=
| WriteCmd (key : string) (value : Value) (node_id : string)
| InvalidateCmd (key : string) (source_node : string)
| RegisterCmd (key : string) (node_id : string).

Record Stats := mkStats {
  hits : Z;
  misses : Z;
  invalidations : Z;
  writebacks : Z;
  evictions : Z
}.

(** The state of [CacheNode].  Of its Raft node it keeps whether it is
    the leader, the [state_machine] map, and [proposed], the commands
    given to [submit_command] so far, oldest first. *)
Record CacheNode := mkCacheNode {
  node_id : string;
  lru : LRUCache;
  key_locations : gmap string (gset string);
  stats : Stats;
  is_leader : bool;
  state_machine : gmap string Value;
  proposed : list Command
}.

Definition set_lru (c : LRUCache) (st : CacheNode) : CacheNode :=
  mkCacheNode (node_id st) c (key_locations st) (stats st) (is_leader st)
    (state_machine st) (proposed st).

Definition set_stats (s : Stats) (st : CacheNode) : CacheNode :=
  mkCacheNode (node_id st) (lru st) (key_locations st) s (is_leader st)
    (state_machine st) (proposed st).

(** [if self.raft.is_leader(): await self.raft.submit_command(command)] *)
Definition submit_if_leader (c : Command) (st : CacheNode) : CacheNode :=
  if is_leader st then
    mkCacheNode (node_id st) (lru st) (key_locations st) (stats st)
      (is_leader st) (state_machine st) (proposed st ++ [c])
  else st.

(** [_write_back] *)
Definition _write_back (k : string) (v : Value) (st : CacheNode)
  : CacheNode :=
  submit_if_leader (WriteCmd k v (node_id st)) st.

(** [_register_location] *)
Definition _register_location (k : string) (st : CacheNode) : CacheNode :=
  submit_if_leader (RegisterCmd k (node_id st)) st.

(** [_check_sharers] *)
Definition _check_sharers (k : string) (st : CacheNode) : bool :=
  match key_locations st !! k with
  | Some nodes => bool_decide (nodes ∖ {[node_id st]} ≠ ∅)
  | None => false
  end.

(** [_invalidate_others] *)
Definition _invalidate_others (k : string) (st : CacheNode) : CacheNode :=
  match key_locations st !! k with
  | None => st
  | Some nodes =>
      if bool_decide (nodes ∖ {[node_id st]} = ∅) then st
      else submit_if_leader (InvalidateCmd k (node_id st)) st
  end.

(** [CacheNode.write]; [now] is the clock reading for the new line. *)
Definition write (k : string) (v : Value) (now : Q) (st : CacheNode)
  : bool * CacheNode :=
  if negb (is_leader st) then (false, st)
  else
    let st1 := set_lru (get k (lru st)).2 st in
    (* Invalidate other caches *)
    let st2 := _invalidate_others k st1 in
    (* Update cache line *)
    let new_line := new_CacheLine k v MODIFIED now 0 true in
    let st3 := set_lru (put k new_line (lru st2)) st2 in
    (* Submit to Raft for persistence *)
    let st4 := submit_if_leader (WriteCmd k v (node_id st3)) st3 in
    (* Register location *)
    (true, _register_location k st4).

(** [CacheNode.invalidate] *)
Definition invalidate (k : string) (st : CacheNode) : bool * CacheNode :=
  match get k (lru st) with
  | (Some line, c) =>
      let st1 := set_lru c st in
      (* Write back if modified *)
      let st2 :=
        if bool_decide (state line = MODIFIED) then
          let st' := _write_back k (value line) st1 in
          set_stats (mkStats (hits (stats st')) (misses (stats st'))
                       (invalidations (stats st'))
                       (writebacks (stats st') + 1)
                       (evictions (stats st'))) st'
        else st1 in
      (* Invalidate *)
      let st3 := set_lru (remove k (lru st2)) st2 in
      (true,
       set_stats (mkStats (hits (stats st3)) (misses (stats st3))
                    (invalidations (stats st3) + 1)
                    (writebacks (stats st3)) (evictions (stats st3))) st3)
  | (None, _) => (false, st)
  end.

(** [value is None], for a value held by the state machine. *)
Variable is_none : Value → bool.

(** [CacheNode.read]; a miss is served from [state_machine] on the
    leader, unless the value found there is [None].  A value that is
    returned is given as [Some]; [None] is the [return None] at the end
    of the method. *)
Definition read (k : string) (now : Q) (st : CacheNode)
  : option Value * CacheNode :=
  let '(found, c) := get k (lru st) in
  let st1 := set_lru c st in
  let hit := match found with
             | Some line => negb (bool_decide (state line = INVALID))
             | None => false
             end in
  match found, hit with
  | Some line, true =>
      (Some (value line),
       set_stats (mkStats (hits (stats st1) + 1) (misses (stats st1))
                    (invalidations (stats st1)) (writebacks (stats st1))
                    (evictions (stats st1))) st1)
  | _, _ =>
      let st2 :=
        set_stats (mkStats (hits (stats st1)) (misses (stats st1) + 1)
                     (invalidations (stats st1)) (writebacks (stats st1))
                     (evictions (stats st1))) st1 in
      if is_leader st2 then
        match state_machine st2 !! k with
        | Some v =>
            if is_none v then (None, st2)
            else
              let s := if _check_sharers k st2 then SHARED else EXCLUSIVE in
              let new_line := new_CacheLine k v s now 0 false in
              let st3 := set_lru (put k new_line (lru st2)) st2 in
              (Some v, _register_location k st3)
        | None => (None, st2)
        end
      else (None, st2)
  end.

End WithValue.

Global Arguments CacheLine : clear implicits.
Global Arguments LRUCache : clear implicits.
Global Arguments Command : clear implicits.
Global Arguments CacheNode : clear implicits.

End Cache.

(** ** Failure detector (src/communication/failure_detector.py) *)

Module Failure.

(** The floats [phi] can return: a finite number or [float('inf')]. *)
Inductive Float := Finite (q : Q) | Infinity.

(** [x < threshold] *)
Definition Float_ltb (x : Float) (threshold : Q) : bool :=
  match x with
  | Finite q => Py.Qltb q threshold
  | Infinity => false
  end.

Record FailureDetector := mkFailureDetector {
  threshold : Q;
  window_size : nat;
  min_std_dev : Q;
  heartbeat_history : gmap string (list Q);
  last_heartbeat : gmap string Q;
  suspected_nodes : gset string
}.

(** [FailureDetector()] with the defaults of the constructor. *)
Definition default_detector : FailureDetector :=
  mkFailureDetector 8 100 (1 # 2) ∅ ∅ ∅.

(** [deque(maxlen=n).append(x)] *)
Definition deque_append (n : nat) (h : list Q) (x : Q) : list Q :=
  drop (length (h ++ [x]) - n)%nat (h ++ [x]).

(** [heartbeat]; [now] is the clock reading taken. *)
Definition heartbeat (node : string) (now : Q) (fd : FailureDetector)
  : FailureDetector :=
  let h := default [] (heartbeat_history fd !! node) in
  (* Record interval *)
  let h' := match last_heartbeat fd !! node with
            | Some last => deque_append (window_size fd) h (now - last)
            | None => h
            end in
  mkFailureDetector (threshold fd) (window_size fd) (min_std_dev fd)
    (<[node := h']> (heartbeat_history fd))
    (<[node := now]> (last_heartbeat fd))
    (* Remove from suspected if it was there *)
    (suspected_nodes fd ∖ {[node]}).

Section WithMath.

(** [math.sqrt], [math.exp] and [math.log10], taken as given; [log10]
    is [None] where Python raises ValueError. *)
Variable sqrt : Q → Q.
Variable exp : Q → Q.
Variable log10 : Q → option Q.

(** [max(a, b)] *)
Definition py_max (a b : Q) : Q := if Py.Qltb a b then b else a.

Definition Qsum (l : list Q) : Q := foldl Qplus 0%Q l.

(** [_cdf]; [None] where the division by [std_dev] raises. *)
Definition _cdf (x mean std_dev : Q) : option Q :=
  if Qeq_bool std_dev 0 then None
  else
    let z := ((x - mean) / std_dev)%Q in
    let t := (1 / (1 + (2316419 # 10000000) * Qabs z))%Q in
    let d := ((3989423 # 10000000) * exp (- z * z / 2))%Q in
    let p := (d * t * ((3193815 # 10000000)
                       + t * (- (3565638 # 10000000)
                              + t * ((1781478 # 1000000)
                                     + t * (- (1821256 # 1000000)
                                            + t * (1330274 # 1000000))))))%Q in
    Some (if Py.Qgtb z 0 then (1 - p)%Q else p).

(** [phi]; [now] is the clock reading taken, [None] an exception of the
    arithmetic. *)
Definition phi (node : string) (now : Q) (fd : FailureDetector)
  : option Float :=
  match last_heartbeat fd !! node with
  | None => Some Infinity
  | Some last =>
      let few := match heartbeat_history fd !! node with
                 | None => true
                 | Some h => (length h <? 2)%nat
                 end in
      if few then Some (Finite 0)
      else
        let intervals := default [] (heartbeat_history fd !! node) in
        let time_since_last := (now - last)%Q in
        (* Calculate mean and standard deviation *)
        let n := inject_Z (Py.len intervals) in
        let mean := (Qsum intervals / n)%Q in
        let variance :=
          (Qsum (map (λ x, (x - mean) * (x - mean))%Q intervals) / n)%Q in
        let std_dev := py_max (sqrt variance) (min_std_dev fd) in
        (* Calculate phi *)
        c ← _cdf time_since_last mean std_dev;
        l ← log10 c;
        Some (Finite (- l))
  end.

(** [is_available]: the answer and the detector, whose suspected set
    may have grown. *)
Definition is_available (node : string) (now : Q) (fd : FailureDetector)
  : option (bool * FailureDetector) :=
  phi_value ← phi node now fd;
  let available := Float_ltb phi_value (threshold fd) in
  Some (available,
        if negb available && negb (bool_decide (node ∈ suspected_nodes fd))
        then mkFailureDetector (threshold fd) (window_size fd)
               (min_std_dev fd) (heartbeat_history fd) (last_heartbeat fd)
               (suspected_nodes fd ∪ {[node]})
        else fd).

End WithMath.

End Failure.

(** ** Raft: votes, elections, dispatch (src/consensus/raft.py)

    The coroutines of [RaftNode] give up control only where they wait
    for the network or sleep.  Each function below is one stretch
    between two such places, so it runs without interruption; a
    coroutine that waits in its middle is given as its stretches. *)

Module RaftPeer.
Import Raft.

Section WithCommand.
Context {Command : Type}.
Implicit Types (s : RaftNode Command).

(** [l[k:]] *)
Definition slice_from {A} (l : list A) (k : Z) : list A :=
  if 0 <=? k then drop (Z.to_nat k) l
  else drop (Z.to_nat (Z.of_nat (length l) + k)) l.

(** A request_vote message: [term] and [sender_id] of the envelope and
    the [data] of [RequestVoteMessage], the defaults of [data.get]
    applied. *)
Record RequestVote := mkRequestVote {
  rv_term : Z;
  rv_sender_id : string;
  candidate_id : string;
  rv_last_log_index : Z;
  rv_last_log_term : Z
}.

(** A vote_response: the envelope's [term] and [vote_granted]. *)
Record VoteResponse := mkVoteResponse {
  vr_term : Z;
  vote_granted : bool
}.

(** [self.log[-1].term if self.log else 0] *)
Definition own_last_log_term s : Z :=
  match last (log s) with
  | Some e => term e
  | None => 0
  end.

Definition grant_vote (sender : string) (now : Q) s : RaftNode Command :=
  mkRaftNode (node_id s) (cluster_nodes s) (current_term s) (Some sender)
    (log s) (commit_index s) (last_applied s) (state s) (next_index s)
    (match_index s) now (applied s).

(** [_handle_request_vote] *)
Definition _handle_request_vote (m : RequestVote) (now : Q) s
  : RaftNode Command * VoteResponse :=
  if rv_term m <? current_term s then
    (s, mkVoteResponse (current_term s) false)
  else if match voted_for s with
          | None => true
          | Some v => String.eqb v (rv_sender_id m)
          end then
    (* Check if candidate's log is at least as up-to-date *)
    let last_log_index := Py.len (log s) - 1 in
    let last_log_term := own_last_log_term s in
    if (last_log_term <? rv_last_log_term m)
       || ((rv_last_log_term m =? last_log_term)
           && (last_log_index <=? rv_last_log_index m)) then
      (grant_vote (rv_sender_id m) now s,
       mkVoteResponse (current_term s) true)
    else (s, mkVoteResponse (current_term s) false)
  else (s, mkVoteResponse (current_term s) false).

(** The first stretch of [_handle_client_request]: a node that is not
    the leader answers at once; the leader appends the entry, whose
    [timestamp] is the clock reading [now], and goes on to replicate
    it.  The answer of the leader, sent after the replication, carries
    the index fixed here. *)
Definition _handle_client_request (c : Command) (now : Q) s
  : RaftNode Command * (bool * option Z) :=
  if negb (RaftState_eqb (state s) LEADER) then (s, (false, None))
  else
    let entry := mkLogEntry (current_term s) (Py.len (log s)) c now in
    (set_log (log s ++ [entry]) s, (true, Some (index entry))).

(** The messages [handle_message] dispatches on; [OtherMsg] is any
    other [msg_type]. *)
Inductive Message :=
| RequestVoteMsg (m : RequestVote)
| AppendEntriesMsg (m : AppendEntries Command)
| ClientRequestMsg (term : Z) (c : Command)
| OtherMsg (term : Z).

Definition message_term (msg : Message) : Z :=
  match msg with
  | RequestVoteMsg m => rv_term m
  | AppendEntriesMsg m => msg_term m
  | ClientRequestMsg t _ => t
  | OtherMsg t => t
  end.

Inductive Reply :=
| VoteReply (r : VoteResponse)
| AppendEntriesReply (r : AppendReply)
| ClientReply (success : bool) (index : option Z).

(** [handle_message], for a client request up to the end of its first
    stretch. *)
Definition handle_message (msg : Message) (now : Q) s
  : result Command (option Reply) :=
  (* Update term if necessary *)
  let s1 := if current_term s <? message_term msg
            then _step_down (message_term msg) now s else s in
  match msg with
  | RequestVoteMsg m =>
      let '(s2, r) := _handle_request_vote m now s1 in
      Ok s2 (Some (VoteReply r))
  | AppendEntriesMsg m =>
      match _handle_append_entries m now s1 with
      | Ok s2 r => Ok s2 (Some (AppendEntriesReply r))
      | Raise s2 => Raise s2
      end
  | ClientRequestMsg _ c =>
      let '(s2, (ok, i)) := _handle_client_request c now s1 in
      Ok s2 (Some (ClientReply ok i))
  | OtherMsg _ => Ok s1 None
  end.

(** The message [_send_append_entries] builds for [peer_id]; [None]
    when indexing the log raises, in which case nothing is sent. *)
Definition append_entries_for (peer_id : string)
    (entries : list (LogEntry Command)) s : option (AppendEntries Command) :=
  let next_idx := default (Py.len (log s)) (next_index s !! peer_id) in
  let prev_log_index := next_idx - 1 in
  prev_log_term ←
    (if 0 <=? prev_log_index
     then term <$> Py.get (log s) prev_log_index
     else Some 0);
  (* Get entries to send *)
  let entries_to_send :=
    match entries with
    | [] =>
        (* Heartbeat or catch-up *)
        if next_idx <? Py.len (log s) then slice_from (log s) next_idx
        else []
    | _ :: _ => entries
    end in
  Some (mkAppendEntries (current_term s) (node_id s) prev_log_index
          prev_log_term entries_to_send (commit_index s)).

(** The response as the leader reads it off the follower's reply. *)
Definition response_of (r : AppendReply) : AppendEntriesResponse :=
  mkAppendEntriesResponse (reply_term r) (success r) (reply_match_index r).

(** *** Elections *)

(** The node with the two fields an election uses besides those of
    [RaftNode]. *)
Record Candidate := mkCandidate {
  raft : RaftNode Command;
  votes_received : gset string;
  election_timeout : Q
}.

(** The test of [_election_timer]. *)
Definition election_due (now : Q) (n : Candidate) : bool :=
  negb (RaftState_eqb (state (raft n)) LEADER)
  && Qle_bool (election_timeout n) (now - last_heartbeat (raft n)).

(** The first stretch of [_start_election]: the transition to
    candidate; [timeout] is the new random election timeout. *)
Definition become_candidate (timeout now : Q) (n : Candidate) : Candidate :=
  let s := raft n in
  mkCandidate
    (mkRaftNode (node_id s) (cluster_nodes s) (current_term s + 1)
       (Some (node_id s)) (log s) (commit_index s) (last_applied s)
       CANDIDATE (next_index s) (match_index s) now (applied s))
    {[ node_id s ]} timeout.

(** The request [_start_election] sends to every peer. *)
Definition vote_request s : RequestVote :=
  mkRequestVote (current_term s) (node_id s) (node_id s)
    (Py.len (log s) - 1) (own_last_log_term s).

(** [_handle_vote_response] *)
Definition _handle_vote_response (peer_id : string) (response : VoteResponse)
    (now : Q) (n : Candidate) : Candidate :=
  if current_term (raft n) <? vr_term response then
    mkCandidate (_step_down (vr_term response) now (raft n))
      (votes_received n) (election_timeout n)
  else if (vr_term response =? current_term (raft n))
          && vote_granted response then
    mkCandidate (raft n) (votes_received n ∪ {[peer_id]})
      (election_timeout n)
  else n.

(** [_become_leader] *)
Definition _become_leader s : RaftNode Command :=
  let last_log_index := Py.len (log s) in
  mkRaftNode (node_id s) (cluster_nodes s) (current_term s) (voted_for s)
    (log s) (commit_index s) (last_applied s) LEADER
    (set_fold (λ peer_id m, <[peer_id := last_log_index]> m)
              (next_index s) (cluster_nodes s))
    (set_fold (λ peer_id m, <[peer_id := 0]> m)
              (match_index s) (cluster_nodes s))
    (last_heartbeat s) (applied s).

(** The last stretch of [_start_election]: the count of the votes. *)
Definition count_votes (n : Candidate) : Candidate :=
  if (quorum (raft n) <=? Z.of_nat (size (votes_received n)))
     && RaftState_eqb (state (raft n)) CANDIDATE
  then mkCandidate (_become_leader (raft n)) (votes_received n)
         (election_timeout n)
  else n.

(** [_start_election] when nothing else is handled while it waits:
    [responses] are the answers that came back, in the order in which
    they came, each with the clock reading at its arrival. *)
Definition _start_election (timeout now : Q)
    (responses : list (string * VoteResponse * Q)) (n : Candidate)
  : Candidate :=
  count_votes
    (foldl (λ n pr, _handle_vote_response pr.1.1 pr.1.2 pr.2 n)
           (become_candidate timeout now n) responses).

(** What can happen to a node, one stretch at a time: a message comes
    in, a peer answers a vote request or an append_entries message, the
    election timer fires, the votes of an election are counted. *)
Inductive Event :=
| Receive (msg : Message) (now : Q)
| VoteAnswer (peer_id : string) (response : VoteResponse) (now : Q)
| AppendAnswer (peer_id : string) (response : AppendEntriesResponse)
               (now : Q)
| ElectionTimeout (timeout now : Q)
| CountVotes.

Definition with_raft (s : RaftNode Command) (n : Candidate) : Candidate :=
  mkCandidate s (votes_received n) (election_timeout n).

(** One stretch; an exception ends it and is logged by its caller, the
    state reached stays. *)
Definition step (e : Event) (n : Candidate) : Candidate * option Reply :=
  match e with
  | Receive msg now =>
      match handle_message msg now (raft n) with
      | Ok s r => (with_raft s n, r)
      | Raise s => (with_raft s n, None)
      end
  | VoteAnswer peer_id response now =>
      (_handle_vote_response peer_id response now n, None)
  | AppendAnswer peer_id response now =>
      (with_raft (state_of (_handle_append_entries_response
                              peer_id response now (raft n))) n, None)
  | ElectionTimeout timeout now =>
      (if election_due now n then become_candidate timeout now n else n,
       None)
  | CountVotes => (count_votes n, None)
  end.

(** The votes a stretch casts: the one granted to a candidate, with
    the term of the request, or the one the node gives itself when it
    becomes a candidate, with its new term. *)
Definition vote_cast (e : Event) (n : Candidate) : option (Z * string) :=
  match e, (step e n).2 with
  | Receive (RequestVoteMsg m) _, Some (VoteReply r) =>
      if vote_granted r then Some (rv_term m, rv_sender_id m) else None
  | ElectionTimeout _ now, _ =>
      if election_due now n
      then Some (current_term (raft n) + 1, node_id (raft n)) else None
  | _, _ => None
  end.

(** A run: the node at its end and the votes cast on the way, oldest
    first. *)
Fixpoint run (events : list Event) (n : Candidate)
  : Candidate * list (Z * string) :=
  match events with
  | [] => (n, [])
  | e :: events' =>
      let '(n', votes) := run events' (step e n).1 in
      (n', from_option (λ v, [v]) [] (vote_cast e n) ++ votes)
  end.

End WithCommand.

Global Arguments Message : clear implicits.
Global Arguments Candidate : clear implicits.

End RaftPeer.

(** ** Queue: ring changes and recovery (src/nodes/queue_node.py) *)

Module QueueOps.
Import Queue.

(** The calls that change a ring once [ConsistentHash.__init__] has
    built it. *)
Inductive RingOp := AddNode (node : string) | RemoveNode (node : string).

Section WithHash.
Variable md5 : string → Z.

Definition ring_step (ch : ConsistentHash) (op : RingOp) : ConsistentHash :=
  match op with
  | AddNode node => add_node md5 node ch
  | RemoveNode node => remove_node md5 node ch
  end.

Definition ring_after (ops : list RingOp) (ch : ConsistentHash)
  : ConsistentHash :=
  foldl ring_step ch ops.

End WithHash.

Section Recovery.
Context {Data : Type}.
Implicit Types (st : QueueNode Data).

(** One turn of the loop of [_recover_messages]: [get] of a key that
    is gone gives nothing; a stored message that is not delivered goes
    to the end of its partition.  Reading the JSON text back gives the
    message that was written. *)
Definition recover_one (store : gmap string (Message Data)) st
    (key : string) : QueueNode Data :=
  match store !! key with
  | Some message =>
      if delivered message then st
      else
        mkQueueNode (node_id st) (consistent_hash st)
          (<[partition message :=
               default [] (partitions st !! partition message) ++ [message]]>
             (partitions st))
          (pending_acks st) (stats st) (redis_client st)
  | None => st
  end.

(** [_recover_messages]; [scan] is what
    [scan_iter(match="message:*")] yields, in its order. *)
Definition _recover_messages (scan : list string) st : QueueNode Data :=
  match redis_client st with
  | None => st
  | Some store => foldl (recover_one store) st scan
  end.

End Recovery.

End QueueOps.

(** ** Cache: committed commands (src/nodes/cache_node.py) *)

Module CacheOps.
Import Cache.

Section WithValue.
Context {Value : Type}.
Variable is_none : Value → bool.
Implicit Types (st : CacheNode Value).

(** [_apply_cache_operation], the commit callback of the cache node;
    an invalidation is applied whoever its [source_node] is. *)
Definition _apply_cache_operation (command : Command Value) st
  : CacheNode Value :=
  match command with
  | WriteCmd k v _ =>
      (* Store in state machine (memory) *)
      mkCacheNode (node_id st) (lru st) (key_locations st) (stats st)
        (is_leader st) (<[k := v]> (state_machine st)) (proposed st)
  | InvalidateCmd k _ => (invalidate k st).2
  | RegisterCmd k n =>
      mkCacheNode (node_id st) (lru st)
        (<[k := default ∅ (key_locations st !! k) ∪ {[n]}]> (key_locations st))
        (stats st) (is_leader st) (state_machine st) (proposed st)
  end.

(** What a cache node is asked to do, one call after the other. *)
Inductive Call :=
| Read (key : string) (now : Q)
| Write (key : string) (value : Value) (now : Q)
| Invalidate (key : string)
| Commit (command : Command Value).

Definition call (st : CacheNode Value) (c : Call) : CacheNode Value :=
  match c with
  | Read k now => (read is_none k now st).2
  | Write k v now => (write k v now st).2
  | Invalidate k => (invalidate k st).2
  | Commit command => _apply_cache_operation command st
  end.

Definition calls (cs : list Call) st : CacheNode Value :=
  foldl call st cs.

(** [get_cache_statistics]['total_accesses'] *)
Definition total_accesses st : Z := hits (stats st) + misses (stats st).

End WithValue.

Global Arguments Call : clear implicits.

End CacheOps.

(** ** Failure detector: the other calls
    (src/communication/failure_detector.py) *)

Module FailureOps.
Import Failure.

(** [reset] *)
Definition reset (node : string) (fd : FailureDetector) : FailureDetector :=
  mkFailureDetector (threshold fd) (window_size fd) (min_std_dev fd)
    (delete node (heartbeat_history fd))
    (delete node (last_heartbeat fd))
    (suspected_nodes fd ∖ {[node]}).

(** Heartbeats as they arrive: the node and the clock reading taken. *)
Definition heartbeats (arrivals : list (string * Q)) (fd : FailureDetector)
  : FailureDetector :=
  foldl (λ fd a, heartbeat a.1 a.2 fd) fd arrivals.

Section WithMath.
Variable sqrt : Q → Q.
Variable exp : Q → Q.
Variable log10 : Q → option Q.

(** [get_available_nodes]; every [is_available] reads the clock, so
    [node_ids] comes with the reading made for each node.  [None] where
    one of the calls raises. *)
Fixpoint get_available_nodes (node_ids : list (string * Q))
    (fd : FailureDetector) : option (list string * FailureDetector) :=
  match node_ids with
  | [] => Some ([], fd)
  | (node_id, now) :: rest =>
      match is_available sqrt exp log10 node_id now fd with
      | None => None
      | Some (available, fd1) =>
          match get_available_nodes rest fd1 with
          | None => None
          | Some (nodes, fd2) =>
              Some (if available then node_id :: nodes else nodes, fd2)
          end
      end
  end.

End WithMath.

End FailureOps.

(** ** Deadlock detection (src/nodes/lock_manager.py)

    [DeadlockDetector.has_cycle] walks the wait-for graph in the order
    Python iterates over it: the keys of the dict, and for each key the
    members of its set.  The graph is given here in that order.  [dfs]
    calls itself; the interpreter raises RecursionError when the calls
    nest deeper than it allows, and nothing in [has_cycle] catches
    it. *)

Module Deadlock.

Definition Graph := list (string * list string).

(** [visited], [rec_stack] and [path], shared by all calls of [dfs]. *)
Record Walk := mkWalk {
  visited : gset string;
  rec_stack : gset string;
  path : list string
}.

(** How a call ends: it returns [result] and leaves the shared state
    [w]; or [path.index], [path.pop] or [rec_stack.remove] raises; or
    the interpreter raises RecursionError. *)
Inductive outcome :=
| Done (result : option (list string)) (w : Walk)
| Raises
| RecursionError.

(** [path.index(x)]; [None] where it raises ValueError. *)
Fixpoint index (x : string) (l : list string) : option nat :=
  match l with
  | [] => None
  | y :: l' => if String.eqb x y then Some 0%nat else S <$> index x l'
  end.

(** [if result:] is false for [None] and for an empty list. *)
Definition truthy (result : option (list string)) : bool :=
  match result with
  | Some (_ :: _) => true
  | _ => false
  end.

Section WithGraph.
Variable graph : Graph.

(** The loop over [self.wait_for_graph[node]] inside [dfs]. *)
Fixpoint neighbors_loop (dfs : string → Walk → outcome)
    (neighbors : list string) (w : Walk) : outcome :=
  match neighbors with
  | [] => Done None w
  | neighbor :: rest =>
      if bool_decide (neighbor ∉ visited w) then
        match dfs neighbor w with
        | Done result w' =>
            if truthy result then Done result w'
            else neighbors_loop dfs rest w'
        | other => other
        end
      else if bool_decide (neighbor ∈ rec_stack w) then
        (* Found cycle *)
        match index neighbor (path w) with
        | Some cycle_start => Done (Some (drop cycle_start (path w))) w
        | None => Raises
        end
      else neighbors_loop dfs rest w
  end.

(** [dfs]; [depth] is the number of nested calls of [dfs] the
    interpreter still allows. *)
Fixpoint dfs (depth : nat) (node : string) (w : Walk) : outcome :=
  match depth with
  | O => RecursionError
  | S depth' =>
      let w1 := mkWalk (visited w ∪ {[node]}) (rec_stack w ∪ {[node]})
                       (path w ++ [node]) in
      let looped :=
        match Dict.get graph node with
        | Some neighbors => neighbors_loop (dfs depth') neighbors w1
        | None => Done None w1
        end in
      match looped with
      | Done None w2 =>
          (* path.pop(); rec_stack.remove(node) *)
          match path w2 with
          | [] => Raises
          | _ :: _ =>
              if bool_decide (node ∈ rec_stack w2) then
                Done None (mkWalk (visited w2) (rec_stack w2 ∖ {[node]})
                                  (removelast (path w2)))
              else Raises
          end
      | other => other
      end
  end.

(** The loop over [self.wait_for_graph.keys()]. *)
Fixpoint keys_loop (depth : nat) (keys : list string) (w : Walk)
  : outcome :=
  match keys with
  | [] => Done None w
  | node :: rest =>
      if bool_decide (node ∉ visited w) then
        match dfs depth node w with
        | Done cycle w' =>
            if truthy cycle then Done cycle w' else keys_loop depth rest w'
        | other => other
        end
      else keys_loop depth rest w
  end.

(** Every client the graph mentions. *)
Definition nodes : gset string :=
  list_to_set (graph.*1 ++ concat graph.*2).

(** [has_cycle], called when the interpreter allows [recursion_limit]
    more nested calls. *)
Definition has_cycle (recursion_limit : nat) : outcome :=
  keys_loop recursion_limit graph.*1 (mkWalk ∅ ∅ []).

End WithGraph.

(** [graph] is the dict [g] of sets, in some order of iteration. *)
Definition walk_of (g : gmap string (gset string)) (graph : Graph) : Prop :=
  ∀ a, list_to_set <$> Dict.get graph a = g !! a.

End Deadlock.

(* ===== properties ===== *)

(** ** Properties of the Raft replication path *)

Module RaftProofs.
Import Raft.

Section WithCommand.
Context {Command : Type}.
Implicit Types (s : RaftNode Command) (e : LogEntry Command).

(** The index of the last entry of the node's own log. *)
Definition last_log_index s : Z := Py.len (log s) - 1.






(** What the replication path never touches. *)
Definition same_config s s' : Prop :=
  log s' = log s ∧ current_term s' = current_term s
  ∧ match_index s' = match_index s ∧ cluster_nodes s' = cluster_nodes s
  ∧ state s' = state s.

Lemma apply_loop_frame fuel s :
  same_config s (state_of (apply_loop fuel s))
  ∧ commit_index (state_of (apply_loop fuel s)) = commit_index s.
Proof.
  revert s. induction fuel as [|fuel IH]; intros s; simpl.
  - by repeat split.
  - destruct (Py.get (log s) (last_applied s + 1)) as [entry|]; simpl.
    + destruct (IH (set_applied (last_applied s + 1) (command entry) s))
        as [(?&?&?&?&?) ?].
      by repeat split.
    + by repeat split.
Qed.

Lemma get_nonneg {A} (l : list A) (i : Z) :
  0 <= i → Py.get l i = l !! Z.to_nat i.
Proof. intros Hi. unfold Py.get. by rewrite (proj2 (Z.leb_le 0 i) Hi). Qed.

Lemma get_in_range {A} (l : list A) (i : Z) :
  0 <= i < Py.len l → is_Some (Py.get l i).
Proof.
  intros [Hi Hlen]. rewrite get_nonneg by done.
  apply lookup_lt_is_Some. unfold Py.len in Hlen. lia.
Qed.

Lemma get_Some_lt {A} (l : list A) (i : Z) x :
  0 <= i → Py.get l i = Some x → i < Py.len l.
Proof.
  intros Hi. rewrite get_nonneg by done. intros H%lookup_lt_Some.
  unfold Py.len. lia.
Qed.










(** *** The follower side *)

Implicit Types (m : AppendEntries Command).

Lemma apply_loop_returns fuel s :
  0 <= last_applied s →
  last_applied s + Z.of_nat fuel < Py.len (log s) →
  ∃ s', apply_loop fuel s = Ok s' tt.
Proof.
  revert s. induction fuel as [|fuel IH]; intros s H0 Hlen; simpl.
  - by eexists.
  - destruct (get_in_range (log s) (last_applied s + 1)) as [entry ->];
      [lia|].
    apply IH; simpl; lia.
Qed.

Lemma apply_loop_last_heartbeat fuel s :
  last_heartbeat (state_of (apply_loop fuel s)) = last_heartbeat s.
Proof.
  revert s. induction fuel as [|fuel IH]; intros s; simpl; [done|].
  destruct (Py.get (log s) (last_applied s + 1)); [|done].
  by rewrite IH.
Qed.

Lemma apply_committed_entries_returns s :
  0 <= last_applied s → commit_index s < Py.len (log s) →
  ∃ s', _apply_committed_entries s = Ok s' tt.
Proof.
  intros H0 Hc. unfold _apply_committed_entries.
  destruct (Z_le_gt_dec (commit_index s) (last_applied s)).
  - replace (Z.to_nat (commit_index s - last_applied s)) with O by lia.
    by eexists.
  - apply apply_loop_returns; [done|lia].
Qed.

Lemma commit_scan_returns fuel n s :
  -1 <= commit_index s → 0 <= last_applied s →
  n = commit_index s + Z.of_nat fuel →
  n <= last_log_index s →
  ∃ s', commit_scan fuel n s = Ok s' tt.
Proof.
  intros Hc Hla. revert n.
  induction fuel as [|fuel IH]; intros n Hn Hlast; simpl; [by eexists|].
  destruct (get_in_range (log s) n) as [entry ->].
  { unfold last_log_index in Hlast. lia. }
  destruct (term entry =? current_term s); [|apply IH; lia].
  destruct (quorum s <=? count_for s n); [|apply IH; lia].
  apply apply_committed_entries_returns; simpl; [done|].
  unfold last_log_index in Hlast. lia.
Qed.

(** On a node whose [last_applied] is not negative, as it never is,
    the leader's handling of a successful response raises nothing. *)
Lemma successful_response_returns peer_id response now s :
  state s = LEADER →
  resp_term response <= current_term s →
  resp_success response = true →
  -1 <= commit_index s → 0 <= last_applied s →
  ∃ s', _handle_append_entries_response peer_id response now s = Ok s' tt.
Proof.
  intros Hst Hterm Hok Hc Hla. unfold _handle_append_entries_response.
  rewrite (proj2 (Z.ltb_ge _ _) Hterm), Hst, Hok. simpl.
  unfold _update_commit_index. simpl. rewrite Hst. simpl.
  destruct (Z_le_gt_dec (Py.len (log s) - 1) (commit_index s)).
  - replace (Z.to_nat (Py.len (log s) - 1 - commit_index s)) with O by lia.
    by eexists.
  - apply commit_scan_returns; simpl; [done|done|lia|].
    unfold last_log_index. simpl. lia.
Qed.

(** The follower's test, in the words of the protocol: the message is
    not of an older term, and the entry before the new ones is the
    sentinel or is held locally with the announced term. *)
Definition accepts s m : Prop :=
  current_term s <= msg_term m
  ∧ (prev_log_index m = -1
     ∨ ∃ e, Py.get (log s) (prev_log_index m) = Some e
            ∧ term e = prev_log_term m).

Lemma log_matches_spec s m :
  -1 <= prev_log_index m →
  ∃ b, log_matches s m = Some b
       ∧ (b = true ↔
          (prev_log_index m = -1
           ∨ ∃ e, Py.get (log s) (prev_log_index m) = Some e
                  ∧ term e = prev_log_term m)).
Proof.
  intros Hp. unfold log_matches.
  destruct (prev_log_index m =? -1) eqn:H1.
  { apply Z.eqb_eq in H1. exists true. split; [done|]. split; auto. }
  apply Z.eqb_neq in H1.
  destruct (prev_log_index m <? Py.len (log s)) eqn:H2.
  - apply Z.ltb_lt in H2.
    destruct (get_in_range (log s) (prev_log_index m)) as [e He]; [lia|].
    rewrite He. eexists. split; [done|]. rewrite Z.eqb_eq. split.
    + intros Ht. right. by exists e.
    + intros [?|(e' & He' & Ht)]; [done|]. congruence.
  - apply Z.ltb_ge in H2. exists false. split; [done|]. split; [done|].
    intros [?|(e & He & _)]; [done|].
    apply get_Some_lt in He; lia.
Qed.

(** With entries, the log is cut after [prev_log_index] and the
    entries follow; with none it is left as it is. *)
Lemma append_new_entries_spec (l : list (LogEntry Command)) m :
  -1 <= prev_log_index m < Py.len l →
  (entries m ≠ [] →
   append_new_entries l m
   = take (Z.to_nat (prev_log_index m + 1)) l ++ entries m)
  ∧ (entries m = [] → append_new_entries l m = l).
Proof.
  intros Hp. unfold append_new_entries.
  destruct (entries m) as [|e es]; [done|]. split; [|done]. intros _.
  f_equal.
  destruct (prev_log_index m + 1 <? Py.len l) eqn:Hlt.
  - unfold Py.slice_to. by rewrite (proj2 (Z.leb_le 0 _)) by lia.
  - apply Z.ltb_ge in Hlt. rewrite take_ge; [done|].
    unfold Py.len in *. lia.
Qed.

Lemma accepts_prev_in_range s m :
  -1 <= prev_log_index m → accepts s m →
  -1 <= prev_log_index m < Py.len (log s).
Proof.
  intros Hp (_ & [->|(e & He & _)]); [unfold Py.len; lia|].
  destruct (decide (prev_log_index m = -1)) as [->|]; [unfold Py.len; lia|].
  apply get_Some_lt in He; lia.
Qed.

(** C2, as the code has it.  A follower accepts an AppendEntries
    message exactly when the message is not of an older term and the
    entry at [prev_log_index] is the sentinel (-1, positions being zero
    based) or is in its log with term [prev_log_term].  On accept it
    resets its election timer and replies success with
    [match_index = prev_log_index + len(entries)]; when the message
    carries entries, the log is cut after [prev_log_index] and the
    entries are appended; when it carries none, the log is left as it
    is.  Then, entries or none, if [leader_commit] is above the commit
    index, the commit index becomes the smaller of [leader_commit] and
    the index of the last entry of the log as the message leaves it:
    the index of the last new entry when the message carries entries,
    the last index of the unchanged local log when it carries none;
    otherwise the commit index is kept.  On reject it replies failure
    and log and commit index are kept. *)
Theorem follower_append_entries m now s :
  -1 <= prev_log_index m →
  0 <= last_applied s →
  ∃ s' reply,
    _handle_append_entries m now s = Ok s' reply
    ∧ (success reply = true ↔ accepts s m)
    ∧ (success reply = true →
       reply_match_index reply = prev_log_index m + Py.len (entries m)
       ∧ last_heartbeat s' = now
       ∧ (entries m ≠ [] →
          log s' = take (Z.to_nat (prev_log_index m + 1)) (log s)
                   ++ entries m)
       ∧ (entries m = [] → log s' = log s)
       ∧ (commit_index s < leader_commit m →
          commit_index s' = Z.min (leader_commit m) (Py.len (log s') - 1))
       ∧ (entries m ≠ [] → commit_index s < leader_commit m →
          commit_index s'
          = Z.min (leader_commit m)
                  (prev_log_index m + Py.len (entries m)))
       ∧ (entries m = [] → commit_index s < leader_commit m →
          commit_index s' = Z.min (leader_commit m) (Py.len (log s) - 1))
       ∧ (leader_commit m <= commit_index s →
          commit_index s' = commit_index s))
    ∧ (success reply = false →
       log s' = log s ∧ commit_index s' = commit_index s).
Proof.
  intros Hp Hla. unfold _handle_append_entries.
  destruct (msg_term m <? current_term s) eqn:Hterm.
  { apply Z.ltb_lt in Hterm. eexists _, _. split; [done|]. simpl.
    split; [|split; [done|done]].
    split; [done|]. intros [? _]. lia. }
  apply Z.ltb_ge in Hterm.
  set (s2 := if RaftState_eqb (state (set_last_heartbeat now s)) CANDIDATE
             then set_state FOLLOWER (set_last_heartbeat now s)
             else set_last_heartbeat now s).
  assert (Hs2 : log s2 = log s ∧ commit_index s2 = commit_index s
                ∧ last_applied s2 = last_applied s
                ∧ last_heartbeat s2 = now).
  { unfold s2.
    by destruct (RaftState_eqb (state (set_last_heartbeat now s)) CANDIDATE). }
  destruct Hs2 as (Hlog & Hci & Hlast & Hhb).
  destruct (log_matches_spec s2 m Hp) as (b & -> & Hb). rewrite Hlog in Hb.
  destruct b.
  2:{ eexists _, _. split; [done|]. simpl.
      split; [|split; [done|done]].
      split; [done|]. intros [_ Hacc]. by apply Hb in Hacc. }
  assert (Hacc : accepts s m) by (split; [done|by apply Hb]).
  pose proof (accepts_prev_in_range s m Hp Hacc) as Hrange.
  destruct (append_new_entries_spec (log s) m Hrange) as [Hcut Hkeep].
  rewrite Hlog.
  assert (Hlen : entries m ≠ [] →
                 Py.len (append_new_entries (log s) m) - 1
                 = prev_log_index m + Py.len (entries m)).
  { intros Hne. rewrite (Hcut Hne). unfold Py.len in *.
    rewrite length_app, length_take. lia. }
  simpl. rewrite Hci.
  destruct (commit_index s <? leader_commit m) eqn:Hlc.
  - apply Z.ltb_lt in Hlc. simpl.
    destruct (apply_committed_entries_returns
      (set_commit_index
         (Z.min (leader_commit m)
                (Py.len (append_new_entries (log s) m) - 1))
         (set_log (append_new_entries (log s) m) s2))) as [s5 Hs5].
    { simpl. lia. }
    { simpl. lia. }
    rewrite Hs5. eexists _, _. split; [done|]. simpl.
    unfold _apply_committed_entries in Hs5.
    match type of Hs5 with apply_loop ?f ?x = _ =>
      destruct (apply_loop_frame f x) as [(Hl5 & _) Hc5] end.
    rewrite Hs5 in Hl5, Hc5. simpl in Hl5, Hc5.
    assert (Hhb5 : last_heartbeat s5 = now).
    { match type of Hs5 with apply_loop ?f ?x = _ =>
        pose proof (apply_loop_last_heartbeat f x) as Hx end.
      rewrite Hs5 in Hx. simpl in Hx. congruence. }
    split; [done|]. split; [|done]. intros _.
    split; [done|]. split; [done|].
    split; [intros Hne; by rewrite Hl5, Hcut|].
    split; [intros He; by rewrite Hl5, Hkeep|].
    split; [intros _; by rewrite Hc5, Hl5|].
    split; [intros Hne _; rewrite Hc5; by rewrite Hlen|].
    split; [|lia]. intros He _. rewrite Hc5. by rewrite (Hkeep He).
  - apply Z.ltb_ge in Hlc. eexists _, _. split; [done|]. simpl.
    split; [done|]. split; [|done]. intros _.
    split; [done|]. split; [done|].
    split; [intros Hne; by rewrite Hcut|].
    split; [intros He; by rewrite Hkeep|].
    split; [lia|]. split; [lia|]. split; [lia|done].
Qed.

End WithCommand.

(** A three node cluster: the leader of term 2 holds three entries, the
    last two of its own term, and nothing above index 0 is committed. *)
Definition leader3 : RaftNode nat :=
  mkRaftNode "n1" {[ "n2"; "n3" ]} 2 (Some "n1")
    [mkLogEntry 1 0 10%nat 0%Q; mkLogEntry 2 1 11%nat 0%Q;
     mkLogEntry 2 2 12%nat 0%Q]
    0 0 LEADER {[ "n2" := 1; "n3" := 1 ]} {[ "n2" := 0; "n3" := 0 ]}
    0%Q [].

Example leader3_commits_2 :
  commit_index (state_of (_handle_append_entries_response
                            "n2" (mkAppendEntriesResponse 2 true 2) 0%Q
                            leader3)) = 2
  ∧ applied (state_of (_handle_append_entries_response
                         "n2" (mkAppendEntriesResponse 2 true 2) 0%Q
                         leader3)) = [11%nat; 12%nat].
Proof. by vm_compute. Qed.


(** The leader of [leader3] once it has recorded that [n2] holds index
    2, its commit index still at 0. *)
Definition leader3_pending : RaftNode nat :=
  mkRaftNode "n1" {[ "n2"; "n3" ]} 2 (Some "n1")
    [mkLogEntry 1 0 10%nat 0%Q; mkLogEntry 2 1 11%nat 0%Q;
     mkLogEntry 2 2 12%nat 0%Q]
    0 0 LEADER {[ "n2" := 3; "n3" := 1 ]} {[ "n2" := 2; "n3" := 0 ]}
    0%Q [].


(** The same response, successful, moves the commit index to 2. *)
Example successful_response_commits_pending :
  commit_index (state_of (_handle_append_entries_response
                            "n3" (mkAppendEntriesResponse 2 true 0) 0%Q
                            leader3_pending)) = 2.
Proof. by vm_compute. Qed.

(** A follower of term 1 that holds two entries, and two messages of its
    leader: a heartbeat after entry 0, and entry 1 of term 2 sent after
    entry 0. *)
Definition follower2 : RaftNode nat :=
  mkRaftNode "n2" {[ "n1"; "n3" ]} 1 (Some "n1")
    [mkLogEntry 1 0 10%nat 0%Q; mkLogEntry 1 1 11%nat 0%Q]
    0 0 FOLLOWER ∅ ∅ 0%Q [].

Definition heartbeat_after_0 : AppendEntries nat :=
  mkAppendEntries 1 "n1" 0 1 [] 0.

Definition entry_after_0 : AppendEntries nat :=
  mkAppendEntries 2 "n1" 0 1 [mkLogEntry 2 1 21%nat 0%Q] 1.

(** A heartbeat after entry 0 of a leader that has committed up to
    index 5. *)
Definition heartbeat_commit_5 : AppendEntries nat :=
  mkAppendEntries 1 "n1" 0 1 [] 5.

(** C2 as claimed fails on a heartbeat that announces a commit index
    above the follower's: it is accepted, the local suffix after
    [prev_log_index] is still there, and the commit index becomes the
    last index of the local log, 1, which is above
    [prev_log_index + len(entries)], 0: the local entry at index 1 is
    applied. *)
Lemma heartbeat_keeps_and_commits_local_suffix :
  ∃ s' reply,
    _handle_append_entries heartbeat_commit_5 5%Q follower2 = Ok s' reply
    ∧ success reply = true
    ∧ reply_match_index reply = 0
    ∧ log s' = log follower2
    ∧ log s' ≠ take (Z.to_nat (prev_log_index heartbeat_commit_5 + 1))
                    (log follower2)
               ++ entries heartbeat_commit_5
    ∧ commit_index follower2 < leader_commit heartbeat_commit_5
    ∧ commit_index s' = 1
    ∧ commit_index s'
      ≠ Z.min (leader_commit heartbeat_commit_5)
              (prev_log_index heartbeat_commit_5
               + Py.len (entries heartbeat_commit_5))
    ∧ applied s' = [11%nat].
Proof.
  eexists _, _. split; [reflexivity|]. split; [reflexivity|].
  split; [reflexivity|]. split; [reflexivity|].
  split; [simpl; intros H; discriminate H|].
  split; [simpl; lia|]. split; [reflexivity|].
  split; [by vm_compute|reflexivity].
Qed.

(** A heartbeat that announces no new commit index is accepted too, and
    the local suffix after [prev_log_index] is still there. *)
Example heartbeat_keeps_local_suffix :
  ∃ s' reply,
    _handle_append_entries heartbeat_after_0 5%Q follower2 = Ok s' reply
    ∧ success reply = true
    ∧ log s' = log follower2
    ∧ log s' ≠ take (Z.to_nat (prev_log_index heartbeat_after_0 + 1))
                    (log follower2)
               ++ entries heartbeat_after_0.
Proof.
  eexists _, _. split; [reflexivity|]. split; [reflexivity|].
  split; [reflexivity|]. simpl. intros H. discriminate H.
Qed.

Example entry_after_0_replaces_suffix :
  ∃ s' reply,
    _handle_append_entries entry_after_0 5%Q follower2 = Ok s' reply
    ∧ success reply = true ∧ reply_match_index reply = 1
    ∧ log s' = [mkLogEntry 1 0 10%nat 0%Q; mkLogEntry 2 1 21%nat 0%Q]
    ∧ commit_index s' = 1 ∧ applied s' = [21%nat].
Proof. eexists _, _. by vm_compute. Qed.

Lemma follower_append_entries_witness :
  ∃ s' reply,
    _handle_append_entries entry_after_0 5%Q follower2 = Ok s' reply
    ∧ (success reply = true ↔ accepts follower2 entry_after_0)
    ∧ (success reply = true →
       reply_match_index reply
       = prev_log_index entry_after_0 + Py.len (entries entry_after_0)
       ∧ last_heartbeat s' = 5%Q
       ∧ (entries entry_after_0 ≠ [] →
          log s' = take (Z.to_nat (prev_log_index entry_after_0 + 1))
                        (log follower2)
                   ++ entries entry_after_0)
       ∧ (entries entry_after_0 = [] → log s' = log follower2)
       ∧ (commit_index follower2 < leader_commit entry_after_0 →
          commit_index s'
          = Z.min (leader_commit entry_after_0) (Py.len (log s') - 1))
       ∧ (entries entry_after_0 ≠ [] →
          commit_index follower2 < leader_commit entry_after_0 →
          commit_index s'
          = Z.min (leader_commit entry_after_0)
                  (prev_log_index entry_after_0
                   + Py.len (entries entry_after_0)))
       ∧ (entries entry_after_0 = [] →
          commit_index follower2 < leader_commit entry_after_0 →
          commit_index s'
          = Z.min (leader_commit entry_after_0)
                  (Py.len (log follower2) - 1))
       ∧ (leader_commit entry_after_0 <= commit_index follower2 →
          commit_index s' = commit_index follower2))
    ∧ (success reply = false →
       log s' = log follower2 ∧ commit_index s' = commit_index follower2).
Proof.
  apply (follower_append_entries entry_after_0 5%Q follower2);
    simpl; lia.
Defined.

End RaftProofs.

(** ** Properties of the lock table *)

Module LockProofs.
Import Lock.

Local Open Scope nat_scope.

(** An exclusive lock has at most one holder. *)
Definition exclusive_alone (lock : LockInfo) : Prop :=
  lock_type lock = EXCLUSIVE → size (holders lock) ≤ 1.

Definition lock_safe (st : LockManager) : Prop :=
  ∀ rid lock, locks st !! rid = Some lock → exclusive_alone lock.

Lemma lock_safe_init : lock_safe init.
Proof. intros rid lock H. simpl in H. by rewrite lookup_empty in H. Qed.

Lemma insert_safe rid lock st cl g :
  exclusive_alone lock → lock_safe st →
  lock_safe (mkLockManager (<[rid := lock]> (locks st)) cl g).
Proof.
  intros Hlock Hsafe rid' lock'. simpl.
  destruct (decide (rid = rid')) as [<-|Hne].
  - rewrite lookup_insert_eq. by intros [= <-].
  - rewrite lookup_insert_ne by done. exact (Hsafe rid' lock').
Qed.

Lemma sole_holder_alone r lt (hs : gset string) cid ws a :
  hs = ∅ → exclusive_alone (mkLockInfo r lt (hs ∪ {[cid]}) ws a).
Proof.
  intros -> _. cbn [holders]. rewrite (left_id_L ∅ (∪)).
  by rewrite size_singleton.
Qed.

Lemma apply_acquire_safe rid lt cid ts st :
  lock_safe st → lock_safe (_apply_acquire rid lt cid ts st).
Proof.
  intros Hsafe. unfold _apply_acquire.
  destruct (locks st !! rid) as [lock|] eqn:Hlock; simpl.
  - destruct (bool_decide (holders lock = ∅)) eqn:Hempty.
    + apply bool_decide_eq_true in Hempty.
      apply insert_safe; [|done]. by apply sole_holder_alone.
    + destruct (bool_decide (lt = SHARED)
                && bool_decide (lock_type lock = SHARED)) eqn:Hsh.
      * apply insert_safe; [|done]. unfold exclusive_alone. simpl.
        apply andb_true_iff in Hsh as [Hlt%bool_decide_eq_true _].
        by rewrite Hlt.
      * apply insert_safe; [|done]. exact (Hsafe rid lock Hlock).
  - rewrite bool_decide_eq_true_2 by done.
    apply insert_safe; [|done]. by apply sole_holder_alone.
Qed.

Lemma apply_release_safe rid cid st :
  lock_safe st → lock_safe (_apply_release rid cid st).
Proof.
  intros Hsafe. unfold _apply_release.
  destruct (locks st !! rid) as [lock|] eqn:Hlock; [|done].
  assert (Hless : ∀ ws,
    exclusive_alone (mkLockInfo (resource_id lock) (lock_type lock)
                       (holders lock ∖ {[cid]}) ws (acquired_at lock))).
  { intros ws Hx. cbn [holders lock_type] in *.
    etrans; [|exact (Hsafe rid lock Hlock Hx)].
    apply subseteq_size, subseteq_difference_l. reflexivity. }
  destruct (bool_decide (holders lock ∖ {[cid]} = ∅)).
  - destruct (sort_by_timestamp (waiters lock)) as [|first_waiter rest].
    + by apply insert_safe.
    + apply apply_acquire_safe. by apply insert_safe.
  - by apply insert_safe.
Qed.

Lemma apply_all_safe commands st :
  lock_safe st → lock_safe (apply_all commands st).
Proof.
  revert st. induction commands as [|c commands IH]; intros st Hsafe; [done|].
  simpl. apply IH. destruct c; simpl.
  - by apply apply_acquire_safe.
  - by apply apply_release_safe.
  - done.
Qed.

(** C3. In every lock table reached from the empty one by a sequence
    of applied commands, a lock whose mode is EXCLUSIVE has at most one
    holder. *)
Theorem lock_safety commands rid lock :
  locks (apply_all commands init) !! rid = Some lock →
  lock_type lock = EXCLUSIVE →
  size (holders lock) ≤ 1.
Proof.
  intros Hlock. by apply (apply_all_safe commands init lock_safe_init rid).
Qed.

Definition two_requests : list Command :=
  [Acquire "R" EXCLUSIVE "a" 1%Q; Acquire "R" SHARED "b" 2%Q].

Definition lock_after_two_requests : LockInfo :=
  mkLockInfo "R" EXCLUSIVE {[ "a" ]}
    [mkLockRequest "R" SHARED "b" 2%Q] 1%Q.

Lemma lock_safety_witness : size (holders lock_after_two_requests) ≤ 1.
Proof.
  apply (lock_safety two_requests "R" lock_after_two_requests);
    reflexivity.
Defined.

(** *** Granting a shared request *)

(** C4 as claimed fails: with a shared holder [a] and an exclusive
    waiter [b] queued at time 2, the shared request of [c] made at
    time 3 is granted at once, and [b] still waits. *)
Lemma shared_request_overtakes_exclusive_waiter :
  let st := apply_all [Acquire "R" SHARED "a" 1%Q;
                       Acquire "R" EXCLUSIVE "b" 2%Q] init in
  let st' := _apply_acquire "R" SHARED "c" 3%Q st in
  (∃ lock, locks st !! "R" = Some lock
           ∧ lock_type lock = SHARED ∧ holders lock = {[ "a" ]}
           ∧ waiters lock = [mkLockRequest "R" EXCLUSIVE "b" 2%Q])
  ∧ (∃ lock', locks st' !! "R" = Some lock'
              ∧ ("c" ∈ holders lock') ∧ ("b" ∉ holders lock')
              ∧ waiters lock' = [mkLockRequest "R" EXCLUSIVE "b" 2%Q]).
Proof.
  split.
  - eexists. split; [reflexivity|]. by repeat split.
  - eexists. split; [reflexivity|]. cbn [holders waiters].
    split; [|split; [|done]].
    + apply (bool_decide_unpack _). by vm_compute.
    + apply (bool_decide_unpack _). by vm_compute.
Qed.

(** C4, as the code has it.  Whether a shared request on an existing
    lock is granted depends on the holders and the mode only, never on
    the waiters: it joins the holders when there is no holder or the
    mode is SHARED, also while an exclusive waiter queued earlier is
    still waiting, and it is queued behind the waiters otherwise. *)
Theorem shared_acquire_ignores_waiters rid cid ts st lock :
  locks st !! rid = Some lock →
  ∃ lock', locks (_apply_acquire rid SHARED cid ts st) !! rid = Some lock'
    ∧ (holders lock = ∅ ∨ lock_type lock = SHARED →
       holders lock' = holders lock ∪ {[cid]}
       ∧ lock_type lock' = SHARED
       ∧ waiters lock' = waiters lock)
    ∧ (holders lock ≠ ∅ ∧ lock_type lock = EXCLUSIVE →
       holders lock' = holders lock
       ∧ lock_type lock' = EXCLUSIVE
       ∧ waiters lock' = waiters lock ++ [mkLockRequest rid SHARED cid ts]).
Proof.
  intros Hlock. unfold _apply_acquire. rewrite Hlock.
  cbn [default from_option id].
  destruct (bool_decide (holders lock = ∅)) eqn:Hempty.
  - apply bool_decide_eq_true in Hempty. cbn [locks].
    rewrite lookup_insert_eq. eexists. split; [done|].
    cbn [holders lock_type waiters]. split; [done|]. by intros [? _].
  - apply bool_decide_eq_false in Hempty.
    rewrite (bool_decide_eq_true_2 (SHARED = SHARED)) by done.
    cbn [andb].
    destruct (bool_decide (lock_type lock = SHARED)) eqn:Hmode.
    + apply bool_decide_eq_true in Hmode. cbn [locks].
      rewrite lookup_insert_eq. eexists. split; [done|].
      cbn [holders lock_type waiters]. split; [done|].
      intros [_ Hx]. congruence.
    + apply bool_decide_eq_false in Hmode. cbn [locks].
      rewrite lookup_insert_eq. eexists. split; [done|].
      cbn [holders lock_type waiters]. split.
      * intros [?|?]; done.
      * intros [_ Hx]. done.
Qed.

Lemma shared_acquire_ignores_waiters_witness :
  let st := apply_all [Acquire "R" SHARED "a" 1%Q;
                       Acquire "R" EXCLUSIVE "b" 2%Q] init in
  let lock := mkLockInfo "R" SHARED {[ "a" ]}
                [mkLockRequest "R" EXCLUSIVE "b" 2%Q] 1%Q in
  ∃ lock', locks (_apply_acquire "R" SHARED "c" 3%Q st) !! "R" = Some lock'
    ∧ (holders lock = ∅ ∨ lock_type lock = SHARED →
       holders lock' = holders lock ∪ {[ "c" ]}
       ∧ lock_type lock' = SHARED
       ∧ waiters lock' = waiters lock)
    ∧ (holders lock ≠ ∅ ∧ lock_type lock = EXCLUSIVE →
       holders lock' = holders lock
       ∧ lock_type lock' = EXCLUSIVE
       ∧ waiters lock' = waiters lock
                         ++ [mkLockRequest "R" SHARED "c" 3%Q]).
Proof.
  apply (shared_acquire_ignores_waiters "R" "c" 3%Q
           (apply_all [Acquire "R" SHARED "a" 1%Q;
                       Acquire "R" EXCLUSIVE "b" 2%Q] init)
           (mkLockInfo "R" SHARED {[ "a" ]}
              [mkLockRequest "R" EXCLUSIVE "b" 2%Q] 1%Q)).
  reflexivity.
Defined.

(** *** Releasing *)

(** [w] is the waiter the sort puts first: the first of [l] among those
    of smallest timestamp; [rest] is the others, sorted. *)
Definition earliest_waiter (l : list LockRequest) (w : LockRequest)
    (rest : list LockRequest) : Prop :=
  ∃ l1 l2,
    l = l1 ++ w :: l2
    ∧ Forall (λ x, (req_timestamp w < req_timestamp x)%Q) l1
    ∧ Forall (λ x, (req_timestamp w <= req_timestamp x)%Q) l2
    ∧ rest = sort_by_timestamp (l1 ++ l2).

Lemma sort_by_timestamp_head l w ws :
  sort_by_timestamp l = w :: ws → earliest_waiter l w ws.
Proof.
  revert w ws. induction l as [|r l IH]; intros w ws; [done|]. simpl.
  destruct (sort_by_timestamp l) as [|w' ws'] eqn:Hsort.
  - intros [= <- <-]. destruct l as [|r' l'].
    + by exists [], [].
    + exfalso. simpl in Hsort. clear -Hsort.
      destruct (sort_by_timestamp l') as [|x xs]; simpl in Hsort; [done|].
      by destruct (Qle_bool (req_timestamp r') (req_timestamp x)).
  - destruct (IH w' ws' eq_refl) as (l1 & l2 & -> & Hl1 & Hl2 & ->).
    simpl. destruct (Qle_bool (req_timestamp r) (req_timestamp w')) eqn:Hle.
    + apply Qle_bool_iff in Hle. intros [= <- <-].
      exists [], (l1 ++ w' :: l2). split; [done|]. split; [done|].
      split; [|by rewrite <- Hsort].
      apply Forall_app. split.
      * eapply Forall_impl; [exact Hl1|]. intros x Hx. simpl in Hx.
        apply Qlt_le_weak. eapply Qle_lt_trans; eauto.
      * constructor; [done|].
        eapply Forall_impl; [exact Hl2|]. intros x Hx. simpl in Hx.
        eapply Qle_trans; eauto.
    + intros [= <- <-]. exists (r :: l1), l2. split; [done|].
      split; [|done]. constructor; [|done].
      apply Qnot_le_lt. intros Hx. apply Qle_bool_iff in Hx. congruence.
Qed.

Lemma insert_by_timestamp_perm r l : insert_by_timestamp r l ≡ₚ r :: l.
Proof.
  induction l as [|r' l IH]; simpl; [done|].
  destruct (Qle_bool (req_timestamp r) (req_timestamp r')); [done|].
  rewrite IH. apply Permutation_swap.
Qed.

Lemma sort_by_timestamp_perm l : sort_by_timestamp l ≡ₚ l.
Proof.
  induction l as [|r l IH]; simpl; [done|].
  by rewrite insert_by_timestamp_perm, IH.
Qed.

(** Every waiter of a lock asks for that lock's resource. *)
Definition waiters_tagged (st : LockManager) : Prop :=
  ∀ rid lock, locks st !! rid = Some lock →
    Forall (λ w, req_resource_id w = rid) (waiters lock).

Lemma waiters_tagged_init : waiters_tagged init.
Proof. intros rid lock H. simpl in H. by rewrite lookup_empty in H. Qed.

Lemma insert_tagged rid lock st cl g :
  Forall (λ w, req_resource_id w = rid) (waiters lock) →
  waiters_tagged st →
  waiters_tagged (mkLockManager (<[rid := lock]> (locks st)) cl g).
Proof.
  intros Hlock Htag rid' lock'. cbn [locks].
  destruct (decide (rid = rid')) as [<-|Hne].
  - rewrite lookup_insert_eq. by intros [= <-].
  - rewrite lookup_insert_ne by done. exact (Htag rid' lock').
Qed.

Lemma apply_acquire_tagged rid lt cid ts st :
  waiters_tagged st → waiters_tagged (_apply_acquire rid lt cid ts st).
Proof.
  intros Htag. unfold _apply_acquire.
  assert (Hw : Forall (λ w, req_resource_id w = rid)
                 (waiters (default (mkLockInfo rid lt ∅ [] ts)
                                   (locks st !! rid)))).
  { destruct (locks st !! rid) as [lock|] eqn:Hlock; [|done].
    exact (Htag rid lock Hlock). }
  destruct (if bool_decide _ then true else _).
  - by apply insert_tagged.
  - apply insert_tagged; [|done]. cbn [waiters].
    apply Forall_app. split; [done|]. by constructor.
Qed.

Lemma apply_release_tagged rid cid st :
  waiters_tagged st → waiters_tagged (_apply_release rid cid st).
Proof.
  intros Htag. unfold _apply_release.
  destruct (locks st !! rid) as [lock|] eqn:Hlock; [|done].
  pose proof (Htag rid lock Hlock) as Hw.
  destruct (bool_decide (holders lock ∖ {[cid]} = ∅)).
  - destruct (sort_by_timestamp (waiters lock)) as [|w ws] eqn:Hsort.
    + by apply insert_tagged.
    + apply apply_acquire_tagged, insert_tagged; [|done]. cbn [waiters].
      rewrite <- (sort_by_timestamp_perm (waiters lock)), Hsort in Hw.
      by inversion Hw.
  - by apply insert_tagged.
Qed.

Lemma apply_all_tagged commands st :
  waiters_tagged st → waiters_tagged (apply_all commands st).
Proof.
  revert st. induction commands as [|c commands IH]; intros st Htag; [done|].
  simpl. apply IH. destruct c; simpl.
  - by apply apply_acquire_tagged.
  - by apply apply_release_tagged.
  - done.
Qed.

(** C5 as claimed fails twice: of two shared waiters that could share
    the lock only the first is promoted, and a lock left without holders
    and waiters keeps its entry. *)
Lemma release_promotes_one_and_keeps_entry :
  (let st := apply_all [Acquire "R" EXCLUSIVE "a" 1%Q;
                        Acquire "R" SHARED "b" 2%Q;
                        Acquire "R" SHARED "c" 3%Q;
                        Release "R" "a"] init in
   ∃ lock, locks st !! "R" = Some lock
           ∧ holders lock = {[ "b" ]} ∧ lock_type lock = SHARED
           ∧ waiters lock = [mkLockRequest "R" SHARED "c" 3%Q])
  ∧ (let st := apply_all [Acquire "R" EXCLUSIVE "a" 1%Q;
                          Release "R" "a"] init in
     ∃ lock, locks st !! "R" = Some lock
             ∧ holders lock = ∅ ∧ waiters lock = []).
Proof.
  split.
  - eexists. split; [reflexivity|]. by repeat split.
  - eexists. split; [reflexivity|]. by repeat split.
Qed.

(** C5, as the code has it.  In a reachable lock table, applying
    release(resource, client_id) removes the client from the holders.
    If holders remain, or nobody waits, nothing else changes.  If no
    holder remains and somebody waits, one waiter is taken from the
    queue: the first among those of smallest timestamp; it becomes the
    only holder, the mode becomes the one it asked for, and all other
    waiters stay queued, in timestamp order.  The resource keeps its
    entry in every case. *)
Theorem release_grants_first_waiter commands rid cid lock :
  locks (apply_all commands init) !! rid = Some lock →
  ∃ lock',
    locks (_apply_release rid cid (apply_all commands init)) !! rid
    = Some lock'
    ∧ (holders lock ∖ {[cid]} ≠ ∅ ∨ waiters lock = [] →
       holders lock' = holders lock ∖ {[cid]}
       ∧ lock_type lock' = lock_type lock
       ∧ waiters lock' = waiters lock)
    ∧ (holders lock ∖ {[cid]} = ∅ → waiters lock ≠ [] →
       ∃ w, earliest_waiter (waiters lock) w (waiters lock')
            ∧ holders lock' = {[req_client_id w]}
            ∧ lock_type lock' = req_lock_type w).
Proof.
  intros Hlock.
  pose proof (apply_all_tagged commands init waiters_tagged_init
                rid lock Hlock) as Hw.
  unfold _apply_release. rewrite Hlock.
  destruct (bool_decide (holders lock ∖ {[cid]} = ∅)) eqn:Hempty.
  - apply bool_decide_eq_true in Hempty.
    destruct (sort_by_timestamp (waiters lock)) as [|w ws] eqn:Hsort.
    + assert (Hnil : waiters lock = []).
      { apply Permutation_nil. by rewrite <- Hsort, sort_by_timestamp_perm. }
      cbn [locks]. rewrite lookup_insert_eq. eexists. split; [done|].
      cbn [holders lock_type waiters]. split; [done|]. by intros _ ?.
    + assert (Hrid : req_resource_id w = rid).
      { rewrite <- (sort_by_timestamp_perm (waiters lock)), Hsort in Hw.
        by inversion Hw. }
      rewrite Hrid. unfold _apply_acquire. cbn [locks].
      rewrite lookup_insert_eq. cbn [default from_option id holders].
      rewrite (bool_decide_eq_true_2 _ Hempty). cbn [locks].
      rewrite lookup_insert_eq. eexists. split; [done|].
      cbn [holders lock_type waiters]. split.
      * intros [?|Hnil]; [done|]. by rewrite Hnil in Hsort.
      * intros _ _. exists w. split; [by apply sort_by_timestamp_head|].
        split; [|done]. by rewrite Hempty, (left_id_L ∅ (∪)).
  - apply bool_decide_eq_false in Hempty.
    cbn [locks]. rewrite lookup_insert_eq. eexists. split; [done|].
    cbn [holders lock_type waiters]. split; [done|]. by intros ?.
Qed.

Definition three_requests : list Command :=
  [Acquire "R" EXCLUSIVE "a" 1%Q; Acquire "R" SHARED "b" 2%Q;
   Acquire "R" SHARED "c" 3%Q].

Definition lock_after_three_requests : LockInfo :=
  mkLockInfo "R" EXCLUSIVE {[ "a" ]}
    [mkLockRequest "R" SHARED "b" 2%Q; mkLockRequest "R" SHARED "c" 3%Q]
    1%Q.

Lemma release_grants_first_waiter_witness :
  ∃ lock',
    locks (_apply_release "R" "a" (apply_all three_requests init)) !! "R"
    = Some lock'
    ∧ (holders lock_after_three_requests ∖ {[ "a" ]} ≠ ∅
       ∨ waiters lock_after_three_requests = [] →
       holders lock' = holders lock_after_three_requests ∖ {[ "a" ]}
       ∧ lock_type lock' = lock_type lock_after_three_requests
       ∧ waiters lock' = waiters lock_after_three_requests)
    ∧ (holders lock_after_three_requests ∖ {[ "a" ]} = ∅ →
       waiters lock_after_three_requests ≠ [] →
       ∃ w, earliest_waiter (waiters lock_after_three_requests) w
                            (waiters lock')
            ∧ holders lock' = {[req_client_id w]}
            ∧ lock_type lock' = req_lock_type w).
Proof.
  apply (release_grants_first_waiter three_requests "R" "a"
           lock_after_three_requests).
  reflexivity.
Defined.

End LockProofs.

(** ** Properties of insertion-ordered dictionaries *)

Module DictProofs.

Section Ops.
Context {V : Type}.
Implicit Types (d : list (string * V)) (k : string).

Lemma eqb_false k k' : k ≠ k' → String.eqb k k' = false.
Proof. intros H. by apply String.eqb_neq. Qed.

Lemma mem_is_Some d k : Dict.mem d k = true ↔ is_Some (Dict.get d k).
Proof.
  unfold Dict.mem. destruct (Dict.get d k) as [v|].
  - split; [by eexists|done].
  - split; [done|]. by intros [? ?].
Qed.

Lemma get_del_eq d k : Dict.get (Dict.del d k) k = None.
Proof.
  induction d as [|[k' v] d IH]; [done|]. unfold Dict.del in *.
  rewrite filter_cons. cbn [fst].
  destruct (String.eqb k k') eqn:Hk; cbn [negb].
  - rewrite decide_False by done. exact IH.
  - rewrite decide_True by done. cbn [Dict.get]. by rewrite Hk.
Qed.

Lemma get_del_ne d k k' :
  k ≠ k' → Dict.get (Dict.del d k) k' = Dict.get d k'.
Proof.
  intros Hne. induction d as [|[k0 v] d IH]; [done|]. unfold Dict.del in *.
  rewrite filter_cons. cbn [fst].
  destruct (String.eqb k k0) eqn:Hk; cbn [negb].
  - rewrite decide_False by done. apply String.eqb_eq in Hk as <-.
    cbn [Dict.get]. rewrite eqb_false by done. exact IH.
  - rewrite decide_True by done. cbn [Dict.get]. by rewrite IH.
Qed.

Lemma get_Some_elem d k v : Dict.get d k = Some v → (k, v) ∈ d.
Proof.
  induction d as [|[k' v'] d IH]; [done|]. cbn [Dict.get].
  destruct (String.eqb k k') eqn:Hk.
  - apply String.eqb_eq in Hk as <-. intros [= <-]. by left.
  - intros H. right. by apply IH.
Qed.

Lemma get_None_keys d k : Dict.get d k = None ↔ k ∉ d.*1.
Proof.
  induction d as [|[k' v'] d IH]; cbn [Dict.get fmap list_fmap fst].
  - split; [|done]. intros _ H. by apply elem_of_nil in H.
  - rewrite not_elem_of_cons. destruct (String.eqb k k') eqn:Hk.
    + apply String.eqb_eq in Hk. split; [done|]. by intros [? _].
    + apply String.eqb_neq in Hk. rewrite IH. split; [done|]. by intros [_ ?].
Qed.

(** The keys stay distinct under the two updates. *)
Lemma set_keys d k v :
  (Dict.set d k v).*1 = if Dict.mem d k then d.*1 else d.*1 ++ [k].
Proof.
  induction d as [|[k' v'] d IH]; [done|]. unfold Dict.mem in *.
  cbn [Dict.set Dict.get]. destruct (String.eqb k k') eqn:Hk; [done|].
  cbn [fmap list_fmap fst]. fold (fmap (M:=list) (@fst string V)).
  rewrite IH. by destruct (Dict.get d k).
Qed.

Lemma set_NoDup d k v : NoDup d.*1 → NoDup (Dict.set d k v).*1.
Proof.
  intros Hnd. rewrite set_keys. destruct (Dict.mem d k) eqn:Hmem; [done|].
  apply NoDup_app. split; [done|]. split; [|apply NoDup_singleton].
  intros x Hx ->%list_elem_of_singleton.
  assert (is_Some (Dict.get d k)) as Hs; [|by apply mem_is_Some in Hs; congruence].
  destruct (Dict.get d k) eqn:Hget; [by eexists|].
  by apply get_None_keys in Hget.
Qed.

Lemma del_NoDup d k : NoDup d.*1 → NoDup (Dict.del d k).*1.
Proof.
  intros Hnd. unfold Dict.del.
  eapply sublist_NoDup; [exact Hnd|]. apply fmap_sublist, sublist_filter.
Qed.

Lemma del_absent d k : k ∉ d.*1 → Dict.del d k = d.
Proof.
  induction d as [|[k' v'] d IH]; [done|]. cbn [fmap list_fmap fst].
  rewrite not_elem_of_cons. intros [Hne Hd]. unfold Dict.del in *.
  rewrite filter_cons. cbn [fst]. rewrite eqb_false by done. cbn [negb].
  rewrite decide_True by done. by rewrite IH.
Qed.

End Ops.

End DictProofs.

(** ** Properties of the queue *)

Module QueueProofs.
Import Queue.

Section WithData.
Context {Data : Type}.
Implicit Types (st : QueueNode Data) (m : Message Data).


(** The entry of [pending_acks] for a message delivered to a consumer:
    the message, under the consumer's name, a colon and the message's
    id. *)
Definition pair_entry (cm : string * Message Data) : string * Message Data :=
  (cm.1 +:+ ":" +:+ message_id cm.2, cm.2).

(** [pending_acks] holds the deliveries [pairs] (consumer, message) that
    wait for their acknowledgement, and nothing else. *)
Definition stores (pairs : list (string * Message Data)) st : Prop :=
  pending_acks st = pair_entry <$> pairs.







(** [consume] files a delivery the way [stores] reads it: a pair that
    does not wait yet goes last. *)
Lemma deliver_stores p consumer_id message rest st pairs :
  stores pairs st →
  Dict.get (pending_acks st)
           (consumer_id +:+ ":" +:+ message_id message) = None →
  stores (pairs ++ [(consumer_id,
                     with_attempts (attempts message + 1) message)])
         (deliver p consumer_id message rest st).2.
Proof.
  unfold stores, deliver, ack_key. cbn [snd pending_acks].
  intros -> Hget. rewrite fmap_app.
  cbn [fmap list_fmap pair_entry fst snd message_id with_attempts].
  revert Hget. generalize (pair_entry <$> pairs). intros d.
  induction d as [|[k' v'] d IH]; cbn [Dict.set Dict.get app]; [done|].
  destruct (String.eqb _ k'); [done|]. intros H. by rewrite IH.
Qed.


(** The key joins the two names with a colon; the pair is found in
    [pending_acks] through it. *)
Example ack_key_joins_with_colon :
  ack_key "consumer-1" "n1:0.0:0" = "consumer-1:n1:0.0:0".
Proof. reflexivity. Qed.

(** *** Producing *)

Section Produce.
Variable md5 : string → Z.
Variable py_hash : option string → Z.
Variable QUEUE_PARTITIONS : Z.
Variable str_of_float : Q → string.

Lemma assigned_partition_range partition_key st :
  0 < QUEUE_PARTITIONS →
  0 <= assigned_partition md5 py_hash QUEUE_PARTITIONS partition_key st
    < QUEUE_PARTITIONS.
Proof.
  intros HP. unfold assigned_partition, _get_partition, py_mod.
  destruct partition_key as [key|]; [destruct (String.eqb key "")|];
    by apply Z.mod_pos_bound.
Qed.

(** C10. With [QUEUE_PARTITIONS > 0], the partition that [produce]
    assigns, by the hash ring for a partition key and by the produced
    counter without one, lies in [0, QUEUE_PARTITIONS); the new message
    goes to the end of that partition's list and to no other, and its
    [partition] field is the assigned partition. *)
Theorem produce_partition d partition_key now_id now_ts st :
  0 < QUEUE_PARTITIONS →
  let p := assigned_partition md5 py_hash QUEUE_PARTITIONS partition_key st in
  let r := produce md5 py_hash QUEUE_PARTITIONS str_of_float
                   d partition_key now_id now_ts st in
  0 <= p < QUEUE_PARTITIONS
  ∧ ∃ m, partitions r.2
         = <[p := default [] (partitions st !! p) ++ [m]]> (partitions st)
         ∧ partition m = p ∧ message_id m = r.1 ∧ data m = d.
Proof.
  intros HP. split; [by apply assigned_partition_range|].
  unfold produce. cbn [fst snd redis_client].
  destruct (redis_client st); cbn [partitions _persist_message];
    by eexists.
Qed.

End Produce.

(** *** Redelivery *)

Lemma expired_iff now m :
  expired now m = true ↔ (30 < now - timestamp m)%Q.
Proof.
  unfold expired, Py.Qgtb. rewrite negb_true_iff. split.
  - intros H. apply Qnot_le_lt. intros Hle.
    apply Qle_bool_iff in Hle. congruence.
  - intros H. destruct (Qle_bool (now - timestamp m) 30) eqn:Hle; [|done].
    apply Qle_bool_iff in Hle. exfalso. by apply (Qlt_not_le _ _ H).
Qed.

Lemma not_expired_iff now m :
  expired now m = false ↔ (now - timestamp m <= 30)%Q.
Proof.
  unfold expired, Py.Qgtb. rewrite negb_false_iff. apply Qle_bool_iff.
Qed.

(** The pending entries a scan at [now] finds expired, in the order of
    the dictionary. *)
Definition expired_entries (now : Q) st : list (string * Message Data) :=
  filter (λ km, expired now km.2 = true) (pending_acks st).

(** Putting messages back, each at the head of its partition. *)
Definition push_front (ms : list (Message Data))
    (parts : gmap Z (list (Message Data))) : gmap Z (list (Message Data)) :=
  foldl (λ parts m,
           <[partition m := m :: default [] (parts !! partition m)]> parts)
        parts ms.

Lemma get_app_r (pre d : list (string * Message Data)) k :
  k ∉ pre.*1 → Dict.get (pre ++ d) k = Dict.get d k.
Proof.
  induction pre as [|[k' v'] pre IH]; [done|]. cbn [fmap list_fmap fst].
  rewrite not_elem_of_cons. intros [Hne Hpre]. cbn [app Dict.get].
  rewrite DictProofs.eqb_false by done. by apply IH.
Qed.

Lemma scan_fold now d : ∀ pre st,
  pending_acks st = pre ++ d →
  NoDup (pre ++ d).*1 →
  let st' := foldl (λ st key, requeue key st) st
               (filter (λ km, expired now km.2 = true) d).*1 in
  pending_acks st' = pre ++ filter (λ km, expired now km.2 ≠ true) d
  ∧ partitions st'
    = push_front (filter (λ km, expired now km.2 = true) d).*2
                 (partitions st).
Proof.
  induction d as [|[k m] d IH]; intros pre st Hpend Hnd; cbv zeta.
  { rewrite filter_nil. cbn [fmap list_fmap foldl]. by rewrite Hpend. }
  rewrite !filter_cons. cbn [snd].
  rewrite fmap_app, NoDup_app in Hnd. destruct Hnd as (Hpre & Hdisj & Hd).
  cbn [fmap list_fmap fst] in Hdisj, Hd. apply NoDup_cons in Hd as [Hk Hd].
  assert (Hkpre : k ∉ pre.*1).
  { intros Hin. apply (Hdisj k Hin). by left. }
  destruct (expired now m) eqn:Hexp.
  - rewrite decide_True by done. rewrite decide_False by (by intros []).
    cbn [fmap list_fmap fst snd foldl].
    assert (Hreq : requeue k st
      = mkQueueNode (node_id st) (consistent_hash st)
          (<[partition m := m :: default [] (partitions st !! partition m)]>
             (partitions st))
          (pre ++ d)
          (mkStats (produced (stats st)) (consumed (stats st))
                   (redelivered (stats st) + 1) (persisted (stats st)))
          (redis_client st)).
    { unfold requeue. rewrite Hpend, get_app_r by done. cbn [Dict.get].
      rewrite String.eqb_refl. f_equal.
      unfold Dict.del. rewrite filter_app, filter_cons. cbn [fst].
      rewrite String.eqb_refl. cbn [negb]. rewrite decide_False by done.
      f_equal; by apply (DictProofs.del_absent _ k). }
    rewrite Hreq. apply IH; [done|].
    rewrite fmap_app. apply NoDup_app. split; [done|]. split; [|done].
    intros x Hx Hxd. apply (Hdisj x Hx). by right.
  - rewrite decide_False by done. rewrite decide_True by done.
    replace (pre ++ (k, m) :: filter (λ km, expired now km.2 ≠ true) d)
      with ((pre ++ [(k, m)]) ++ filter (λ km, expired now km.2 ≠ true) d)
      by (by rewrite <- app_assoc).
    apply IH.
    + by rewrite Hpend, <- app_assoc.
    + rewrite <- app_assoc. cbn [app]. rewrite fmap_app. apply NoDup_app.
      split; [done|]. split; [done|]. cbn [fmap list_fmap fst].
      by apply NoDup_cons.
Qed.

Lemma push_front_lookup ms : ∀ parts p,
  default [] (push_front ms parts !! p)
  = reverse (filter (λ m, partition m = p) ms) ++ default [] (parts !! p).
Proof.
  induction ms as [|m ms IH]; intros parts p; [done|].
  change (push_front (m :: ms) parts)
    with (push_front ms
            (<[partition m := m :: default [] (parts !! partition m)]> parts)).
  rewrite IH, filter_cons.
  destruct (decide (partition m = p)) as [<-|Hne].
  - rewrite lookup_insert_eq, reverse_cons, <- app_assoc. done.
  - by rewrite lookup_insert_ne.
Qed.

Lemma get_filter (P : string * Message Data → Prop) `{∀ x, Decision (P x)}
    (d : list (string * Message Data)) k v :
  NoDup d.*1 → Dict.get d k = Some v →
  Dict.get (filter P d) k = if decide (P (k, v)) then Some v else None.
Proof.
  induction d as [|[k' v'] d IH]; [done|]. cbn [fmap list_fmap fst].
  intros [Hk Hd]%NoDup_cons. cbn [Dict.get]. rewrite filter_cons.
  destruct (String.eqb k k') eqn:Heq.
  - apply String.eqb_eq in Heq as <-. intros [= ->].
    destruct (decide (P (k, v))).
    + cbn [Dict.get]. by rewrite String.eqb_refl.
    + apply DictProofs.get_None_keys. intros Hin. apply Hk.
      apply list_elem_of_fmap in Hin as ([k1 v1] & -> & Hin).
      apply list_elem_of_filter in Hin as [_ Hin].
      apply list_elem_of_fmap. by exists (k1, v1).
  - intros Hget. destruct (decide (P (k', v'))).
    + cbn [Dict.get]. rewrite Heq. by apply IH.
    + by apply IH.
Qed.

(** C6, as the code has it.  A scan made at clock reading [now]
    requeues a pending entry exactly when more than 30 seconds have
    passed since the message's own [timestamp], the one it got when it
    was created by [produce]: such an entry is dropped from
    [pending_acks] and its message is put at the head of its partition
    (the messages requeued by one scan end up in front of the
    partition, the last one requeued first); an entry whose message is
    at most 30 seconds old stays pending, and nothing else enters a
    partition. *)
Theorem redelivery_scan now st :
  NoDup (pending_acks st).*1 →
  let st' := _check_redelivery now st in
  (∀ key m, Dict.get (pending_acks st) key = Some m →
     ((30 < now - timestamp m)%Q →
      Dict.get (pending_acks st') key = None
      ∧ m ∈ default [] (partitions st' !! partition m))
     ∧ ((now - timestamp m <= 30)%Q →
        Dict.get (pending_acks st') key = Some m))
  ∧ (∀ p, default [] (partitions st' !! p)
          = reverse (filter (λ m, partition m = p) (expired_entries now st).*2)
            ++ default [] (partitions st !! p))
  ∧ Forall (λ m, (30 < now - timestamp m)%Q) (expired_entries now st).*2.
Proof.
  intros Hnd. cbv zeta. unfold _check_redelivery.
  destruct (scan_fold now (pending_acks st) [] st eq_refl Hnd)
    as [Hpend Hparts].
  cbn [app] in Hpend.
  set (st' := foldl (λ st key, requeue key st) st
        (filter (λ km, expired now km.2 = true) (pending_acks st)).*1) in *.
  assert (Hfront : ∀ p,
    default [] (partitions st' !! p)
    = reverse (filter (λ m, partition m = p) (expired_entries now st).*2)
      ++ default [] (partitions st !! p)).
  { intros p. rewrite Hparts. apply push_front_lookup. }
  split; [|split; [exact Hfront|]].
  - intros key m Hget. split.
    + intros Hold%expired_iff. split.
      * rewrite Hpend, (get_filter _ _ key m) by done.
        cbn [snd]. by rewrite decide_False by (by intros []).
      * rewrite (Hfront (partition m)). apply elem_of_app. left.
        apply elem_of_reverse, list_elem_of_filter. split; [done|].
        apply list_elem_of_fmap. exists (key, m). split; [done|].
        apply list_elem_of_filter. split; [done|].
        by apply DictProofs.get_Some_elem.
    + intros Hyoung%not_expired_iff.
      rewrite Hpend, (get_filter _ _ key m) by done.
      cbn [snd]. rewrite decide_True; [done|]. by rewrite Hyoung.
  - apply Forall_forall. intros m Hm.
    apply list_elem_of_fmap in Hm as ([k m'] & -> & Hm).
    apply list_elem_of_filter in Hm as [Hm _]. by apply expired_iff.
Qed.

End WithData.

(** Stand-ins for the two hash functions, to run [produce]. *)
Definition length_md5 (key : string) : Z := Z.of_nat (String.length key).

Definition length_hash (node : option string) : Z :=
  match node with
  | Some n => Z.of_nat (String.length n) - 100
  | None => -1
  end.

Definition two_node_queue : QueueNode nat :=
  mkQueueNode "n1" (new_ring length_md5 ["n1"; "n2"] 3) ∅ []
    (mkStats 0 0 0 0) None.

(** The node after one message was produced, without a partition key,
    at clock reading 0: the message waits in partition 0. *)
Definition node_with_message : QueueNode nat :=
  (produce length_md5 length_hash 16 (λ _, "0.0")
           7%nat None 0%Q 0%Q two_node_queue).2.

Definition message_of_0 : Message nat :=
  mkMessage "n1:0.0:0" 0 7%nat 0%Q 0 false.

Example node_with_message_partitions :
  partitions node_with_message = {[ 0 := [message_of_0] ]}.
Proof. by vm_compute. Qed.

(** C6 as claimed fails: the message is delivered to consumer [x] at
    clock reading 40, and the scan at 41, one second after the
    delivery, puts it back in its partition. *)
Lemma requeued_one_second_after_delivery :
  let r := consume 0 "x" 5%Q 40%Q [40%Q] node_with_message in
  let delivered_message := with_attempts 1 message_of_0 in
  r.1 = Some delivered_message
  ∧ pending_acks r.2 = [("x:n1:0.0:0", delivered_message)]
  ∧ pending_acks (_check_redelivery 41%Q r.2) = []
  ∧ partitions (_check_redelivery 41%Q r.2) !! 0 = Some [delivered_message].
Proof. by vm_compute. Qed.



Lemma redelivery_scan_witness :
  let st := (consume 0 "x" 5%Q 40%Q [40%Q] node_with_message).2 in
  let st' := _check_redelivery 41%Q st in
  (∀ key m, Dict.get (pending_acks st) key = Some m →
     ((30 < 41 - timestamp m)%Q →
      Dict.get (pending_acks st') key = None
      ∧ m ∈ default [] (partitions st' !! partition m))
     ∧ ((41 - timestamp m <= 30)%Q →
        Dict.get (pending_acks st') key = Some m))
  ∧ (∀ p, default [] (partitions st' !! p)
          = reverse (filter (λ m, partition m = p)
                            (expired_entries 41%Q st).*2)
            ++ default [] (partitions st !! p))
  ∧ Forall (λ m, (30 < 41 - timestamp m)%Q) (expired_entries 41%Q st).*2.
Proof.
  apply (redelivery_scan 41%Q
           (consume 0 "x" 5%Q 40%Q [40%Q] node_with_message).2).
  vm_compute. apply NoDup_cons. split; [|apply NoDup_nil_2].
  intros H. by apply elem_of_nil in H.
Defined.

Lemma produce_partition_witness :
  let p := assigned_partition length_md5 length_hash 16 (Some "k")
                              two_node_queue in
  let r := produce length_md5 length_hash 16 (λ _, "0.0")
                   7%nat (Some "k") 0%Q 0%Q two_node_queue in
  0 <= p < 16
  ∧ ∃ m, partitions r.2
         = <[p := default [] (partitions two_node_queue !! p) ++ [m]]>
             (partitions two_node_queue)
         ∧ partition m = p ∧ message_id m = r.1 ∧ data m = 7%nat.
Proof.
  apply (produce_partition length_md5 length_hash 16 (λ _, "0.0")
           7%nat (Some "k") 0%Q 0%Q two_node_queue).
  lia.
Defined.

Example produce_by_key_lands_in_partition_14 :
  assigned_partition length_md5 length_hash 16 (Some "k") two_node_queue
  = 14.
Proof. by vm_compute. Qed.

End QueueProofs.

(** ** Properties of the cache *)

Module CacheProofs.
Import Cache.

Section WithValue.
Context {Value : Type}.
Implicit Types (c : list (string * CacheLine Value)).

(** The loop of [put] removes a prefix of the order, that is the
    least recently used lines, and stops as soon as the estimate fits
    the budget. *)
Lemma evict_loop_prefix fuel capacity c :
  (length c ≤ fuel)%nat →
  c = (evict_loop fuel capacity c).1 ++ (evict_loop fuel capacity c).2
  ∧ ((evict_loop fuel capacity c).2 = []
     ∨ _estimate_size (evict_loop fuel capacity c).2 <= capacity).
Proof.
  revert c. induction fuel as [|fuel IH]; intros c Hlen.
  { destruct c; [|simpl in Hlen; lia]. by split; [|left]. }
  cbn [evict_loop]. destruct c as [|item c].
  { by split; [|left]. }
  replace (0 <? Py.len (item :: c)) with true
    by (symmetry; apply Z.ltb_lt; unfold Py.len; simpl; lia).
  cbn [andb _evict_lru].
  destruct (capacity <? _estimate_size (item :: c)) eqn:Hover.
  - destruct (IH c) as [Hsplit Hrest]; [simpl in Hlen; lia|].
    destruct (evict_loop fuel capacity c) as [evicted rest].
    cbn [fst snd app] in *. by rewrite <- Hsplit.
  - cbn [fst snd app]. split; [done|]. right. by apply Z.ltb_ge.
Qed.

(** What [put] evicts is the front of the order, the least recently
    used items, and what it keeps fits the budget.  The cache does not
    know the node: whatever the state of the lines it evicts, [put]
    gives back a cache and no command. *)
Lemma put_evicts_least_recently_used k line (lc : LRUCache Value) :
  with_entry k line lc = evicted_by_put k line lc ++ cache (put k line lc)
  ∧ (cache (put k line lc) = []
     ∨ _estimate_size (cache (put k line lc)) <= capacity_bytes lc).
Proof. by apply evict_loop_prefix. Qed.

End WithValue.

(** A leader with a budget of 1 MB (1024 lines) that has written the
    keys [k0] ... [k1023] in turn: the cache is full, every line is
    MODIFIED, and [k0] is the least recently used one. *)
Definition empty_leader : CacheNode nat :=
  mkCacheNode "n1" (new_LRUCache 1) ∅ (mkStats 0 0 0 0 0) true ∅ [].

Definition full_node : CacheNode nat :=
  foldl (λ st i, (write ("k" +:+ pretty i) i 0%Q st).2)
        empty_leader (seq 0 1024).

Definition line_k0 : string * CacheLine nat :=
  ("k0", mkCacheLine "k0" 0%nat MODIFIED 0%Q 0 true).

(** C8 on the code: writing a new key into the full cache evicts [k0],
    the least recently used line, which is MODIFIED; the call proposes
    the write and the registration of the new key and nothing else: no
    write-back of [k0] comes with its eviction. *)
Theorem eviction_drops_modified_line :
  let new_line := new_CacheLine "new" 7%nat MODIFIED 5%Q 0 true in
  let r := write "new" 7%nat 5%Q full_node in
  length (cache (lru full_node)) = 1024%nat
  ∧ head (cache (lru full_node)) = Some line_k0
  ∧ evicted_by_put "new" new_line (lru full_node) = [line_k0]
  ∧ r.1 = true
  ∧ Dict.get (cache (lru r.2)) "k0" = None
  ∧ proposed r.2
    = proposed full_node
      ++ [WriteCmd "new" 7%nat "n1"; RegisterCmd "new" "n1"].
Proof. vm_compute. by repeat split. Qed.

(** The path that removes a line on invalidation does write a MODIFIED
    line back first. *)
Example invalidate_writes_back :
  proposed (invalidate "k0" full_node).2
  = proposed full_node ++ [WriteCmd "k0" 0%nat "n1"]
  ∧ Dict.get (cache (lru (invalidate "k0" full_node).2)) "k0" = None.
Proof. vm_compute. by split. Qed.

End CacheProofs.

(** ** Properties of the failure detector *)

Module FailureProofs.
Import Failure.

Section WithMath.
Variable sqrt : Q → Q.
Variable exp : Q → Q.
Variable log10 : Q → option Q.

(** Fewer than two inter-arrival intervals are recorded for [node]. *)
Definition sparse (node : string) (fd : FailureDetector) : Prop :=
  match heartbeat_history fd !! node with
  | None => True
  | Some h => (length h < 2)%nat
  end.

(** [node] joins the suspected set. *)
Definition suspect (node : string) (fd : FailureDetector) : FailureDetector :=
  mkFailureDetector (threshold fd) (window_size fd) (min_std_dev fd)
    (heartbeat_history fd) (last_heartbeat fd)
    (suspected_nodes fd ∪ {[node]}).

(** C9. For a peer without any recorded heartbeat, [phi] is infinite
    and [is_available] answers false (and the peer is suspected from
    then on).  For a peer with a last heartbeat and fewer than two
    recorded intervals, [phi] is 0 at every clock reading, and, the
    threshold being positive as the default 8.0 is, [is_available]
    answers true at every clock reading and suspects nobody. *)
Theorem sparse_history node fd :
  (last_heartbeat fd !! node = None →
   ∀ now,
     phi sqrt exp log10 node now fd = Some Infinity
     ∧ ∃ fd', is_available sqrt exp log10 node now fd = Some (false, fd')
              ∧ (node ∈ suspected_nodes fd'))
  ∧ (is_Some (last_heartbeat fd !! node) → sparse node fd →
     ∀ now,
       phi sqrt exp log10 node now fd = Some (Finite 0)
       ∧ ((0 < threshold fd)%Q →
          is_available sqrt exp log10 node now fd = Some (true, fd))).
Proof.
  split.
  - intros Hnone now. unfold is_available, phi. rewrite Hnone.
    split; [done|]. cbn [mbind option_bind Float_ltb negb andb].
    destruct (bool_decide (node ∈ suspected_nodes fd)) eqn:Hs; cbn [negb].
    + apply bool_decide_eq_true in Hs. by eexists.
    + eexists. split; [done|]. cbn [suspected_nodes].
      apply elem_of_union_r. by apply elem_of_singleton.
  - intros [last Hlast] Hsparse now. unfold is_available, phi, sparse in *.
    rewrite Hlast.
    assert (Hfew : match heartbeat_history fd !! node with
                   | Some h => (length h <? 2)%nat
                   | None => true
                   end = true).
    { destruct (heartbeat_history fd !! node); [|done].
      by apply Nat.ltb_lt. }
    rewrite Hfew. split; [done|]. intros Hpos.
    cbn [mbind option_bind Float_ltb].
    assert (Hlt : Py.Qltb 0 (threshold fd) = true).
    { unfold Py.Qltb. apply negb_true_iff.
      destruct (Qle_bool (threshold fd) 0) eqn:Hle; [|done].
      apply Qle_bool_iff in Hle. exfalso. by apply (Qlt_not_le _ _ Hpos). }
    by rewrite Hlt.
Qed.

End WithMath.

(** The default detector after one heartbeat of [n2] at clock reading
    100: a last heartbeat, no interval yet. *)
Definition after_one_heartbeat : FailureDetector :=
  heartbeat "n2" 100%Q default_detector.

Lemma sparse_history_witness :
  (∀ now,
     phi (λ x, x) (λ x, x) Some "n3" now after_one_heartbeat = Some Infinity
     ∧ ∃ fd', is_available (λ x, x) (λ x, x) Some "n3" now after_one_heartbeat
              = Some (false, fd')
              ∧ ("n3" ∈ suspected_nodes fd'))
  ∧ (∀ now,
       phi (λ x, x) (λ x, x) Some "n2" now after_one_heartbeat
       = Some (Finite 0)
       ∧ is_available (λ x, x) (λ x, x) Some "n2" now after_one_heartbeat
         = Some (true, after_one_heartbeat)).
Proof.
  split.
  - apply (sparse_history (λ x, x) (λ x, x) Some "n3" after_one_heartbeat).
    reflexivity.
  - intros now.
    destruct (proj2 (sparse_history (λ x, x) (λ x, x) Some "n2"
                       after_one_heartbeat)) with (now := now)
      as [Hphi Havail].
    + exists 100%Q. reflexivity.
    + vm_compute. lia.
    + split; [exact Hphi|]. apply Havail. reflexivity.
Defined.

End FailureProofs.

(** ** Properties of votes, elections and dispatch *)

Module RaftPeerProofs.
Import Raft RaftPeer.

Section WithCommand.
Context {Command : Type}.
Implicit Types (s : RaftNode Command) (n : Candidate Command).

(** *** Applying committed entries *)

Lemma apply_loop_exact fuel : ∀ s,
  0 <= last_applied s →
  last_applied s + Z.of_nat fuel < Py.len (log s) →
  ∃ s', apply_loop fuel s = Ok s' tt
        ∧ last_applied s' = last_applied s + Z.of_nat fuel
        ∧ applied s'
          = applied s
            ++ (command <$> take fuel
                  (drop (Z.to_nat (last_applied s + 1)) (log s)))
        ∧ log s' = log s ∧ commit_index s' = commit_index s.
Proof.
  induction fuel as [|fuel IH]; intros s H0 Hlen.
  - exists s. cbn [apply_loop take fmap list_fmap].
    rewrite app_nil_r. repeat split; try done. lia.
  - cbn [apply_loop].
    destruct (RaftProofs.get_in_range (log s) (last_applied s + 1))
      as [entry Hentry]; [lia|].
    rewrite Hentry.
    rewrite RaftProofs.get_nonneg in Hentry by lia.
    destruct (IH (set_applied (last_applied s + 1) (command entry) s))
      as (s' & Hrun & Hla & Happ & Hlog & Hci); [simpl; lia|simpl; lia|].
    exists s'. split; [done|]. simpl in *. split; [lia|].
    split; [|done]. rewrite Happ, <- app_assoc. f_equal.
    rewrite (drop_S _ entry _ Hentry). cbn [take fmap list_fmap app].
    by replace (Z.to_nat (last_applied s + 1 + 1))
      with (S (Z.to_nat (last_applied s + 1))) by lia.
Qed.

(** X1. On a node whose [last_applied] is not negative and whose commit
    index is inside the log, [_apply_committed_entries] returns, hands
    to the callback the commands at the positions [last_applied + 1]
    to [commit_index], each once and in that order, and leaves
    [last_applied] at the commit index; it does nothing when
    [last_applied] has already reached it. *)
Theorem apply_committed_entries_exact s :
  0 <= last_applied s →
  commit_index s < Py.len (log s) →
  ∃ s', _apply_committed_entries s = Ok s' tt
        ∧ last_applied s' = Z.max (last_applied s) (commit_index s)
        ∧ applied s'
          = applied s
            ++ (command <$>
                  take (Z.to_nat (commit_index s - last_applied s))
                       (drop (Z.to_nat (last_applied s + 1)) (log s)))
        ∧ log s' = log s ∧ commit_index s' = commit_index s.
Proof.
  intros H0 Hc. unfold _apply_committed_entries.
  destruct (Z_le_gt_dec (commit_index s) (last_applied s)) as [Hle|Hgt].
  - replace (Z.to_nat (commit_index s - last_applied s)) with O by lia.
    exists s. cbn [apply_loop take fmap list_fmap]. rewrite app_nil_r.
    repeat split; try done. lia.
  - destruct (apply_loop_exact
                (Z.to_nat (commit_index s - last_applied s)) s)
      as (s' & Hrun & Hla & Happ & Hlog & Hci); [done|lia|].
    exists s'. split; [done|]. split; [lia|]. by split.
Qed.

(** *** Terms and votes along a run *)

(** What says who a node is and whom it voted for. *)
Definition ballot s : string * Z * option string :=
  (node_id s, current_term s, voted_for s).

Lemma apply_loop_ballot fuel : ∀ s,
  ballot (state_of (apply_loop fuel s)) = ballot s.
Proof.
  induction fuel as [|fuel IH]; intros s; [done|]. cbn [apply_loop].
  destruct (Py.get (log s) (last_applied s + 1)); [|done].
  by rewrite IH.
Qed.

Lemma commit_scan_ballot fuel : ∀ (i : Z) s,
  ballot (state_of (commit_scan fuel i s)) = ballot s.
Proof.
  induction fuel as [|fuel IH]; intros i s; [done|]. cbn [commit_scan].
  destruct (Py.get (log s) i) as [entry|]; [|done].
  destruct (term entry =? current_term s); [|apply IH].
  destruct (quorum s <=? count_for s i); [|apply IH].
  unfold _apply_committed_entries. by rewrite apply_loop_ballot.
Qed.

Lemma update_commit_index_ballot s :
  ballot (state_of (_update_commit_index s)) = ballot s.
Proof.
  unfold _update_commit_index.
  destruct (negb (RaftState_eqb (state s) LEADER)); [done|].
  apply commit_scan_ballot.
Qed.

Lemma handle_append_entries_ballot (m : AppendEntries Command) now s :
  ballot (state_of (_handle_append_entries m now s)) = ballot s.
Proof.
  unfold _handle_append_entries.
  destruct (msg_term m <? current_term s); [done|].
  set (s2 := if RaftState_eqb (state (set_last_heartbeat now s)) CANDIDATE
             then set_state FOLLOWER (set_last_heartbeat now s)
             else set_last_heartbeat now s).
  assert (Hs2 : ballot s2 = ballot s).
  { unfold s2.
    by destruct (RaftState_eqb (state (set_last_heartbeat now s)) CANDIDATE). }
  destruct (log_matches s2 m) as [[|]|]; [|done|done].
  destruct (commit_index _ <? leader_commit m); [|done].
  match goal with
  | |- context [_apply_committed_entries ?x] =>
      pose proof (apply_loop_ballot
                    (Z.to_nat (commit_index x - last_applied x)) x) as Hb;
      unfold _apply_committed_entries;
      destruct (apply_loop (Z.to_nat (commit_index x - last_applied x)) x)
  end; by rewrite <- Hs2.
Qed.

(** Between two states either term and vote are the same, or the term
    has grown. *)
Definition keeps_ballot s s' : Prop :=
  node_id s' = node_id s
  ∧ ((current_term s' = current_term s ∧ voted_for s' = voted_for s)
     ∨ current_term s < current_term s').

Lemma ballot_keeps s s' : ballot s' = ballot s → keeps_ballot s s'.
Proof. intros [= Hn Ht Hv]. split; [done|]. by left. Qed.

Lemma keeps_ballot_trans s1 s2 s3 :
  keeps_ballot s1 s2 → keeps_ballot s2 s3 → keeps_ballot s1 s3.
Proof.
  intros [Hn1 H1] [Hn2 H2]. split; [congruence|].
  destruct H1 as [[Ht1 Hv1]|Hlt1], H2 as [[Ht2 Hv2]|Hlt2].
  - left. split; congruence.
  - right. lia.
  - right. lia.
  - right. lia.
Qed.

(** The first lines of [handle_message]. *)
Lemma step_down_if_newer_keeps t now s :
  keeps_ballot s (if current_term s <? t then _step_down t now s else s).
Proof.
  destruct (current_term s <? t) eqn:Hlt.
  - apply Z.ltb_lt in Hlt. split; [done|]. by right.
  - by apply ballot_keeps.
Qed.

Lemma handle_append_entries_response_keeps peer_id response now s :
  keeps_ballot s (state_of (_handle_append_entries_response
                              peer_id response now s)).
Proof.
  unfold _handle_append_entries_response.
  destruct (current_term s <? resp_term response) eqn:Hlt.
  { apply Z.ltb_lt in Hlt. split; [done|]. by right. }
  destruct (negb (RaftState_eqb (state s) LEADER)); [by apply ballot_keeps|].
  destruct (resp_success response).
  - apply ballot_keeps. by rewrite update_commit_index_ballot.
  - destruct (next_index s !! peer_id); by apply ballot_keeps.
Qed.

(** The votes cast so far fit the node: none is of a later term than
    the node's, those of its term went to the one it voted for, and no
    term has votes for two. *)
Definition votes_fit s (votes : list (Z * string)) : Prop :=
  (∀ t c, (t, c) ∈ votes →
          t <= current_term s ∧ (t = current_term s → voted_for s = Some c))
  ∧ (∀ t c1 c2, (t, c1) ∈ votes → (t, c2) ∈ votes → c1 = c2).

Lemma votes_fit_keeps s s' votes :
  keeps_ballot s s' → votes_fit s votes → votes_fit s' votes.
Proof.
  intros [_ Hk] [Hfit Huniq]. split; [|done]. intros t c Hin.
  destruct (Hfit t c Hin) as [Hle Hv].
  destruct Hk as [[Ht Hvf]|Hlt]; [|lia].
  rewrite Ht, Hvf. by split.
Qed.

(** A new vote of the node's term, for the one it votes for. *)
Lemma votes_fit_cast s s' votes c :
  node_id s' = node_id s →
  (current_term s' = current_term s
   ∧ (voted_for s = None ∨ voted_for s = Some c)
   ∨ current_term s < current_term s') →
  voted_for s' = Some c →
  votes_fit s votes → votes_fit s' (votes ++ [(current_term s', c)]).
Proof.
  intros _ Hk Hv' [Hfit Huniq]. split.
  - intros t c0 [Hin|Hin%list_elem_of_singleton]%elem_of_app.
    + destruct (Hfit t c0 Hin) as [Hle Hv]. split; [lia|]. intros ->.
      destruct Hk as [[Ht Hprev]|Hlt]; [|lia].
      rewrite Ht in Hv. specialize (Hv eq_refl).
      destruct Hprev as [Hnone|Hsome]; congruence.
    + injection Hin as -> ->. by split.
  - intros t c1 c2 [H1|H1%list_elem_of_singleton]%elem_of_app
                   [H2|H2%list_elem_of_singleton]%elem_of_app.
    + by apply (Huniq t).
    + injection H2 as -> ->. destruct (Hfit _ _ H1) as [Hle Hv].
      destruct Hk as [[Ht Hprev]|Hlt]; [|lia].
      rewrite Ht in Hv. specialize (Hv eq_refl).
      destruct Hprev as [Hnone|Hsome]; congruence.
    + injection H1 as -> ->. destruct (Hfit _ _ H2) as [Hle Hv].
      destruct Hk as [[Ht Hprev]|Hlt]; [|lia].
      rewrite Ht in Hv. specialize (Hv eq_refl).
      destruct Hprev as [Hnone|Hsome]; congruence.
    + congruence.
Qed.

(** The candidate's log is at least as up to date as the node's. *)
Definition up_to_date (m : RequestVote) s : Prop :=
  own_last_log_term s < rv_last_log_term m
  ∨ (rv_last_log_term m = own_last_log_term s
     ∧ Py.len (log s) - 1 <= rv_last_log_index m).

Lemma handle_request_vote_cases (m : RequestVote) now s :
  vr_term (_handle_request_vote m now s).2 = current_term s
  ∧ ((vote_granted (_handle_request_vote m now s).2 = true
      ∧ current_term s <= rv_term m
      ∧ (voted_for s = None ∨ voted_for s = Some (rv_sender_id m))
      ∧ up_to_date m s
      ∧ (_handle_request_vote m now s).1 = grant_vote (rv_sender_id m) now s)
     ∨ (vote_granted (_handle_request_vote m now s).2 = false
        ∧ (_handle_request_vote m now s).1 = s)).
Proof.
  unfold _handle_request_vote, up_to_date.
  destruct (rv_term m <? current_term s) eqn:Hterm; [by split; [|right]|].
  apply Z.ltb_ge in Hterm.
  assert (Hvoted : match voted_for s with
                   | None => true
                   | Some v => String.eqb v (rv_sender_id m)
                   end = true
                   → voted_for s = None ∨ voted_for s = Some (rv_sender_id m)).
  { destruct (voted_for s) as [v|]; [|by left].
    intros ->%String.eqb_eq. by right. }
  destruct (match voted_for s with
            | None => true
            | Some v => String.eqb v (rv_sender_id m)
            end); [|by split; [|right]].
  destruct ((own_last_log_term s <? rv_last_log_term m)
            || ((rv_last_log_term m =? own_last_log_term s)
                && (Py.len (log s) - 1 <=? rv_last_log_index m))) eqn:Hlog;
    [|by split; [|right]].
  split; [done|]. left. cbn [fst snd vote_granted].
  split; [done|]. split; [done|]. split; [by apply Hvoted|].
  split; [|done].
  apply orb_true_iff in Hlog as [Hlt|[Heq Hle]%andb_true_iff].
  - left. by apply Z.ltb_lt.
  - right. split; [by apply Z.eqb_eq|by apply Z.leb_le].
Qed.

Lemma step_votes_fit (e : Event) n past :
  votes_fit (raft n) past →
  votes_fit (raft (step e n).1)
            (past ++ from_option (λ v, [v]) [] (vote_cast e n)).
Proof.
  intros Hfit. destruct e as [msg now|peer response now|peer response now
                              |timeout now|].
  - (* a message *)
    assert (Hfit1 : votes_fit
              (if current_term (raft n) <? message_term msg
               then _step_down (message_term msg) now (raft n)
               else raft n) past).
    { eapply votes_fit_keeps; [|exact Hfit].
      apply step_down_if_newer_keeps. }
    destruct msg as [m|m|t c|t]; unfold vote_cast; cbn [step];
      unfold handle_message; cbn [message_term] in *.
    + set (s1 := if current_term (raft n) <? rv_term m
                 then _step_down (rv_term m) now (raft n)
                 else raft n) in *.
      pose proof (handle_request_vote_cases m now s1) as [Hterm Hcases].
      destruct (_handle_request_vote m now s1) as [s2 r].
      cbn [fst snd raft with_raft] in *.
      destruct Hcases as [(Hg & Hle & Hprev & _ & ->)|(Hg & ->)].
      * rewrite Hg. cbn [from_option].
        assert (Hcur : rv_term m = current_term s1).
        { unfold s1 in *.
          destruct (current_term (raft n) <? rv_term m) eqn:Hlt; [done|].
          apply Z.ltb_ge in Hlt. lia. }
        rewrite Hcur.
        apply (votes_fit_cast s1 (grant_vote (rv_sender_id m) now s1));
          try done. left. by split.
      * rewrite Hg. cbn [from_option]. by rewrite app_nil_r.
    + set (s1 := if current_term (raft n) <? msg_term m
                 then _step_down (msg_term m) now (raft n)
                 else raft n) in *.
      pose proof (handle_append_entries_ballot m now s1) as Hb.
      destruct (_handle_append_entries m now s1);
        cbn [fst snd from_option raft with_raft state_of] in *;
        rewrite app_nil_r;
        by eapply votes_fit_keeps; [apply ballot_keeps|].
    + set (s1 := if current_term (raft n) <? t
                 then _step_down t now (raft n)
                 else raft n) in *.
      unfold _handle_client_request.
      destruct (negb (RaftState_eqb (state s1) LEADER));
        cbn [fst snd from_option raft with_raft]; rewrite app_nil_r;
        [done|].
      by eapply votes_fit_keeps; [apply ballot_keeps|].
    + cbn [fst snd from_option raft with_raft]. by rewrite app_nil_r.
  - (* the answer to a vote request *)
    cbn [vote_cast step fst snd from_option]. rewrite app_nil_r.
    unfold _handle_vote_response.
    destruct (current_term (raft n) <? vr_term response) eqn:Hlt.
    + apply Z.ltb_lt in Hlt. cbn [raft].
      apply (votes_fit_keeps (raft n)); [|done]. split; [done|]. by right.
    + by destruct ((vr_term response =? current_term (raft n))
                   && vote_granted response).
  - (* the answer to append_entries *)
    cbn [vote_cast step fst snd from_option raft with_raft].
    rewrite app_nil_r.
    apply (votes_fit_keeps (raft n)); [|done].
    apply handle_append_entries_response_keeps.
  - (* the election timer *)
    unfold vote_cast. cbn [step fst snd].
    destruct (election_due now n); cbn [from_option].
    + apply (votes_fit_cast (raft n) (raft (become_candidate timeout now n))
               past (node_id (raft n))); try done.
      right. cbn [become_candidate raft current_term]. lia.
    + by rewrite app_nil_r.
  - (* the count *)
    cbn [vote_cast step fst snd from_option]. rewrite app_nil_r.
    unfold count_votes.
    destruct ((quorum (raft n) <=? Z.of_nat (size (votes_received n)))
              && RaftState_eqb (state (raft n)) CANDIDATE); [|done].
    cbn [raft]. by eapply votes_fit_keeps; [apply ballot_keeps|].
Qed.

Lemma run_votes_fit events : ∀ n past,
  votes_fit (raft n) past →
  votes_fit (raft (run events n).1) (past ++ (run events n).2).
Proof.
  induction events as [|e events IH]; intros n past Hfit.
  { cbn [run fst snd]. by rewrite app_nil_r. }
  cbn [run]. specialize (IH (step e n).1 _ (step_votes_fit e n past Hfit)).
  destruct (run events (step e n).1) as [n' votes].
  cbn [fst snd] in *. by rewrite app_assoc.
Qed.

(** X2. Along every run of a node, whatever it receives and whenever
    its timer fires, it casts at most one vote per term: two votes of
    the same term, granted to a candidate or given to itself, are for
    the same node. *)
Theorem one_vote_per_term events n t c1 c2 :
  (t, c1) ∈ (run events n).2 →
  (t, c2) ∈ (run events n).2 →
  c1 = c2.
Proof.
  assert (Hfit : votes_fit (raft n) []).
  { split; [intros t' c Hin|intros t' a b Hin];
      by apply elem_of_nil in Hin. }
  destruct (run_votes_fit events n [] Hfit) as [_ Huniq].
  apply Huniq.
Qed.

Lemma handle_message_term (msg : Message Command) now s :
  current_term (state_of (handle_message msg now s))
  = Z.max (current_term s) (message_term msg).
Proof.
  unfold handle_message.
  set (s1 := if current_term s <? message_term msg
             then _step_down (message_term msg) now s else s).
  assert (H1 : current_term s1 = Z.max (current_term s) (message_term msg)).
  { unfold s1. destruct (current_term s <? message_term msg) eqn:Hlt.
    - apply Z.ltb_lt in Hlt. cbn [_step_down current_term]. lia.
    - apply Z.ltb_ge in Hlt. lia. }
  rewrite <- H1. destruct msg as [m|m|t c|t].
  - pose proof (handle_request_vote_cases m now s1) as [_ Hcases].
    destruct (_handle_request_vote m now s1) as [s2 r].
    cbn [fst snd state_of] in *.
    by destruct Hcases as [(_ & _ & _ & _ & ->)|(_ & ->)].
  - pose proof (handle_append_entries_ballot m now s1) as Hb.
    destruct (_handle_append_entries m now s1); cbn [state_of] in *;
      by injection Hb.
  - unfold _handle_client_request.
    by destruct (negb (RaftState_eqb (state s1) LEADER)).
  - done.
Qed.

Lemma step_term_le (e : Event) n :
  current_term (raft n) <= current_term (raft (step e n).1).
Proof.
  destruct e as [msg now|peer response now|peer response now|timeout now|];
    cbn [step fst].
  - pose proof (handle_message_term msg now (raft n)) as Ht.
    destruct (handle_message msg now (raft n));
      cbn [fst raft with_raft state_of] in *; lia.
  - unfold _handle_vote_response.
    destruct (current_term (raft n) <? vr_term response) eqn:Hlt.
    + apply Z.ltb_lt in Hlt. cbn [raft _step_down current_term]. lia.
    + destruct ((vr_term response =? current_term (raft n))
                && vote_granted response); cbn [raft]; lia.
  - cbn [raft with_raft].
    destruct (handle_append_entries_response_keeps
                peer response now (raft n)) as [_ [[Heq _]|Hlt]]; lia.
  - destruct (election_due now n); [|lia].
    cbn [become_candidate raft current_term]. lia.
  - unfold count_votes.
    destruct ((quorum (raft n) <=? Z.of_nat (size (votes_received n)))
              && RaftState_eqb (state (raft n)) CANDIDATE); [|lia].
    cbn [raft _become_leader current_term]. lia.
Qed.

(** X3. The term of a node never decreases along a run, and a message
    handled by [handle_message] leaves the node at the larger of its
    term and the message's. *)
Theorem term_never_decreases events n :
  current_term (raft n) <= current_term (raft (run events n).1)
  ∧ ∀ msg now,
      current_term (state_of (handle_message msg now (raft n)))
      = Z.max (current_term (raft n)) (message_term msg).
Proof.
  split; [|intros msg now; apply handle_message_term].
  revert n. induction events as [|e events IH]; intros n; [done|].
  cbn [run]. specialize (IH (step e n).1).
  pose proof (step_term_le e n).
  destruct (run events (step e n).1). cbn [fst] in *. lia.
Qed.

(** *** Winning an election *)

Lemma set_fold_insert_lookup (X : gset string) (v : Z) (m0 : gmap string Z)
    (k : string) :
  set_fold (λ p m, <[p := v]> m) m0 X !! k
  = if decide (k ∈ X) then Some v else m0 !! k.
Proof.
  revert X.
  apply (set_fold_ind_L
           (λ r (X : gset string),
              r !! k = if decide (k ∈ X) then Some v else m0 !! k)).
  - rewrite decide_False; [done|]. apply not_elem_of_empty.
  - intros x X' r Hx IH. destruct (decide (x = k)) as [->|Hne].
    + rewrite lookup_insert_eq, decide_True; [done|].
      apply elem_of_union_l. by apply elem_of_singleton.
    + rewrite lookup_insert_ne by done. rewrite IH.
      destruct (decide (k ∈ X')) as [Hin|Hnin].
      * rewrite decide_True; [done|]. by apply elem_of_union_r.
      * rewrite decide_False; [done|].
        intros [Hk%elem_of_singleton|Hk]%elem_of_union; congruence.
Qed.

(** The answers of the nodes [voters] to [request], as they are read
    off what [handle_message] returns, all arriving at [now]. *)
Definition vote_answers (request : RequestVote) (now : Q)
    (voters : list (RaftNode Command)) : list (string * VoteResponse * Q) :=
  omap (λ p, match handle_message (RequestVoteMsg request) now p with
             | Ok _ (Some (VoteReply r)) => Some (node_id p, r, now)
             | _ => None
             end) voters.

Lemma voter_grants (request : RequestVote) now s :
  current_term s < rv_term request →
  up_to_date request s →
  handle_message (RequestVoteMsg request) now s
  = Ok (grant_vote (rv_sender_id request) now
          (_step_down (rv_term request) now s))
       (Some (VoteReply (mkVoteResponse (rv_term request) true))).
Proof.
  intros Hlt Hup. unfold handle_message. cbn [message_term].
  rewrite (proj2 (Z.ltb_lt _ _) Hlt).
  unfold _handle_request_vote. cbn [_step_down current_term voted_for log].
  rewrite Z.ltb_irrefl.
  assert (Hb : (own_last_log_term (_step_down (rv_term request) now s)
                <? rv_last_log_term request)
               || ((rv_last_log_term request
                    =? own_last_log_term (_step_down (rv_term request) now s))
                   && (Py.len (log s) - 1 <=? rv_last_log_index request))
               = true).
  { change (own_last_log_term (_step_down (rv_term request) now s))
      with (own_last_log_term s).
    apply orb_true_iff. destruct Hup as [Hup|[Heq Hle]].
    - left. by apply Z.ltb_lt.
    - right. apply andb_true_iff. split; [by apply Z.eqb_eq|by apply Z.leb_le]. }
  by rewrite Hb.
Qed.

Lemma granted_votes_counted (T : Z) (ids : list string) now : ∀ n,
  current_term (raft n) = T →
  foldl (λ n pr, _handle_vote_response pr.1.1 pr.1.2 pr.2 n) n
        ((λ i, (i, mkVoteResponse T true, now)) <$> ids)
  = mkCandidate (raft n) (votes_received n ∪ list_to_set ids)
                (election_timeout n).
Proof.
  induction ids as [|i ids IH]; intros n HT.
  { cbn [fmap list_fmap foldl list_to_set]. destruct n as [s v t].
    cbn [raft votes_received election_timeout]. f_equal.
    by rewrite (right_id_L ∅ (∪)). }
  cbn [fmap list_fmap foldl fst snd].
  assert (Hstep : _handle_vote_response i (mkVoteResponse T true) now n
                  = mkCandidate (raft n) (votes_received n ∪ {[i]})
                                (election_timeout n)).
  { unfold _handle_vote_response. cbn [vr_term vote_granted].
    rewrite HT, Z.ltb_irrefl, Z.eqb_refl. done. }
  rewrite Hstep. change (list_fmap _ _ ?f ids) with (f <$> ids).
  rewrite IH by done.
  cbn [raft votes_received election_timeout list_to_set]. f_equal.
  by rewrite (assoc_L (∪)).
Qed.

(** X4. A node that starts an election, and is answered by [voters]
    that are in an earlier term and whose log is not more up to date
    than its own, wins it when they and itself make a quorum: every
    such voter grants its vote, and [_start_election] ends with the
    node as leader of the next term, the votes of itself and of the
    voters, and for every peer [next_index] at the length of the log
    and [match_index] at 0. *)
Theorem election_won (timeout now later : Q)
    (voters : list (RaftNode Command)) n :
  let c := become_candidate timeout now n in
  let request := vote_request (raft c) in
  Forall (λ p, current_term p <= current_term (raft n)
               ∧ up_to_date request p) voters →
  NoDup (node_id <$> voters) →
  node_id (raft n) ∉ node_id <$> voters →
  quorum (raft n) <= 1 + Py.len voters →
  let n' := _start_election timeout now
              (vote_answers request later voters) n in
  state (raft n') = LEADER
  ∧ current_term (raft n') = current_term (raft n) + 1
  ∧ votes_received n' = {[node_id (raft n)]} ∪ list_to_set (node_id <$> voters)
  ∧ log (raft n') = log (raft n)
  ∧ ∀ peer_id, peer_id ∈ cluster_nodes (raft n) →
      next_index (raft n') !! peer_id = Some (Py.len (log (raft n)))
      ∧ match_index (raft n') !! peer_id = Some 0.
Proof.
  intros c request Hvoters Hnd Hself Hq.
  assert (Hanswers : vote_answers request later voters
    = (λ i, (i, mkVoteResponse (current_term (raft n) + 1) true, later))
        <$> (node_id <$> voters)).
  { unfold vote_answers. clear Hnd Hself Hq.
    induction voters as [|p voters IH]; [done|].
    apply Forall_cons in Hvoters as [[Hterm Hup] Hrest].
    cbn [omap list_omap fmap list_fmap].
    rewrite voter_grants;
      [|subst request c; cbn [vote_request become_candidate raft
                              current_term rv_term]; lia|done].
    cbn [option_bind mbind]. f_equal. by apply IH. }
  cbv zeta. unfold _start_election. rewrite Hanswers.
  rewrite (granted_votes_counted (current_term (raft n) + 1)) by done.
  fold c. unfold count_votes. cbn [raft votes_received election_timeout].
  assert (Hsize : size (votes_received c
                        ∪ (list_to_set (node_id <$> voters) : gset string))
                  = S (length voters)).
  { subst c. cbn [become_candidate votes_received raft].
    rewrite size_union.
    - rewrite size_singleton, size_list_to_set by done.
      by rewrite length_fmap.
    - intros x Hx%elem_of_singleton Hin%elem_of_list_to_set. by subst. }
  rewrite Hsize.
  assert (Hquorum : (quorum (raft c) <=? Z.of_nat (S (length voters)))
                    = true).
  { apply Z.leb_le. subst c. unfold quorum in *.
    cbn [become_candidate raft cluster_nodes]. unfold Py.len in Hq. lia. }
  rewrite Hquorum. subst c.
  cbn [become_candidate raft state RaftState_eqb andb _become_leader
       current_term votes_received log next_index match_index
       cluster_nodes].
  repeat split; try done.
  - rewrite set_fold_insert_lookup. by rewrite decide_True.
  - rewrite set_fold_insert_lookup. by rewrite decide_True.
Qed.

(** *** One round of replication *)

Lemma log_matches_log (m : AppendEntries Command) s s' :
  log s' = log s → log_matches s' m = log_matches s m.
Proof. intros H. unfold log_matches. by rewrite H. Qed.

Lemma apply_loop_indexes fuel : ∀ s,
  next_index (state_of (apply_loop fuel s)) = next_index s
  ∧ match_index (state_of (apply_loop fuel s)) = match_index s.
Proof.
  induction fuel as [|fuel IH]; intros s; [done|]. cbn [apply_loop].
  destruct (Py.get (log s) (last_applied s + 1)); [|done].
  by destruct (IH (set_applied (last_applied s + 1) (command l) s)).
Qed.

Lemma commit_scan_indexes fuel : ∀ (i : Z) s,
  next_index (state_of (commit_scan fuel i s)) = next_index s
  ∧ match_index (state_of (commit_scan fuel i s)) = match_index s.
Proof.
  induction fuel as [|fuel IH]; intros i s; [done|]. cbn [commit_scan].
  destruct (Py.get (log s) i) as [entry|]; [|done].
  destruct (term entry =? current_term s); [|apply IH].
  destruct (quorum s <=? count_for s i); [|apply IH].
  unfold _apply_committed_entries.
  by destruct (apply_loop_indexes
                 (Z.to_nat (commit_index (set_commit_index i s)
                            - last_applied (set_commit_index i s)))
                 (set_commit_index i s)).
Qed.

Lemma commit_scan_log fuel : ∀ (i : Z) s,
  log (state_of (commit_scan fuel i s)) = log s.
Proof.
  induction fuel as [|fuel IH]; intros i s; [done|]. cbn [commit_scan].
  destruct (Py.get (log s) i) as [entry|]; [|done].
  destruct (term entry =? current_term s); [|apply IH].
  destruct (quorum s <=? count_for s i); [|apply IH].
  unfold _apply_committed_entries.
  by destruct (RaftProofs.apply_loop_frame
                 (Z.to_nat (commit_index (set_commit_index i s)
                            - last_applied (set_commit_index i s)))
                 (set_commit_index i s)) as [(-> & _) _].
Qed.

(** A message whose log test succeeds is accepted, and the call
    returns. *)
Lemma handle_append_entries_accepted (m : AppendEntries Command) now s :
  current_term s <= msg_term m →
  log_matches s m = Some true →
  0 <= last_applied s →
  ∃ s' reply,
    _handle_append_entries m now s = Ok s' reply
    ∧ success reply = true
    ∧ reply_term reply = current_term s
    ∧ reply_match_index reply = prev_log_index m + Py.len (entries m)
    ∧ log s' = append_new_entries (log s) m.
Proof.
  intros Hterm Hmatch Hla. unfold _handle_append_entries.
  rewrite (proj2 (Z.ltb_ge _ _) Hterm).
  set (s2 := if RaftState_eqb (state (set_last_heartbeat now s)) CANDIDATE
             then set_state FOLLOWER (set_last_heartbeat now s)
             else set_last_heartbeat now s).
  assert (Hs2 : log s2 = log s ∧ commit_index s2 = commit_index s
                ∧ last_applied s2 = last_applied s
                ∧ current_term s2 = current_term s).
  { unfold s2.
    by destruct (RaftState_eqb (state (set_last_heartbeat now s)) CANDIDATE). }
  destruct Hs2 as (Hlog & Hci & Hlast & Hcur).
  rewrite (log_matches_log m s s2 Hlog), Hmatch.
  destruct (commit_index _ <? leader_commit m).
  - match goal with
    | |- context [_apply_committed_entries ?x] =>
        destruct (RaftProofs.apply_committed_entries_returns x)
          as [s5 Hs5]; [cbn; lia|cbn; lia|];
        pose proof (RaftProofs.apply_loop_frame
                      (Z.to_nat (commit_index x - last_applied x)) x)
          as [(Hl5 & Ht5 & _) _]
    end.
    rewrite Hs5. unfold _apply_committed_entries in Hs5.
    rewrite Hs5 in Hl5, Ht5. cbn in Hl5, Ht5.
    eexists _, _. split; [done|]. cbn [success reply_term reply_match_index].
    repeat split; congruence.
  - eexists _, _. split; [done|].
    cbn [success reply_term reply_match_index set_log log current_term].
    repeat split; congruence.
Qed.

(** X5. One round of catching up.  When a follower that is not in a
    later term holds the leader's log up to the position [next_index]
    the leader keeps for it, the message the leader builds for it is
    accepted: the follower's log becomes the leader's (it stays as it
    is when there is nothing to send), and the reply, handled by the
    leader, sets the follower's [match_index] to the leader's last
    position and its [next_index] to the length of the leader's log. *)
Theorem replication_round (peer_id : string) now later
    (leader follower : RaftNode Command) :
  let next_idx := default (Py.len (log leader))
                          (next_index leader !! peer_id) in
  0 <= next_idx <= Py.len (log leader) →
  next_idx <= Py.len (log follower) →
  take (Z.to_nat next_idx) (log follower)
  = take (Z.to_nat next_idx) (log leader) →
  current_term follower <= current_term leader →
  0 <= last_applied follower →
  state leader = LEADER →
  ∃ m follower' reply,
    append_entries_for peer_id [] leader = Some m
    ∧ handle_message (AppendEntriesMsg m) now follower
      = Ok follower' (Some (AppendEntriesReply reply))
    ∧ success reply = true
    ∧ current_term follower' = current_term leader
    ∧ (next_idx < Py.len (log leader) → log follower' = log leader)
    ∧ (next_idx = Py.len (log leader) → log follower' = log follower)
    ∧ let leader' := state_of (_handle_append_entries_response
                                 peer_id (response_of reply) later leader) in
      match_index leader' !! peer_id = Some (Py.len (log leader) - 1)
      ∧ next_index leader' !! peer_id = Some (Py.len (log leader))
      ∧ log leader' = log leader.
Proof.
  intros next_idx Hrange Hfol Hprefix Hterm Hla Hleader.
  (* the message *)
  assert (Hprev : ∃ t, (if 0 <=? next_idx - 1
                        then term <$> Py.get (log leader) (next_idx - 1)
                        else Some 0) = Some t
                       ∧ (next_idx - 1 = -1
                          ∨ ∃ e, Py.get (log follower) (next_idx - 1) = Some e
                                 ∧ term e = t)).
  { destruct (0 <=? next_idx - 1) eqn:Hpos.
    - apply Z.leb_le in Hpos.
      destruct (RaftProofs.get_in_range (log leader) (next_idx - 1))
        as [e He]; [lia|].
      rewrite He. exists (term e). split; [done|]. right. exists e.
      split; [|done]. rewrite RaftProofs.get_nonneg in * by lia.
      rewrite <- (lookup_take_lt (log follower) (Z.to_nat next_idx)) by lia.
      rewrite Hprefix. rewrite lookup_take_lt by lia. done.
    - apply Z.leb_gt in Hpos. exists 0. split; [done|]. left. lia. }
  destruct Hprev as (t & Ht & Hfmatch).
  set (to_send := if next_idx <? Py.len (log leader)
                  then slice_from (log leader) next_idx else []).
  set (m := mkAppendEntries (current_term leader) (node_id leader)
              (next_idx - 1) t to_send (commit_index leader)).
  assert (Hm : append_entries_for peer_id [] leader = Some m).
  { unfold append_entries_for. fold next_idx. by rewrite Ht. }
  (* the follower *)
  set (f1 := if current_term follower <? current_term leader
             then _step_down (current_term leader) now follower
             else follower).
  assert (Hf1 : log f1 = log follower ∧ last_applied f1 = last_applied follower
                ∧ current_term f1 = current_term leader).
  { unfold f1. destruct (current_term follower <? current_term leader) eqn:Hlt.
    - done.
    - apply Z.ltb_ge in Hlt. repeat split. lia. }
  destruct Hf1 as (Hf1log & Hf1la & Hf1term).
  assert (Hmatch : log_matches f1 m = Some true).
  { unfold log_matches. rewrite Hf1log. cbn [prev_log_index prev_log_term m].
    destruct (next_idx - 1 =? -1) eqn:Hs; [done|]. apply Z.eqb_neq in Hs.
    rewrite (proj2 (Z.ltb_lt _ _)) by lia.
    destruct Hfmatch as [?|(e & -> & <-)]; [lia|]. by rewrite Z.eqb_refl. }
  destruct (handle_append_entries_accepted m now f1)
    as (f' & reply & Hrun & Hok & Hrterm & Hrmatch & Hflog);
    [cbn [msg_term m]; lia|done|lia|].
  exists m, f', reply. split; [done|]. split.
  { unfold handle_message. cbn [message_term msg_term m]. fold f1.
    by rewrite Hrun. }
  split; [done|].
  assert (Hsend : Py.len to_send = Py.len (log leader) - next_idx
                  ∧ (next_idx < Py.len (log leader) →
                     to_send = drop (Z.to_nat next_idx) (log leader)
                     ∧ to_send ≠ [])
                  ∧ (next_idx = Py.len (log leader) → to_send = [])).
  { unfold to_send. destruct (next_idx <? Py.len (log leader)) eqn:Hlt.
    - apply Z.ltb_lt in Hlt. unfold slice_from.
      rewrite (proj2 (Z.leb_le 0 _)) by lia.
      split; [unfold Py.len in *; rewrite length_drop; lia|].
      split; [|lia]. intros _. split; [done|].
      intros Hnil%(f_equal length). rewrite length_drop in Hnil.
      unfold Py.len in *. simpl in Hnil. lia.
    - apply Z.ltb_ge in Hlt. split; [unfold Py.len in *; simpl; lia|].
      split; [lia|done]. }
  destruct Hsend as (Hlen & Hsome & Hnone).
  split.
  { pose proof (handle_append_entries_ballot m now f1) as Hb.
    rewrite Hrun in Hb. cbn [state_of] in Hb. injection Hb as _ Hb _.
    lia. }
  split.
  { intros Hlt. destruct (Hsome Hlt) as [Hdrop Hne].
    rewrite Hflog, Hf1log.
    destruct (RaftProofs.append_new_entries_spec (log follower) m)
      as [Hcut _]; [cbn [prev_log_index m]; lia|].
    rewrite Hcut by done. cbn [prev_log_index entries m].
    replace (Z.to_nat (next_idx - 1 + 1)) with (Z.to_nat next_idx) by lia.
    rewrite Hprefix, Hdrop. apply take_drop. }
  split.
  { intros Heq. rewrite Hflog, Hf1log. unfold append_new_entries.
    cbn [entries m]. by rewrite (Hnone Heq). }
  (* the leader *)
  cbv zeta. unfold _handle_append_entries_response, response_of.
  cbn [resp_term resp_success resp_match_index].
  rewrite Hrterm, Hf1term, Z.ltb_irrefl, Hleader, Hok.
  cbn [RaftState_eqb negb].
  unfold _update_commit_index. cbn [set_match_index set_next_index state].
  rewrite Hleader. cbn [RaftState_eqb negb].
  match goal with
  | |- context [commit_scan ?f ?i ?x] =>
      destruct (commit_scan_indexes f i x) as [Hni Hmi];
      pose proof (commit_scan_log f i x) as Hlog'
  end.
  rewrite Hni, Hmi, Hlog'.
  cbn [next_index match_index log set_match_index set_next_index].
  rewrite !lookup_insert_eq, Hrmatch. cbn [prev_log_index entries m].
  repeat split; f_equal; lia.
Qed.

End WithCommand.

(** A follower of term 0 that gets the vote requests of two candidates
    of term 1, the first one a second time too. *)
Definition fresh_follower : Candidate nat :=
  mkCandidate
    (mkRaftNode "n1" {[ "n2"; "n3" ]} 0 None [] 0 0 FOLLOWER ∅ ∅ 0%Q [])
    ∅ 5%Q.

Definition two_candidates : list (Event (Command := nat)) :=
  [Receive (RequestVoteMsg (mkRequestVote 1 "n2" "n2" (-1) 0)) 1%Q;
   Receive (RequestVoteMsg (mkRequestVote 1 "n3" "n3" (-1) 0)) 2%Q;
   Receive (RequestVoteMsg (mkRequestVote 1 "n2" "n2" (-1) 0)) 3%Q].

Example two_candidates_votes :
  (run two_candidates fresh_follower).2 = [(1, "n2"); (1, "n2")].
Proof. reflexivity. Qed.

Lemma one_vote_per_term_witness :
  ((1, "n2") ∈ (run two_candidates fresh_follower).2) ∧ "n2" = "n2".
Proof.
  assert (H : (1, "n2") ∈ (run two_candidates fresh_follower).2)
    by (rewrite two_candidates_votes; by left).
  split; [exact H|].
  exact (one_vote_per_term two_candidates fresh_follower 1 "n2" "n2" H H).
Defined.

(** A voter of term 0 with an empty log, for the election of [n1]. *)
Definition voter_n2 : RaftNode nat :=
  mkRaftNode "n2" {[ "n1"; "n3" ]} 0 None [] 0 0 FOLLOWER ∅ ∅ 0%Q [].

Lemma election_won_witness :
  let n' := _start_election 7%Q 1%Q
              (vote_answers
                 (vote_request (raft (become_candidate 7%Q 1%Q fresh_follower)))
                 2%Q [voter_n2])
              fresh_follower in
  state (raft n') = LEADER
  ∧ current_term (raft n') = current_term (raft fresh_follower) + 1
  ∧ votes_received n'
    = {[node_id (raft fresh_follower)]} ∪ list_to_set (node_id <$> [voter_n2])
  ∧ log (raft n') = log (raft fresh_follower)
  ∧ ∀ peer_id, peer_id ∈ cluster_nodes (raft fresh_follower) →
      next_index (raft n') !! peer_id
      = Some (Py.len (log (raft fresh_follower)))
      ∧ match_index (raft n') !! peer_id = Some 0.
Proof.
  apply (election_won 7%Q 1%Q 2%Q [voter_n2] fresh_follower).
  - apply Forall_cons. split; [|apply Forall_nil_2].
    split; [simpl; lia|]. right. split; [reflexivity|]. vm_compute.
    discriminate.
  - apply NoDup_singleton.
  - intros Hin. apply list_elem_of_singleton in Hin. discriminate Hin.
  - vm_compute. discriminate.
Defined.

Lemma replication_round_witness :
  ∃ m follower' reply,
    append_entries_for "n2" [] RaftProofs.leader3 = Some m
    ∧ handle_message (AppendEntriesMsg m) 5%Q RaftProofs.follower2
      = Ok follower' (Some (AppendEntriesReply reply))
    ∧ success reply = true
    ∧ current_term follower' = current_term RaftProofs.leader3
    ∧ (1 < Py.len (log RaftProofs.leader3) →
       log follower' = log RaftProofs.leader3)
    ∧ (1 = Py.len (log RaftProofs.leader3) →
       log follower' = log RaftProofs.follower2)
    ∧ let leader' := state_of (_handle_append_entries_response
                                 "n2" (response_of reply) 6%Q
                                 RaftProofs.leader3) in
      match_index leader' !! "n2" = Some (Py.len (log RaftProofs.leader3) - 1)
      ∧ next_index leader' !! "n2" = Some (Py.len (log RaftProofs.leader3))
      ∧ log leader' = log RaftProofs.leader3.
Proof.
  apply (replication_round "n2" 5%Q 6%Q RaftProofs.leader3
           RaftProofs.follower2).
  - vm_compute. split; discriminate.
  - vm_compute. discriminate.
  - reflexivity.
  - simpl. lia.
  - simpl. lia.
  - reflexivity.
Defined.

Definition node_to_apply : RaftNode nat :=
  mkRaftNode "n1" {[ "n2"; "n3" ]} 2 None
    [mkLogEntry 1 0 10%nat 0%Q; mkLogEntry 2 1 11%nat 0%Q;
     mkLogEntry 2 2 12%nat 0%Q]
    2 0 FOLLOWER ∅ ∅ 0%Q [].

Lemma apply_committed_entries_exact_witness :
  ∃ s', _apply_committed_entries node_to_apply = Ok s' tt
        ∧ last_applied s' = 2
        ∧ applied s' = [11%nat; 12%nat]
        ∧ log s' = log node_to_apply ∧ commit_index s' = 2.
Proof.
  destruct (apply_committed_entries_exact node_to_apply)
    as (s' & Hrun & Hla & Happ & Hrest); [simpl; lia|reflexivity|].
  exists s'. split; [exact Hrun|]. split; [exact Hla|].
  split; [exact Happ|exact Hrest].
Defined.

End RaftPeerProofs.

(** ** More properties of the lock table *)

Module LockTableProofs.
Import Lock LockProofs.

#[local] Set Warnings "-clear-no-such-hyp".

(** Somebody waits only where somebody holds. *)
Definition waiters_behind_holder (lock : LockInfo) : Prop :=
  waiters lock ≠ [] → holders lock ≠ ∅.

Definition no_orphan_waiters (st : LockManager) : Prop :=
  ∀ rid lock, locks st !! rid = Some lock → waiters_behind_holder lock.

Lemma holders_with_client_nonempty (hs : gset string) (c : string) :
  hs ∪ {[c]} ≠ ∅.
Proof.
  intros H. assert (c ∈ hs ∪ {[c]}) as Hin.
  { apply elem_of_union_r. by apply elem_of_singleton. }
  rewrite H in Hin. by apply not_elem_of_empty in Hin.
Qed.

(** An acquire leaves its own resource with a holder, whatever the
    table was. *)
Lemma apply_acquire_no_orphans rid lt cid ts st :
  (∀ rid' lock, rid' ≠ rid → locks st !! rid' = Some lock →
                waiters_behind_holder lock) →
  no_orphan_waiters (_apply_acquire rid lt cid ts st).
Proof.
  intros Hothers rid' lock'. unfold _apply_acquire.
  set (lock := default (mkLockInfo rid lt ∅ [] ts) (locks st !! rid)).
  destruct (bool_decide (holders lock = ∅)) eqn:Hempty.
  - cbn [locks]. destruct (decide (rid = rid')) as [<-|Hne].
    + rewrite lookup_insert_eq. intros [= <-] _. cbn [holders].
      apply holders_with_client_nonempty.
    + rewrite lookup_insert_ne by done. by apply Hothers.
  - apply bool_decide_eq_false in Hempty.
    destruct (bool_decide (lt = SHARED)
              && bool_decide (lock_type lock = SHARED));
      cbn [locks]; (destruct (decide (rid = rid')) as [<-|Hne];
        [rewrite lookup_insert_eq; intros [= <-] _; cbn [holders]
        |rewrite lookup_insert_ne by done; by apply Hothers]).
    + apply holders_with_client_nonempty.
    + done.
Qed.

Lemma apply_release_no_orphans rid cid st :
  waiters_tagged st → no_orphan_waiters st →
  no_orphan_waiters (_apply_release rid cid st).
Proof.
  intros Htag Hinv. unfold _apply_release.
  destruct (locks st !! rid) as [lock|] eqn:Hlock; [|done].
  assert (Hkeep : ∀ lock' cl g,
    waiters_behind_holder lock' →
    no_orphan_waiters (mkLockManager (<[rid := lock']> (locks st)) cl g)).
  { intros lock' cl g Hl rid' l'. cbn [locks].
    destruct (decide (rid = rid')) as [<-|Hne].
    - rewrite lookup_insert_eq. by intros [= <-].
    - rewrite lookup_insert_ne by done. apply Hinv. }
  destruct (bool_decide (holders lock ∖ {[cid]} = ∅)) eqn:Hempty.
  - destruct (sort_by_timestamp (waiters lock)) as [|w ws] eqn:Hsort.
    + apply Hkeep. intros Hw. exfalso. apply Hw. cbn [waiters].
      apply Permutation_nil. by rewrite <- Hsort, sort_by_timestamp_perm.
    + assert (Hrid : req_resource_id w = rid).
      { pose proof (Htag rid lock Hlock) as Hw.
        rewrite <- (sort_by_timestamp_perm (waiters lock)), Hsort in Hw.
        by inversion Hw. }
      rewrite Hrid. apply apply_acquire_no_orphans.
      intros rid' l' Hne. cbn [locks]. rewrite lookup_insert_ne by done.
      apply Hinv.
  - apply bool_decide_eq_false in Hempty. apply Hkeep. by intros _.
Qed.

Lemma apply_all_no_orphans commands : ∀ st,
  waiters_tagged st → no_orphan_waiters st →
  no_orphan_waiters (apply_all commands st).
Proof.
  induction commands as [|c commands IH]; intros st Htag Hinv; [done|].
  cbn [apply_all foldl]. apply IH.
  - destruct c; cbn [_apply_lock_operation].
    + by apply apply_acquire_tagged.
    + by apply apply_release_tagged.
    + done.
  - destruct c; cbn [_apply_lock_operation].
    + apply apply_acquire_no_orphans. intros rid' l' _. apply Hinv.
    + by apply apply_release_no_orphans.
    + done.
Qed.

(** X6. In every lock table reached from the empty one, a resource
    with a waiter has a holder: nobody waits for a free lock. *)
Theorem waiting_means_held commands rid lock :
  locks (apply_all commands init) !! rid = Some lock →
  waiters lock ≠ [] →
  holders lock ≠ ∅.
Proof.
  intros Hlock.
  assert (no_orphan_waiters (apply_all commands init)) as Hinv.
  { apply apply_all_no_orphans; [apply waiters_tagged_init|].
    intros r l H. simpl in H. by rewrite lookup_empty in H. }
  by apply (Hinv rid).
Qed.

Lemma waiting_means_held_witness :
  holders lock_after_two_requests ≠ ∅.
Proof.
  apply (waiting_means_held two_requests "R" lock_after_two_requests);
    [reflexivity|discriminate].
Defined.

(** *** The two views of who holds what *)

(** [locks[rid].holders], empty for an unknown resource, and
    [client_locks[c]], empty for an unknown client. *)
Definition holders_of (st : LockManager) (rid : string) : gset string :=
  from_option holders ∅ (locks st !! rid).

Definition resources_of (st : LockManager) (c : string) : gset string :=
  default ∅ (client_locks st !! c).

Definition index_agrees (st : LockManager) : Prop :=
  ∀ rid c, c ∈ holders_of st rid ↔ rid ∈ resources_of st c.

Lemma is_lock_held_holders_of rid c st :
  _is_lock_held rid c st = true ↔ c ∈ holders_of st rid.
Proof.
  unfold _is_lock_held, holders_of.
  destruct (locks st !! rid) as [lock|]; cbn.
  - apply bool_decide_eq_true.
  - split; [done|]. intros H. by apply not_elem_of_empty in H.
Qed.

Lemma holders_of_insert rid lock ls cl g rid' :
  holders_of (mkLockManager (<[rid := lock]> ls) cl g) rid'
  = if decide (rid = rid') then holders lock
    else from_option holders ∅ (ls !! rid').
Proof.
  unfold holders_of. cbn [locks]. destruct (decide (rid = rid')) as [<-|Hne].
  - by rewrite lookup_insert_eq.
  - by rewrite lookup_insert_ne.
Qed.

Lemma apply_acquire_index rid lt cid ts st :
  index_agrees st → index_agrees (_apply_acquire rid lt cid ts st).
Proof.
  intros Hinv rid' c'. unfold _apply_acquire.
  set (lock := default (mkLockInfo rid lt ∅ [] ts) (locks st !! rid)).
  assert (Hl : holders lock = holders_of st rid).
  { unfold lock, holders_of. by destruct (locks st !! rid). }
  pose proof (Hinv rid c') as Hrc. pose proof (Hinv rid' c') as Hr'c.
  rewrite <- Hl in Hrc.
  assert (Hgrant :
    c' ∈ holders_of
           (mkLockManager
              (<[rid := mkLockInfo (resource_id lock) lt
                          (holders lock ∪ {[cid]}) (waiters lock)
                          (acquired_at lock)]> (locks st))
              (<[cid := default ∅ (client_locks st !! cid) ∪ {[rid]}]>
                 (client_locks st))
              (wait_for_graph st)) rid'
    ↔ rid' ∈ resources_of
           (mkLockManager
              (<[rid := mkLockInfo (resource_id lock) lt
                          (holders lock ∪ {[cid]}) (waiters lock)
                          (acquired_at lock)]> (locks st))
              (<[cid := default ∅ (client_locks st !! cid) ∪ {[rid]}]>
                 (client_locks st))
              (wait_for_graph st)) c').
  { rewrite holders_of_insert. unfold resources_of. cbn [client_locks holders].
    unfold holders_of, resources_of in Hrc, Hr'c.
    destruct (decide (rid = rid')) as [<-|Hne];
      (destruct (decide (cid = c')) as [<-|Hnc];
       [rewrite lookup_insert_eq|rewrite lookup_insert_ne by done]);
      cbn [default from_option id]; set_solver. }
  destruct (bool_decide (holders lock = ∅)); [exact Hgrant|].
  destruct (bool_decide (lt = SHARED)
            && bool_decide (lock_type lock = SHARED)); [exact Hgrant|].
  rewrite holders_of_insert. unfold resources_of. cbn [client_locks holders].
  destruct (decide (rid = rid')) as [<-|Hne]; [exact Hrc|exact Hr'c].
Qed.

Lemma apply_release_index rid cid st :
  index_agrees st → index_agrees (_apply_release rid cid st).
Proof.
  intros Hinv. unfold _apply_release.
  destruct (locks st !! rid) as [lock|] eqn:Hlock; [|done].
  assert (Hremoved : ∀ ws g,
    index_agrees
      (mkLockManager
         (<[rid := mkLockInfo (resource_id lock) (lock_type lock)
                     (holders lock ∖ {[cid]}) ws (acquired_at lock)]>
            (locks st))
         (alter (λ rs, rs ∖ {[rid]}) cid (client_locks st)) g)).
  { intros ws g rid' c'. rewrite holders_of_insert.
    unfold resources_of. cbn [client_locks holders].
    pose proof (Hinv rid c') as Hrc. pose proof (Hinv rid' c') as Hr'c.
    unfold holders_of, resources_of in Hrc, Hr'c.
    rewrite Hlock in Hrc. cbn [from_option] in Hrc.
    destruct (decide (rid = rid')) as [<-|Hne];
      (destruct (decide (cid = c')) as [<-|Hnc];
       [rewrite lookup_alter_eq; destruct (client_locks st !! cid)
       |rewrite lookup_alter_ne by done]);
      cbn [default from_option id fmap option_fmap option_map] in *;
      set_solver. }
  destruct (bool_decide (holders lock ∖ {[cid]} = ∅));
    [destruct (sort_by_timestamp (waiters lock))|]; try apply Hremoved.
  apply apply_acquire_index, Hremoved.
Qed.

Lemma apply_all_index commands : ∀ st,
  index_agrees st → index_agrees (apply_all commands st).
Proof.
  induction commands as [|c commands IH]; intros st Hinv; [done|].
  cbn [apply_all foldl]. apply IH.
  destruct c; cbn [_apply_lock_operation];
    [by apply apply_acquire_index|by apply apply_release_index|done].
Qed.

Lemma index_agrees_init : index_agrees init.
Proof. intros rid c. unfold holders_of, resources_of. simpl. by rewrite !lookup_empty. Qed.

(** X7. In every lock table reached from the empty one,
    [_is_lock_held(resource, client)] is true exactly when the resource
    is in [client_locks[client]]: the per-client index and the holder
    sets never drift apart. *)
Theorem client_locks_mirror_holders commands rid c :
  _is_lock_held rid c (apply_all commands init) = true
  ↔ ∃ rs, client_locks (apply_all commands init) !! c = Some rs ∧ rid ∈ rs.
Proof.
  rewrite is_lock_held_holders_of.
  rewrite (apply_all_index commands init index_agrees_init rid c).
  unfold resources_of.
  destruct (client_locks (apply_all commands init) !! c) as [rs|]; cbn.
  - split; [by exists rs|]. by intros (rs' & [= <-] & Hin).
  - split; [intros H; by apply not_elem_of_empty in H|].
    by intros (rs' & [=] & _).
Qed.

(** X8. In every lock table reached from the empty one, a release by
    a client that does not hold the resource changes neither the lock
    table nor the per-client index. *)
Theorem release_by_non_holder commands rid cid :
  _is_lock_held rid cid (apply_all commands init) = false →
  locks (_apply_release rid cid (apply_all commands init))
  = locks (apply_all commands init)
  ∧ client_locks (_apply_release rid cid (apply_all commands init))
    = client_locks (apply_all commands init).
Proof.
  set (st := apply_all commands init). intros Hheld.
  assert (Hnot : cid ∉ holders_of st rid).
  { intros Hin%is_lock_held_holders_of. congruence. }
  assert (Hidx : rid ∉ resources_of st cid).
  { intros Hin. apply Hnot.
    by apply (apply_all_index commands init index_agrees_init). }
  assert (Horph : no_orphan_waiters st).
  { apply apply_all_no_orphans; [apply waiters_tagged_init|].
    intros r l H. simpl in H. by rewrite lookup_empty in H. }
  unfold _apply_release.
  destruct (locks st !! rid) as [lock|] eqn:Hlock; [|done].
  unfold holders_of in Hnot. rewrite Hlock in Hnot. cbn in Hnot.
  assert (Hsame : holders lock ∖ {[cid]} = holders lock) by set_solver.
  assert (Hcl : alter (λ rs, rs ∖ {[rid]}) cid (client_locks st)
                = client_locks st).
  { apply map_eq. intros k. destruct (decide (cid = k)) as [<-|Hne].
    - rewrite lookup_alter_eq. unfold resources_of in Hidx.
      destruct (client_locks st !! cid) as [rs|]; cbn in *; [|done].
      f_equal. set_solver.
    - by rewrite lookup_alter_ne. }
  assert (Hls : <[rid := mkLockInfo (resource_id lock) (lock_type lock)
                           (holders lock ∖ {[cid]}) (waiters lock)
                           (acquired_at lock)]> (locks st) = locks st).
  { apply insert_id. rewrite Hlock, Hsame. by destruct lock. }
  destruct (bool_decide (holders lock ∖ {[cid]} = ∅)) eqn:Hempty.
  - apply bool_decide_eq_true in Hempty. rewrite Hsame in Hempty.
    destruct (sort_by_timestamp (waiters lock)) as [|w ws] eqn:Hsort.
    + by cbn [locks client_locks].
    + exfalso. apply (Horph rid lock Hlock); [|done].
      intros Hw. rewrite Hw in Hsort. discriminate.
  - by cbn [locks client_locks].
Qed.

Lemma release_by_non_holder_witness :
  locks (_apply_release "R" "b" (apply_all two_requests init))
  = locks (apply_all two_requests init)
  ∧ client_locks (_apply_release "R" "b" (apply_all two_requests init))
    = client_locks (apply_all two_requests init).
Proof.
  apply (release_by_non_holder two_requests "R" "b"). reflexivity.
Defined.

(** *** Handing a lock over *)

(** On a resource nobody has asked for yet: an exclusive acquire by
    [c1] is granted; the next acquire, by another client [c2] in either
    mode, is not; and when [c1] releases, [c2] holds the lock in the mode
    it asked for and [c1] no longer does. *)
Theorem exclusive_hand_over rid c1 c2 lt ts1 ts2 st :
  locks st !! rid = None → c1 ≠ c2 →
  let st1 := _apply_acquire rid EXCLUSIVE c1 ts1 st in
  let st2 := _apply_acquire rid lt c2 ts2 st1 in
  let st3 := _apply_release rid c1 st2 in
  _is_lock_held rid c1 st1 = true
  ∧ _is_lock_held rid c1 st2 = true ∧ _is_lock_held rid c2 st2 = false
  ∧ _is_lock_held rid c1 st3 = false ∧ _is_lock_held rid c2 st3 = true
  ∧ lock_type <$> locks st3 !! rid = Some lt.
Proof.
  intros Hnone Hne st1 st2 st3.
  assert (H1 : locks st1 !! rid
               = Some (mkLockInfo rid EXCLUSIVE (∅ ∪ {[c1]}) [] ts1)).
  { unfold st1, _apply_acquire. rewrite Hnone. cbn [default holders].
    rewrite bool_decide_eq_true_2 by done. cbn [locks].
    by rewrite lookup_insert_eq. }
  assert (H2 : locks st2 !! rid
               = Some (mkLockInfo rid EXCLUSIVE (∅ ∪ {[c1]})
                         [mkLockRequest rid lt c2 ts2] ts1)).
  { unfold st2, _apply_acquire. rewrite H1. cbn [default holders lock_type].
    rewrite bool_decide_eq_false_2
      by apply holders_with_client_nonempty.
    rewrite (bool_decide_eq_false_2 (EXCLUSIVE = SHARED)) by done.
    rewrite andb_false_r. cbn [locks]. by rewrite lookup_insert_eq. }
  assert (H3 : locks st3 !! rid
               = Some (mkLockInfo rid lt (((∅ ∪ {[c1]}) ∖ {[c1]}) ∪ {[c2]})
                         [] ts1)).
  { unfold st3, _apply_release. rewrite H2.
    cbn [holders waiters sort_by_timestamp insert_by_timestamp
         resource_id lock_type acquired_at].
    rewrite bool_decide_eq_true_2 by set_solver.
    cbn [req_resource_id req_lock_type req_client_id req_timestamp].
    unfold _apply_acquire. cbn [locks]. rewrite lookup_insert_eq.
    cbn [default holders].
    rewrite bool_decide_eq_true_2 by set_solver.
    cbn [locks]. by rewrite lookup_insert_eq. }
  unfold _is_lock_held. rewrite H1, H2, H3. cbn [holders fmap option_fmap option_map lock_type].
  repeat split.
  - apply bool_decide_eq_true_2. set_solver.
  - apply bool_decide_eq_true_2. set_solver.
  - apply bool_decide_eq_false_2. set_solver.
  - apply bool_decide_eq_false_2. set_solver.
  - apply bool_decide_eq_true_2. set_solver.
Qed.

Lemma exclusive_hand_over_witness :
  _is_lock_held "R" "b"
    (_apply_release "R" "a"
       (_apply_acquire "R" SHARED "b" 2%Q
          (_apply_acquire "R" EXCLUSIVE "a" 1%Q init))) = true.
Proof.
  refine (proj1 (proj2 (proj2 (proj2 (proj2
            (exclusive_hand_over "R" "a" "b" SHARED 1%Q 2%Q init _ _))))));
    [reflexivity|discriminate].
Defined.

(** *** The wait-for graph *)

(** The clients [c] waits for, none for a client without an entry. *)
Definition waits_for (g : gmap string (gset string)) (c : string)
  : gset string :=
  default ∅ (g !! c).

Lemma add_edges_waits_for (c : string) (g0 : gmap string (gset string))
    (X : gset string) (c' : string) :
  waits_for (set_fold (λ holder g, add_edge c holder g) g0 X) c'
  = if decide (c = c') then waits_for g0 c ∪ X else waits_for g0 c'.
Proof.
  revert X.
  apply (set_fold_ind_L
           (λ g (X : gset string),
              waits_for g c'
              = if decide (c = c') then waits_for g0 c ∪ X
                else waits_for g0 c')).
  - destruct (decide (c = c')) as [<-|]; [|done]. set_solver.
  - intros x X g Hx IH. unfold waits_for, add_edge in *.
    destruct (decide (c = c')) as [<-|Hne].
    + rewrite lookup_insert_eq. cbn [default from_option id].
      rewrite IH. set_solver.
    + by rewrite lookup_insert_ne.
Qed.

Lemma remove_edges_other (c : string) (g0 : gmap string (gset string))
    (X : gset string) (c' : string) :
  c ≠ c' →
  set_fold (λ holder g, remove_edge c holder g) g0 X !! c' = g0 !! c'.
Proof.
  intros Hne. revert X.
  apply (set_fold_ind_L
           (λ g (X : gset string), g !! c' = g0 !! c')); [done|].
  intros x X g Hx IH. unfold remove_edge. by rewrite lookup_alter_ne.
Qed.

(** X9. An acquire that cannot be granted (the lock has a holder and
    the request or the lock is exclusive) adds to the wait-for graph an
    edge from the requester to every current holder, keeps the edges the
    requester already had, and leaves every other client's edges and the
    holders as they were. *)
Theorem queued_request_waits_for_holders rid lt cid ts st lock :
  locks st !! rid = Some lock →
  holders lock ≠ ∅ →
  lt = EXCLUSIVE ∨ lock_type lock = EXCLUSIVE →
  let st' := _apply_acquire rid lt cid ts st in
  waits_for (wait_for_graph st') cid
  = waits_for (wait_for_graph st) cid ∪ holders lock
  ∧ (∀ c, c ≠ cid →
       waits_for (wait_for_graph st') c = waits_for (wait_for_graph st) c)
  ∧ (∀ c, _is_lock_held rid c st' = _is_lock_held rid c st).
Proof.
  intros Hlock Hheld Hexcl st'. unfold st', _apply_acquire.
  rewrite Hlock. cbn [default from_option id].
  rewrite bool_decide_eq_false_2 by done.
  assert (bool_decide (lt = SHARED)
          && bool_decide (lock_type lock = SHARED) = false) as ->.
  { destruct Hexcl as [->| ->].
    - by rewrite (bool_decide_eq_false_2 (EXCLUSIVE = SHARED)).
    - rewrite (bool_decide_eq_false_2 (EXCLUSIVE = SHARED)) by done.
      apply andb_false_r. }
  cbn [wait_for_graph]. split; [|split].
  - rewrite add_edges_waits_for. by rewrite decide_True.
  - intros c Hc. rewrite add_edges_waits_for. by rewrite decide_False.
  - intros c. unfold _is_lock_held. cbn [locks].
    by rewrite lookup_insert_eq, Hlock.
Qed.

Lemma queued_request_waits_for_holders_witness :
  waits_for
    (wait_for_graph
       (_apply_acquire "R" SHARED "b" 2%Q
          (_apply_acquire "R" EXCLUSIVE "a" 1%Q init))) "b"
  = waits_for (wait_for_graph (_apply_acquire "R" EXCLUSIVE "a" 1%Q init)) "b"
    ∪ {[ "a" ]}.
Proof.
  refine (proj1 (queued_request_waits_for_holders "R" SHARED "b" 2%Q
                   (_apply_acquire "R" EXCLUSIVE "a" 1%Q init)
                   (mkLockInfo "R" EXCLUSIVE {[ "a" ]} [] 1%Q) _ _ _)).
  - reflexivity.
  - discriminate.
  - by right.
Defined.

(** X10. In every lock table reached from the empty one, a release
    changes the wait-for edges of the releasing client only: the edges
    of the clients that waited for it, the one it hands the lock to
    included, stay in the graph. *)
Theorem release_keeps_edges_of_others commands rid cid c :
  c ≠ cid →
  wait_for_graph (_apply_release rid cid (apply_all commands init)) !! c
  = wait_for_graph (apply_all commands init) !! c.
Proof.
  set (st := apply_all commands init). intros Hc.
  assert (Htag : waiters_tagged st)
    by apply apply_all_tagged, waiters_tagged_init.
  unfold _apply_release.
  destruct (locks st !! rid) as [lock|] eqn:Hlock; [|done].
  destruct (bool_decide (holders lock ∖ {[cid]} = ∅)) eqn:Hempty;
    [destruct (sort_by_timestamp (waiters lock)) as [|w ws] eqn:Hsort|];
    try (cbn [wait_for_graph]; by apply remove_edges_other).
  assert (Hrid : req_resource_id w = rid).
  { pose proof (Htag rid lock Hlock) as Hw.
    rewrite <- (sort_by_timestamp_perm (waiters lock)), Hsort in Hw.
    by inversion Hw. }
  rewrite Hrid. unfold _apply_acquire. cbn [locks].
  rewrite lookup_insert_eq. cbn [default from_option id holders].
  rewrite Hempty. cbn [wait_for_graph]. by apply remove_edges_other.
Qed.

Lemma release_keeps_edges_of_others_witness :
  wait_for_graph (_apply_release "R" "a" (apply_all two_requests init)) !! "b"
  = wait_for_graph (apply_all two_requests init) !! "b".
Proof.
  apply (release_keeps_edges_of_others two_requests "R" "a" "b").
  discriminate.
Defined.

End LockTableProofs.

(** ** More about dictionaries *)

Module DictOpsProofs.

Section Dicts.
Context {V : Type}.
Implicit Types (d : list (string * V)).

Lemma get_set_eq d k v : Dict.get (Dict.set d k v) k = Some v.
Proof.
  induction d as [|[k' v'] d IH]; cbn [Dict.set Dict.get].
  - by rewrite String.eqb_refl.
  - destruct (String.eqb k k') eqn:E; cbn [Dict.get]; rewrite E;
      [done|apply IH].
Qed.

Lemma set_absent d k v :
  Dict.get d k = None → Dict.set d k v = d ++ [(k, v)].
Proof.
  induction d as [|[k' v'] d IH]; cbn [Dict.set Dict.get app]; [done|].
  destruct (String.eqb k k'); [done|]. intros H. by rewrite IH.
Qed.

Lemma del_set_absent d k v :
  Dict.get d k = None → Dict.del (Dict.set d k v) k = d.
Proof.
  intros H. rewrite set_absent by done. unfold Dict.del.
  rewrite filter_app. fold (Dict.del d k).
  rewrite DictProofs.del_absent by (by apply DictProofs.get_None_keys).
  rewrite filter_cons_False, filter_nil; [by rewrite app_nil_r|].
  cbn [fst]. by rewrite String.eqb_refl.
Qed.

Lemma get_app_absent (pre d : list (string * V)) k :
  k ∉ pre.*1 → Dict.get (pre ++ d) k = Dict.get d k.
Proof.
  induction pre as [|[k' v'] pre IH]; [done|]. cbn [fmap list_fmap fst].
  rewrite not_elem_of_cons. intros [Hne Hpre]. cbn [app Dict.get].
  rewrite DictProofs.eqb_false by done. by apply IH.
Qed.

Lemma del_elem d k kv : kv ∈ Dict.del d k → kv ∈ d.
Proof. unfold Dict.del. by intros [_ ?]%list_elem_of_filter. Qed.

Lemma del_key_absent d k : k ∉ (Dict.del d k).*1.
Proof. apply DictProofs.get_None_keys, DictProofs.get_del_eq. Qed.

Lemma del_mem d k :
  (if Dict.mem d k then Dict.del d k else d) = Dict.del d k.
Proof.
  unfold Dict.mem. destruct (Dict.get d k) eqn:H; [done|].
  symmetry. by apply DictProofs.del_absent, DictProofs.get_None_keys.
Qed.

Lemma elem_of_drop_inv {A} (l : list A) n x : x ∈ drop n l → x ∈ l.
Proof.
  intros [i Hi]%list_elem_of_lookup_1. rewrite lookup_drop in Hi.
  by eapply list_elem_of_lookup_2.
Qed.

End Dicts.

End DictOpsProofs.

(** ** More properties of the queue *)

Module QueueOpsProofs.
Import Queue QueueOps DictOpsProofs.

(** *** The hash ring *)

Section Ring.
Variable md5 : string → Z.
Implicit Types (ch : ConsistentHash).

Lemma sorted_keys_elem ch k : k ∈ sorted_keys ch ↔ is_Some (ring ch !! k).
Proof.
  unfold sorted_keys.
  rewrite (merge_sort_Permutation Z.le), elem_of_elements.
  apply elem_of_dom.
Qed.

Lemma sorted_keys_sorted ch : StronglySorted Z.le (sorted_keys ch).
Proof. apply (StronglySorted_merge_sort Z.le). Qed.

Lemma StronglySorted_lookup_le (l : list Z) : ∀ i j x y,
  StronglySorted Z.le l → l !! i = Some x → l !! j = Some y →
  (i ≤ j)%nat → x <= y.
Proof.
  induction l as [|a l IH]; intros i j x y Hs Hi Hj Hij; [done|].
  inversion Hs as [|a' l' Hs' Hall]; subst.
  destruct i as [|i], j as [|j]; simpl in *.
  - injection Hi as <-. injection Hj as <-. lia.
  - injection Hi as <-. rewrite Forall_forall in Hall. apply Hall.
    by eapply list_elem_of_lookup_2.
  - lia.
  - apply (IH i j); [done|done|done|lia].
Qed.

(** The ring point that serves [key]: the least point at or after the
    hash of the key, or, when no point is that far, the least point of
    the ring. *)
Definition successor_point (key : string) ch (k : Z) : Prop :=
  (_hash md5 key <= k
   ∧ ∀ k', is_Some (ring ch !! k') → _hash md5 key <= k' → k <= k')
  ∨ ((∀ k', is_Some (ring ch !! k') → k' < _hash md5 key)
     ∧ ∀ k', is_Some (ring ch !! k') → k <= k').

Lemma get_node_empty key ch : ring ch = ∅ → get_node md5 key ch = None.
Proof. intros H. unfold get_node. by rewrite bool_decide_eq_true_2. Qed.

Lemma get_node_point key ch :
  ring ch ≠ ∅ →
  ∃ k n, ring ch !! k = Some n ∧ get_node md5 key ch = Some n
         ∧ successor_point key ch k.
Proof.
  intros Hne. unfold get_node. rewrite bool_decide_eq_false_2 by done.
  cbn zeta. pose proof (sorted_keys_sorted ch) as Hs.
  pose proof (sorted_keys_elem ch) as Helem.
  destruct (list_find (λ ring_hash, _hash md5 key <= ring_hash)
                      (sorted_keys ch)) as [[i x]|] eqn:Hfind.
  - apply list_find_Some in Hfind as (Hi & Hx & Hbefore).
    assert (is_Some (ring ch !! x)) as [n Hn].
    { apply Helem. by eapply list_elem_of_lookup_2. }
    exists x, n. split; [done|]. split; [done|]. left. split; [done|].
    intros k' Hk' Hle. apply Helem in Hk'.
    apply list_elem_of_lookup_1 in Hk' as [j Hj].
    destruct (decide (j < i)%nat) as [Hlt|Hge].
    + exfalso. by apply (Hbefore j k').
    + apply (StronglySorted_lookup_le (sorted_keys ch) i j);
        [done|done|done|lia].
  - apply list_find_None in Hfind.
    destruct (sorted_keys ch) as [|k0 l] eqn:Hl.
    + exfalso. apply Hne. apply map_empty. intros k.
      apply eq_None_not_Some. intros Hk. apply Helem in Hk.
      by apply elem_of_nil in Hk.
    + cbn [head]. assert (is_Some (ring ch !! k0)) as [n Hn].
      { apply Helem. by left. }
      exists k0, n. cbn. rewrite Hn. split; [done|]. split; [done|].
      right. split.
      * intros k' Hk'. apply Helem in Hk'. rewrite Forall_forall in Hfind.
        specialize (Hfind k' Hk'). lia.
      * intros k' Hk'. apply Helem in Hk'.
        inversion Hs as [|a' l' Hs' Hall]; subst.
        apply elem_of_cons in Hk' as [->|Hin]; [lia|].
        rewrite Forall_forall in Hall. by apply Hall.
Qed.

Lemma get_node_in_ring key ch n :
  get_node md5 key ch = Some n → ∃ k, ring ch !! k = Some n.
Proof.
  intros Hget. destruct (decide (ring ch = ∅)) as [Hempty|Hne].
  - by rewrite get_node_empty in Hget.
  - destruct (get_node_point key ch Hne) as (k & n' & Hk & Hget' & _).
    exists k. congruence.
Qed.

(** X13. [get_node] returns [None] on an empty ring and on no other;
    otherwise it returns the owner of the first point clockwise from the
    hash of the key: the least point at or after the hash, and the least
    point of the ring when the hash lies after all of them. *)
Theorem get_node_successor key ch :
  (ring ch = ∅ ∧ get_node md5 key ch = None)
  ∨ (∃ k n, ring ch !! k = Some n ∧ get_node md5 key ch = Some n
            ∧ successor_point key ch k).
Proof.
  destruct (decide (ring ch = ∅)) as [Hempty|Hne].
  - left. split; [done|]. by apply get_node_empty.
  - right. by apply get_node_point.
Qed.

(** Every point of the ring is one of the virtual points of the node
    it belongs to. *)
Definition points_of_owner ch : Prop :=
  ∀ h n, ring ch !! h = Some n →
         ∃ i, (i < virtual_nodes ch)%nat ∧ h = _hash md5 (virtual_key n i).

Lemma insert_points_lookup (node : string) (l : list nat) :
  ∀ (r : gmap Z string) h n,
  foldl (λ r i, <[_hash md5 (virtual_key node i) := node]> r) r l !! h
  = Some n →
  (n = node ∧ ∃ i, i ∈ l ∧ h = _hash md5 (virtual_key node i))
  ∨ r !! h = Some n.
Proof.
  induction l as [|i l IH]; intros r h n; cbn [foldl]; [by right|].
  intros H. apply IH in H as [(-> & j & Hj & ->)|H].
  - left. split; [done|]. exists j. split; [by right|done].
  - destruct (decide (_hash md5 (virtual_key node i) = h)) as [<-|Hne].
    + rewrite lookup_insert_eq in H. injection H as <-.
      left. split; [done|]. exists i. split; [by left|done].
    + rewrite lookup_insert_ne in H by done. by right.
Qed.

Lemma insert_points_keep (node : string) (l : list nat) :
  ∀ (r : gmap Z string) h,
  r !! h = Some node →
  foldl (λ r i, <[_hash md5 (virtual_key node i) := node]> r) r l !! h
  = Some node.
Proof.
  induction l as [|i l IH]; intros r h H; cbn [foldl]; [done|].
  apply IH. destruct (decide (_hash md5 (virtual_key node i) = h)) as [<-|Hne].
  - by rewrite lookup_insert_eq.
  - by rewrite lookup_insert_ne.
Qed.

Lemma insert_points_own (node : string) (l : list nat) :
  ∀ (r : gmap Z string) i,
  i ∈ l →
  foldl (λ r i, <[_hash md5 (virtual_key node i) := node]> r) r l
    !! _hash md5 (virtual_key node i)
  = Some node.
Proof.
  induction l as [|j l IH]; intros r i Hi; cbn [foldl].
  { by apply elem_of_nil in Hi. }
  apply elem_of_cons in Hi as [->|Hi].
  - apply insert_points_keep. by rewrite lookup_insert_eq.
  - by apply IH.
Qed.

Lemma delete_points_lookup (node : string) (l : list nat) :
  ∀ (r : gmap Z string) h n,
  foldl (λ r i, delete (_hash md5 (virtual_key node i)) r) r l !! h = Some n →
  r !! h = Some n ∧ ∀ i, i ∈ l → h ≠ _hash md5 (virtual_key node i).
Proof.
  induction l as [|i l IH]; intros r h n; cbn [foldl].
  { intros H. split; [done|]. intros i Hi. by apply elem_of_nil in Hi. }
  intros H. apply IH in H as [H Hl].
  apply lookup_delete_Some in H as [Hne H]. split; [done|].
  intros j [->|Hj]%elem_of_cons; [done|by apply Hl].
Qed.

Lemma add_node_points node ch :
  points_of_owner ch → points_of_owner (add_node md5 node ch).
Proof.
  intros Hinv h n. unfold add_node. cbn [ring virtual_nodes]. intros H.
  apply insert_points_lookup in H as [(-> & i & Hi & ->)|H].
  - exists i. split; [|done]. apply elem_of_seq in Hi. lia.
  - by apply Hinv.
Qed.

Lemma remove_node_points node ch :
  points_of_owner ch → points_of_owner (remove_node md5 node ch).
Proof.
  intros Hinv h n. unfold remove_node. cbn [ring virtual_nodes]. intros H.
  apply delete_points_lookup in H as [H _]. by apply Hinv.
Qed.

Lemma add_nodes_points nodes : ∀ ch,
  points_of_owner ch →
  points_of_owner (foldl (λ ch node, add_node md5 node ch) ch nodes).
Proof.
  induction nodes as [|node nodes IH]; intros ch Hinv; cbn [foldl]; [done|].
  by apply IH, add_node_points.
Qed.

Lemma new_ring_points nodes vn : points_of_owner (new_ring md5 nodes vn).
Proof.
  apply add_nodes_points. intros h n H. cbn [ring] in H.
  by rewrite lookup_empty in H.
Qed.

Lemma ring_after_points ops : ∀ ch,
  points_of_owner ch → points_of_owner (ring_after md5 ops ch).
Proof.
  induction ops as [|op ops IH]; intros ch Hinv; [done|].
  unfold ring_after. cbn [foldl]. apply IH.
  destruct op; [by apply add_node_points|by apply remove_node_points].
Qed.

(** X14. Whatever nodes were added to and removed from a ring since it
    was built, right after [remove_node(node)] no key is given to
    [node]. *)
Theorem removed_node_gets_no_key ops nodes vn node key :
  get_node md5 key
    (remove_node md5 node (ring_after md5 ops (new_ring md5 nodes vn)))
  ≠ Some node.
Proof.
  set (ch := ring_after md5 ops (new_ring md5 nodes vn)).
  assert (Hinv : points_of_owner ch)
    by apply ring_after_points, new_ring_points.
  intros Hget. apply get_node_in_ring in Hget as [k Hk].
  unfold remove_node in Hk. cbn [ring] in Hk.
  apply delete_points_lookup in Hk as [Hk Hnot].
  destruct (Hinv k node Hk) as (i & Hi & ->).
  apply (Hnot i); [|done]. apply elem_of_seq. lia.
Qed.

Lemma add_nodes_values nodes : ∀ ch h n,
  ring (foldl (λ ch node, add_node md5 node ch) ch nodes) !! h = Some n →
  n ∈ nodes ∨ ring ch !! h = Some n.
Proof.
  induction nodes as [|node nodes IH]; intros ch h n; cbn [foldl];
    [by right|].
  intros H. apply IH in H as [H|H]; [left; by right|].
  unfold add_node in H. cbn [ring] in H.
  apply insert_points_lookup in H as [(-> & _)|H]; [left; by left|by right].
Qed.

Lemma add_nodes_nonempty nodes : ∀ ch,
  ring ch ≠ ∅ →
  ring (foldl (λ ch node, add_node md5 node ch) ch nodes) ≠ ∅.
Proof.
  induction nodes as [|node nodes IH]; intros ch Hne; cbn [foldl]; [done|].
  apply IH. intros Hempty. apply Hne. apply map_empty. intros h.
  destruct (ring ch !! h) as [n|] eqn:Hh; [|done].
  exfalso. unfold add_node in Hempty. cbn [ring] in Hempty.
  destruct (decide (n = node)) as [->|Hn].
  - pose proof (insert_points_keep node (seq 0 (virtual_nodes ch))
                  (ring ch) h Hh) as Hk.
    by rewrite Hempty, lookup_empty in Hk.
  - assert (∀ (l : list nat) (r : gmap Z string), r !! h = Some n →
      is_Some (foldl (λ r i, <[_hash md5 (virtual_key node i) := node]> r)
                     r l !! h)) as Hkeep.
    { induction l as [|i l IHl]; intros r Hr; cbn [foldl]; [by eexists|].
      destruct (decide (_hash md5 (virtual_key node i) = h)) as [<-|Hne'].
      - eexists. apply insert_points_keep. by rewrite lookup_insert_eq.
      - apply IHl. by rewrite lookup_insert_ne. }
    destruct (Hkeep (seq 0 (virtual_nodes ch)) (ring ch) Hh) as [x Hx].
    by rewrite Hempty, lookup_empty in Hx.
Qed.

(** X15. A ring built from a non-empty list of nodes with at least one
    virtual node each gives every key to one of these nodes. *)
Theorem new_ring_assigns_member key nodes vn :
  (0 < vn)%nat → nodes ≠ [] →
  ∃ n, n ∈ nodes ∧ get_node md5 key (new_ring md5 nodes vn) = Some n.
Proof.
  intros Hvn Hnodes.
  assert (Hne : ring (new_ring md5 nodes vn) ≠ ∅).
  { destruct nodes as [|node nodes]; [done|].
    unfold new_ring. cbn [foldl]. apply add_nodes_nonempty.
    unfold add_node. cbn [ring virtual_nodes]. intros Hempty.
    pose proof (insert_points_own node (seq 0 vn) ∅ 0%nat) as Hown.
    rewrite Hempty, lookup_empty in Hown.
    assert (0%nat ∈ seq 0 vn) as Hin by (apply elem_of_seq; lia).
    by specialize (Hown Hin). }
  destruct (get_node_point key _ Hne) as (k & n & Hk & Hget & _).
  exists n. split; [|done].
  apply add_nodes_values in Hk as [Hk|Hk]; [done|].
  cbn [ring] in Hk. by rewrite lookup_empty in Hk.
Qed.

End Ring.

Lemma new_ring_assigns_member_witness :
  ∃ n, n ∈ ["n1"; "n2"]
       ∧ get_node QueueProofs.length_md5 "k"
           (new_ring QueueProofs.length_md5 ["n1"; "n2"] 3) = Some n.
Proof.
  apply (new_ring_assigns_member QueueProofs.length_md5 "k" ["n1"; "n2"] 3);
    [lia|discriminate].
Defined.

(** *** Delivery *)

Section Delivery.
Context {Data : Type}.
Implicit Types (st : QueueNode Data) (m : Message Data).

Lemma consume_loop_empty clock : ∀ start_time timeout p consumer_id st,
  default [] (partitions st !! p) = [] →
  consume_loop clock start_time timeout p consumer_id st = (None, st).
Proof.
  induction clock as [|now clock IH]; intros start_time timeout p c st Hp;
    cbn [consume_loop]; [done|].
  destruct (Py.Qltb (now - start_time) timeout); [|done].
  destruct (partitions st !! p) as [[|m rest]|] eqn:E;
    [apply IH; by rewrite E| |apply IH; by rewrite E].
  discriminate Hp.
Qed.

Lemma consume_loop_result clock : ∀ start_time timeout p consumer_id st,
  match consume_loop clock start_time timeout p consumer_id st with
  | (None, st') => st' = st
  | (Some m', st') =>
      ∃ m rest,
        partitions st !! p = Some (m :: rest)
        ∧ m' = with_attempts (attempts m + 1) m
        ∧ partitions st' = <[p := rest]> (partitions st)
        ∧ Dict.get (pending_acks st') (ack_key consumer_id (message_id m))
          = Some m'
        ∧ consumed (stats st') = consumed (stats st) + 1
  end.
Proof.
  induction clock as [|now clock IH]; intros start_time timeout p c st;
    cbn [consume_loop]; [done|].
  destruct (Py.Qltb (now - start_time) timeout); [|done].
  specialize (IH start_time timeout p c st).
  destruct (partitions st !! p) as [[|m rest]|] eqn:Hp;
    [exact IH| |exact IH].
  unfold deliver. exists m, rest.
  cbn [partitions pending_acks stats consumed with_attempts message_id].
  repeat split. apply get_set_eq.
Qed.

(** X16. [consume] gives back [None] only with the node unchanged, and
    always does so for a partition that is empty or unknown; a message
    it returns was the oldest of the partition, comes with its attempt
    count raised by one, is taken out of the partition and is recorded
    in [pending_acks] under the consumer's key. *)
Theorem consume_result p consumer_id timeout start_time clock st :
  (default [] (partitions st !! p) = [] →
   consume p consumer_id timeout start_time clock st = (None, st))
  ∧ match consume p consumer_id timeout start_time clock st with
    | (None, st') => st' = st
    | (Some m', st') =>
        ∃ m rest,
          partitions st !! p = Some (m :: rest)
          ∧ m' = with_attempts (attempts m + 1) m
          ∧ partitions st' = <[p := rest]> (partitions st)
          ∧ Dict.get (pending_acks st') (ack_key consumer_id (message_id m))
            = Some m'
          ∧ consumed (stats st') = consumed (stats st) + 1
    end.
Proof.
  split; [apply consume_loop_empty|apply consume_loop_result].
Qed.

Section Produce.
Variable md5 : string → Z.
Variable py_hash : option string → Z.
Variable QUEUE_PARTITIONS : Z.
Variable str_of_float : Q → string.


(** X18. With [QUEUE_PARTITIONS > 0], messages produced without a
    partition key go to the partitions in turn: the one after a key-less
    produce goes to the next partition, wrapping at
    [QUEUE_PARTITIONS]; an empty partition key counts as none. *)
Theorem keyless_produce_round_robin d now_id now_ts st :
  0 < QUEUE_PARTITIONS →
  let st' := (produce md5 py_hash QUEUE_PARTITIONS str_of_float
                      d None now_id now_ts st).2 in
  assigned_partition md5 py_hash QUEUE_PARTITIONS None st'
  = (assigned_partition md5 py_hash QUEUE_PARTITIONS None st + 1)
    mod QUEUE_PARTITIONS
  ∧ assigned_partition md5 py_hash QUEUE_PARTITIONS (Some EmptyString) st
    = assigned_partition md5 py_hash QUEUE_PARTITIONS None st.
Proof.
  intros HP st'. split; [|done].
  assert (Hcount : produced (stats st') = produced (stats st) + 1).
  { unfold st', produce. by destruct (redis_client st). }
  unfold assigned_partition, py_mod. rewrite Hcount.
  rewrite Z.add_mod_idemp_l by lia. done.
Qed.

(** *** Recovery *)

Definition to_recover (p : Z) m : Prop :=
  partition m = p ∧ delivered m = false.

Global Instance to_recover_dec p m : Decision (to_recover p m).
Proof. unfold to_recover. apply _. Defined.

Lemma recover_fold (store : gmap string (Message Data)) scan : ∀ st p,
  default [] (partitions (foldl (recover_one store) st scan) !! p)
  = default [] (partitions st !! p)
    ++ filter (to_recover p) (omap (store !!.) scan).
Proof.
  induction scan as [|key scan IH]; intros st p; cbn [foldl omap list_omap].
  { cbn. by rewrite app_nil_r. }
  rewrite IH. unfold recover_one.
  destruct (store !! key) as [message|] eqn:Hkey; [|done].
  destruct (delivered message) eqn:Hd.
  - rewrite filter_cons_False; [done|]. unfold to_recover. rewrite Hd.
    by intros [_ ?].
  - cbn [partitions].
    destruct (decide (partition message = p)) as [<-|Hne].
    + rewrite lookup_insert_eq. cbn [default from_option id].
      rewrite filter_cons_True by done. by rewrite <- app_assoc.
    + rewrite lookup_insert_ne by done.
      rewrite filter_cons_False; [done|]. by intros [? _].
Qed.

(** X19. After [_recover_messages], every partition holds what it held
    before followed by the stored messages of that partition that are
    not marked delivered, in the order the scan gave their keys; without
    a store nothing changes. *)
Theorem recover_messages_spec scan st p :
  default [] (partitions (_recover_messages scan st) !! p)
  = default [] (partitions st !! p)
    ++ match redis_client st with
       | Some store => filter (to_recover p) (omap (store !!.) scan)
       | None => []
       end.
Proof.
  unfold _recover_messages. destruct (redis_client st) as [store|].
  - apply recover_fold.
  - by rewrite app_nil_r.
Qed.


End Produce.

End Delivery.


Lemma keyless_produce_round_robin_witness :
  assigned_partition QueueProofs.length_md5 QueueProofs.length_hash 16 None
    QueueProofs.node_with_message
  = (assigned_partition QueueProofs.length_md5 QueueProofs.length_hash 16
       None QueueProofs.two_node_queue + 1) mod 16.
Proof.
  refine (proj1 (keyless_produce_round_robin
                   QueueProofs.length_md5 QueueProofs.length_hash 16
                   (λ _, "0.0") 7%nat 0%Q 0%Q
                   QueueProofs.two_node_queue _)); lia.
Defined.




End QueueOpsProofs.

(** ** More properties of the cache *)

Module CacheOpsProofs.
Import Cache CacheOps DictOpsProofs.

Section WithValue.
Context {Value : Type}.
Variable is_none : Value → bool.
Implicit Types (c : LRUCache Value) (st : CacheNode Value).
Implicit Types (d : list (string * CacheLine Value)).

(** *** The LRU cache *)

Lemma with_entry_eq k line c :
  with_entry k line c = Dict.del (cache c) k ++ [(k, line)].
Proof.
  unfold with_entry. rewrite del_mem.
  assert (Dict.get (Dict.del (cache c) k) k = None) as Habs
    by apply DictProofs.get_del_eq.
  unfold Dict.move_to_end. rewrite get_set_eq.
  by rewrite del_set_absent.
Qed.

Lemma evict_loop_drop fuel capacity : ∀ d,
  (length d ≤ fuel)%nat →
  (evict_loop fuel capacity d).2
  = drop (length d - Z.to_nat (capacity / 1024)) d.
Proof.
  induction fuel as [|fuel IH]; intros d Hlen.
  { destruct d; [done|simpl in Hlen; lia]. }
  cbn [evict_loop]. destruct d as [|item d]; [done|].
  replace (0 <? Py.len (item :: d)) with true
    by (symmetry; apply Z.ltb_lt; unfold Py.len; simpl; lia).
  cbn [andb _evict_lru].
  destruct (capacity <? _estimate_size (item :: d)) eqn:Hover.
  - apply Z.ltb_lt in Hover. unfold _estimate_size, Py.len in Hover.
    cbn [length] in *.
    assert (Hd : (length d ≤ fuel)%nat) by lia.
    specialize (IH d Hd).
    destruct (evict_loop fuel capacity d) as [evicted rest].
    cbn [snd] in *. rewrite IH.
    assert (capacity / 1024 < Z.of_nat (S (length d)))
      by (apply Z.div_lt_upper_bound; lia).
    by replace (S (length d) - Z.to_nat (capacity / 1024))%nat
      with (S (length d - Z.to_nat (capacity / 1024))) by lia.
  - apply Z.ltb_ge in Hover. unfold _estimate_size, Py.len in Hover.
    cbn [length snd] in *.
    assert (Z.of_nat (S (length d)) <= capacity / 1024)
      by (apply Z.div_le_lower_bound; lia).
    by replace (S (length d) - Z.to_nat (capacity / 1024))%nat
      with 0%nat by lia.
Qed.

Lemma put_cache_drop k line c :
  cache (put k line c)
  = drop (length (Dict.del (cache c) k ++ [(k, line)])
          - Z.to_nat (capacity_bytes c / 1024))
         (Dict.del (cache c) k ++ [(k, line)]).
Proof.
  unfold put. cbn [cache]. rewrite with_entry_eq.
  by apply evict_loop_drop.
Qed.

(** X21. After [put(key, line)] the cache holds the last
    [floor(capacity_bytes / 1024)] items of the old order with [key]
    taken out and the new line put last: the most recently used lines
    are kept, in their order, and exactly as many as the budget has
    room for. *)
Theorem put_keeps_most_recent k line c :
  let added := Dict.del (cache c) k ++ [(k, line)] in
  cache (put k line c)
  = drop (length added - Z.to_nat (capacity_bytes c / 1024)) added.
Proof. apply put_cache_drop. Qed.

Lemma put_room k line c :
  1024 <= capacity_bytes c →
  ∃ pre, cache (put k line c) = pre ++ [(k, line)] ∧ (k ∉ pre.*1)
         ∧ ∀ kv, kv ∈ pre → kv ∈ cache c.
Proof.
  intros Hcap. rewrite put_cache_drop.
  set (d' := Dict.del (cache c) k).
  assert (1 <= capacity_bytes c / 1024)
    by (apply Z.div_le_lower_bound; lia).
  rewrite length_app. cbn [length].
  set (n := (length d' + 1 - Z.to_nat (capacity_bytes c / 1024))%nat).
  assert (Hn : (n ≤ length d')%nat) by (unfold n; lia).
  rewrite drop_app_le by done. exists (drop n d'). split; [done|]. split.
  - intros Hin. apply list_elem_of_fmap in Hin as ([k' l'] & Hk & Hin).
    apply elem_of_drop_inv in Hin. cbn in Hk. subst k'. apply (del_key_absent (cache c) k).
    apply list_elem_of_fmap. by exists (k, l').
  - intros kv Hin%elem_of_drop_inv. by eapply del_elem.
Qed.

Lemma get_last pre k (line : CacheLine Value) :
  k ∉ pre.*1 → Dict.get (pre ++ [(k, line)]) k = Some line.
Proof.
  intros H. rewrite get_app_absent by done. cbn [Dict.get].
  by rewrite String.eqb_refl.
Qed.

(** X22. With room for at least one line, a line that was just put is
    the most recently used one and [get] finds it, counting one access;
    with room for none, [put] leaves the cache empty and the line is
    not found. *)
Theorem put_then_get k line c :
  (1024 <= capacity_bytes c →
   (get k (put k line c)).1
   = Some (mkCacheLine (key line) (value line) (state line)
             (timestamp line) (access_count line + 1) (dirty line))
   ∧ last (cache (put k line c)) = Some (k, line))
  ∧ (capacity_bytes c < 1024 →
     cache (put k line c) = [] ∧ (get k (put k line c)).1 = None).
Proof.
  split.
  - intros Hcap. destruct (put_room k line c Hcap) as (pre & Hput & Hk & _).
    unfold get. rewrite Hput, get_last by done. cbn [fst].
    split; [done|]. apply last_snoc.
  - intros Hcap.
    assert (Hempty : cache (put k line c) = []).
    { rewrite put_cache_drop.
      assert (capacity_bytes c / 1024 <= 0).
      { apply Z.lt_succ_r. apply Z.div_lt_upper_bound; lia. }
      replace (Z.to_nat (capacity_bytes c / 1024)) with 0%nat by lia.
      rewrite Nat.sub_0_r. apply drop_all. }
    split; [done|]. unfold get. by rewrite Hempty.
Qed.

(** *** The lines a node stores *)

(** A stored line: filed under its own key, not INVALID, and dirty
    exactly when MODIFIED. *)
Definition line_ok (kl : string * CacheLine Value) : Prop :=
  key kl.2 = kl.1 ∧ state kl.2 ≠ INVALID
  ∧ (dirty kl.2 = true ↔ state kl.2 = MODIFIED).

Definition lines_ok c : Prop := Forall line_ok (cache c).

Lemma del_ok d k : Forall line_ok d → Forall line_ok (Dict.del d k).
Proof.
  rewrite !Forall_forall. intros H kv Hin. by apply H, (del_elem d k).
Qed.

Lemma get_ok k c : lines_ok c → lines_ok (get k c).2.
Proof.
  unfold lines_ok, get. intros H.
  destruct (Dict.get (cache c) k) as [line|] eqn:Hget; [|done].
  cbn [snd cache]. apply Forall_app. split; [by apply del_ok|].
  apply Forall_cons. split; [|apply Forall_nil_2].
  rewrite Forall_forall in H.
  by apply (H (k, line)), DictProofs.get_Some_elem.
Qed.

Lemma put_ok k line c :
  line_ok (k, line) → lines_ok c → lines_ok (put k line c).
Proof.
  unfold lines_ok. intros Hline H. rewrite put_cache_drop.
  apply Forall_drop, Forall_app. split; [by apply del_ok|].
  apply Forall_cons. split; [done|apply Forall_nil_2].
Qed.

Lemma remove_ok k c : lines_ok c → lines_ok (remove k c).
Proof.
  unfold lines_ok, remove. intros H.
  destruct (Dict.mem (cache c) k); [|done]. by apply del_ok.
Qed.

Lemma submit_if_leader_lru command st :
  lru (submit_if_leader command st) = lru st.
Proof. unfold submit_if_leader. by destruct (is_leader st). Qed.

Lemma invalidate_others_lru k st : lru (_invalidate_others k st) = lru st.
Proof.
  unfold _invalidate_others. destruct (key_locations st !! k); [|done].
  destruct (bool_decide _); [done|]. apply submit_if_leader_lru.
Qed.

Lemma fresh_line_ok k (v : Value) s now :
  s ≠ INVALID → line_ok (k, new_CacheLine k v s now 0 (bool_decide (s = MODIFIED))).
Proof.
  intros Hs. unfold line_ok, new_CacheLine. cbn [fst snd key state dirty].
  split; [done|]. split; [done|].
  destruct (decide (s = MODIFIED)) as [->|Hne].
  - by rewrite bool_decide_eq_true_2.
  - rewrite !bool_decide_eq_false_2 by done. by split.
Qed.

Lemma read_ok k now st :
  lines_ok (lru st) → lines_ok (lru (read is_none k now st).2).
Proof.
  intros H. unfold read.
  pose proof (get_ok k (lru st) H) as Hc.
  destruct (get k (lru st)) as [found c]. cbn [snd] in Hc.
  assert (Hmiss :
    lines_ok (lru
      (let st2 :=
         set_stats (mkStats (hits (stats (set_lru c st)))
                      (misses (stats (set_lru c st)) + 1)
                      (invalidations (stats (set_lru c st)))
                      (writebacks (stats (set_lru c st)))
                      (evictions (stats (set_lru c st)))) (set_lru c st) in
       if is_leader st2 then
         match state_machine st2 !! k with
         | Some v =>
             if is_none v then (None, st2)
             else
               let s := if _check_sharers k st2 then SHARED else EXCLUSIVE in
               let new_line := new_CacheLine k v s now 0 false in
               let st3 := set_lru (put k new_line (lru st2)) st2 in
               (Some v, _register_location k st3)
         | None => (None, st2)
         end
       else (None, st2)).2)).
  { cbn zeta. cbn [is_leader set_stats set_lru state_machine lru].
    destruct (is_leader st); [|done].
    destruct (state_machine st !! k) as [v|]; [|done].
    destruct (is_none v); [done|].
    cbn [snd]. unfold _register_location. rewrite submit_if_leader_lru.
    cbn [lru set_lru]. apply put_ok; [|done].
    destruct (_check_sharers _ _).
    - by apply (fresh_line_ok k v SHARED now).
    - by apply (fresh_line_ok k v EXCLUSIVE now). }
  destruct found as [line|]; [|exact Hmiss].
  destruct (negb (bool_decide (state line = INVALID))); [done|exact Hmiss].
Qed.

Lemma write_ok k v now st :
  lines_ok (lru st) → lines_ok (lru (write k v now st).2).
Proof.
  intros H. unfold write. destruct (is_leader st); [|done].
  cbn [negb snd]. unfold _register_location.
  rewrite !submit_if_leader_lru. cbn [lru set_lru].
  apply put_ok.
  - by apply (fresh_line_ok k v MODIFIED now).
  - rewrite invalidate_others_lru. cbn [lru set_lru]. by apply get_ok.
Qed.

Lemma invalidate_ok k st :
  lines_ok (lru st) → lines_ok (lru (invalidate k st).2).
Proof.
  intros H. unfold invalidate.
  pose proof (get_ok k (lru st) H) as Hc.
  destruct (get k (lru st)) as [[line|] c]; [|done].
  cbn [snd] in *. cbn [lru set_stats set_lru]. apply remove_ok.
  destruct (bool_decide (state line = MODIFIED)); [|done].
  cbn [lru set_stats]. unfold _write_back.
  by rewrite submit_if_leader_lru.
Qed.

Lemma call_ok st (c : Call Value) :
  lines_ok (lru st) → lines_ok (lru (call is_none st c)).
Proof.
  intros H. destruct c as [k now|k v now|k|[k v n|k n|k n]]; cbn [call _apply_cache_operation].
  - by apply read_ok.
  - by apply write_ok.
  - by apply invalidate_ok.
  - done.
  - by apply invalidate_ok.
  - done.
Qed.

Lemma calls_ok cs : ∀ st,
  lines_ok (lru st) → lines_ok (lru (calls is_none cs st)).
Proof.
  induction cs as [|c cs IH]; intros st H; [done|].
  unfold calls. cbn [foldl]. by apply IH, call_ok.
Qed.

(** X23. Whatever a node that started with an empty cache has been
    asked to do since, a line found in its cache is filed under its own
    key, is not INVALID and is dirty exactly when it is MODIFIED; so a
    read of a key that is in the cache always hits and returns the
    line's value. *)
Theorem stored_lines_clean cs st0 k line now :
  cache (lru st0) = [] →
  Dict.get (cache (lru (calls is_none cs st0))) k = Some line →
  key line = k ∧ state line ≠ INVALID
  ∧ (dirty line = true ↔ state line = MODIFIED)
  ∧ (read is_none k now (calls is_none cs st0)).1 = Some (value line).
Proof.
  intros Hempty Hget.
  assert (Hok : lines_ok (lru (calls is_none cs st0))).
  { apply calls_ok. unfold lines_ok. rewrite Hempty. apply Forall_nil_2. }
  unfold lines_ok in Hok. rewrite Forall_forall in Hok.
  destruct (Hok (k, line) (DictProofs.get_Some_elem _ _ _ Hget))
    as (Hkey & Hstate & Hdirty).
  cbn [fst snd] in *. split; [done|]. split; [done|]. split; [done|].
  unfold read, get. rewrite Hget. cbn [state].
  by rewrite bool_decide_eq_false_2.
Qed.

(** X24. A node that is not the leader and starts with an empty cache
    never caches anything: whatever it is asked to do, its cache stays
    empty, it proposes no command, and every read returns nothing. *)
Theorem follower_caches_nothing cs st0 k now :
  is_leader st0 = false →
  cache (lru st0) = [] →
  cache (lru (calls is_none cs st0)) = []
  ∧ proposed (calls is_none cs st0) = proposed st0
  ∧ (read is_none k now (calls is_none cs st0)).1 = None.
Proof.
  intros Hfollower Hempty.
  assert (Hinv : ∀ cs st, is_leader st = false → cache (lru st) = [] →
    is_leader (calls is_none cs st) = false
    ∧ cache (lru (calls is_none cs st)) = []
    ∧ proposed (calls is_none cs st) = proposed st).
  { clear. induction cs as [|c cs IH]; intros st Hf He; [done|].
    change (calls is_none (c :: cs) st)
      with (calls is_none cs (call is_none st c)).
    assert (is_leader (call is_none st c) = false
            ∧ cache (lru (call is_none st c)) = []
            ∧ proposed (call is_none st c) = proposed st) as (Hf' & He' & Hp').
    { assert (Hinval : ∀ k, invalidate k st = (false, st)).
      { intros k. unfold invalidate, get. by rewrite He. }
      destruct c as [k now|k v now|k|[k v n|k n|k n]];
        cbn [call _apply_cache_operation].
      - unfold read, get. rewrite He. cbn. by rewrite Hf.
      - unfold write. by rewrite Hf.
      - by rewrite Hinval.
      - done.
      - by rewrite Hinval.
      - done. }
    destruct (IH (call is_none st c) Hf' He') as (? & ? & ?).
    split; [done|]. split; [done|]. congruence. }
  destruct (Hinv cs st0 Hfollower Hempty) as (Hf & He & Hp).
  split; [done|]. split; [done|].
  unfold read, get. rewrite He. cbn. by rewrite Hf.
Qed.

(** *** Reading and writing on the leader *)

Lemma check_sharers_invalidate k st :
  is_leader st = true →
  proposed (_invalidate_others k st)
  = proposed st
    ++ (if _check_sharers k st then [InvalidateCmd k (node_id st)] else []).
Proof.
  intros Hl. unfold _invalidate_others, _check_sharers.
  destruct (key_locations st !! k) as [nodes|]; [|by rewrite app_nil_r].
  destruct (decide (nodes ∖ {[node_id st]} = ∅)) as [He|Hne].
  - rewrite bool_decide_eq_true_2, bool_decide_eq_false_2 by tauto.
    by rewrite app_nil_r.
  - rewrite bool_decide_eq_false_2, bool_decide_eq_true_2 by done.
    unfold submit_if_leader. by rewrite Hl.
Qed.

(** X25. On the leader, with room for at least one line, a read of a
    key that is not cached but is in the state machine counts one miss.
    When the value stored there is not [None], the read returns it,
    caches it as a clean line (SHARED when another node is registered
    for the key, EXCLUSIVE otherwise) and proposes the registration of
    the key, and the next read of the key is a hit with the same value.
    When the value stored is [None], the read returns [None], caches
    nothing and proposes nothing, and the next read is a miss again. *)
Theorem read_miss_then_hit k v now later st :
  is_leader st = true →
  1024 <= capacity_bytes (lru st) →
  Dict.get (cache (lru st)) k = None →
  state_machine st !! k = Some v →
  let r1 := read is_none k now st in
  let r2 := read is_none k later r1.2 in
  misses (stats r1.2) = misses (stats st) + 1
  ∧ (is_none v = false →
     r1.1 = Some v
     ∧ last (cache (lru r1.2))
       = Some (k, mkCacheLine k v
                    (if _check_sharers k st then SHARED else EXCLUSIVE)
                    now 0 false)
     ∧ proposed r1.2 = proposed st ++ [RegisterCmd k (node_id st)]
     ∧ r2.1 = Some v
     ∧ hits (stats r2.2) = hits (stats st) + 1
     ∧ misses (stats r2.2) = misses (stats st) + 1)
  ∧ (is_none v = true →
     r1.1 = None
     ∧ lru r1.2 = lru st
     ∧ proposed r1.2 = proposed st
     ∧ r2.1 = None
     ∧ hits (stats r2.2) = hits (stats st)
     ∧ misses (stats r2.2) = misses (stats st) + 2).
Proof.
  intros Hl Hcap Hmiss Hmem r1 r2.
  destruct (is_none v) eqn:Hnone.
  - (* the value stored is None *)
    assert (H1 : r1 = (None,
                       mkCacheNode (node_id st) (lru st) (key_locations st)
                         (mkStats (hits (stats st)) (misses (stats st) + 1)
                            (invalidations (stats st))
                            (writebacks (stats st)) (evictions (stats st)))
                         true (state_machine st) (proposed st))).
    { unfold r1, read, get. rewrite Hmiss.
      cbn [set_lru set_stats is_leader state_machine stats hits misses
           invalidations writebacks evictions lru].
      rewrite Hl, Hmem, Hnone. unfold set_stats, set_lru.
      cbn [is_leader node_id lru key_locations stats state_machine proposed].
      by rewrite Hl. }
    unfold r2. rewrite H1. cbn [fst snd stats misses lru proposed].
    split; [done|]. split; [done|]. intros _.
    split; [done|]. split; [done|]. split; [done|].
    unfold read, get. cbn [lru]. rewrite Hmiss.
    cbn [set_lru set_stats is_leader state_machine stats hits misses
         invalidations writebacks evictions lru].
    rewrite Hmem, Hnone. cbn. repeat split. lia.
  - set (s := if _check_sharers k st then SHARED else EXCLUSIVE).
    set (line := mkCacheLine k v s now 0 false).
    assert (Hline : new_CacheLine k v s now 0 false = line).
    { unfold new_CacheLine, line, s. by destruct (_check_sharers k st). }
    destruct (put_room k line (lru st) Hcap) as (pre & Hput & Hk & _).
    assert (H1 : r1 = (Some v,
                       mkCacheNode (node_id st) (put k line (lru st))
                         (key_locations st)
                         (mkStats (hits (stats st)) (misses (stats st) + 1)
                            (invalidations (stats st))
                            (writebacks (stats st)) (evictions (stats st)))
                         true (state_machine st)
                         (proposed st ++ [RegisterCmd k (node_id st)]))).
    { unfold r1, read, get. rewrite Hmiss.
      cbn [set_lru set_stats is_leader state_machine stats hits misses
           invalidations writebacks evictions lru].
      rewrite Hl, Hmem, Hnone.
      change (_check_sharers k _) with (_check_sharers k st).
      fold s. cbn zeta. rewrite Hline.
      unfold _register_location, submit_if_leader, set_lru.
      cbn [is_leader node_id lru key_locations stats state_machine proposed].
      rewrite Hl. by destruct st. }
    unfold r2. rewrite H1. cbn [fst snd stats misses lru proposed].
    split; [done|]. split; [|done]. intros _.
    split; [done|]. split; [rewrite Hput; apply last_snoc|].
    split; [done|].
    unfold read, get. cbn [lru]. rewrite Hput, get_last by done.
    cbn [state line]. rewrite bool_decide_eq_false_2
      by (unfold line, s; cbn; by destruct (_check_sharers k st)).
    by cbn.
Qed.

(** X26. On the leader, with room for at least one line, [write]
    returns true and leaves the key as the most recently used line,
    MODIFIED and dirty; it proposes an invalidation first exactly when
    another node is registered for the key, then the write and the
    registration; the next read of the key is a hit with the value
    written. *)
Theorem write_then_read k v now later st :
  is_leader st = true →
  1024 <= capacity_bytes (lru st) →
  let r1 := write k v now st in
  let r2 := read is_none k later r1.2 in
  r1.1 = true
  ∧ last (cache (lru r1.2)) = Some (k, mkCacheLine k v MODIFIED now 0 true)
  ∧ proposed r1.2
    = proposed st
      ++ (if _check_sharers k st then [InvalidateCmd k (node_id st)] else [])
      ++ [WriteCmd k v (node_id st); RegisterCmd k (node_id st)]
  ∧ r2.1 = Some v
  ∧ hits (stats r2.2) = hits (stats st) + 1
  ∧ misses (stats r2.2) = misses (stats st).
Proof.
  intros Hl Hcap r1 r2.
  set (line := mkCacheLine k v MODIFIED now 0 true).
  set (st1 := set_lru (get k (lru st)).2 st).
  set (st2 := _invalidate_others k st1).
  assert (Hl1 : is_leader st1 = true) by done.
  assert (Hprop2 : proposed st2
                   = proposed st
                     ++ (if _check_sharers k st
                         then [InvalidateCmd k (node_id st)] else [])).
  { unfold st2. by rewrite check_sharers_invalidate. }
  assert (Hfacts : is_leader st2 = true ∧ node_id st2 = node_id st
                   ∧ stats st2 = stats st
                   ∧ capacity_bytes (lru st2) = capacity_bytes (lru st)).
  { unfold st2, _invalidate_others.
    assert (capacity_bytes (lru st1) = capacity_bytes (lru st)) as Hc.
    { unfold st1, get. cbn [lru set_lru].
      by destruct (Dict.get (cache (lru st)) k). }
    destruct (key_locations st1 !! k); [|done].
    destruct (bool_decide _); [done|].
    unfold submit_if_leader. by rewrite Hl1. }
  destruct Hfacts as (Hl2 & Hid2 & Hstats2 & Hcap2).
  assert (Hcap' : 1024 <= capacity_bytes (lru st2)) by lia.
  destruct (put_room k line (lru st2) Hcap') as (pre & Hput & Hk & _).
  assert (H1 : r1 = (true,
                     mkCacheNode (node_id st) (put k line (lru st2))
                       (key_locations st2) (stats st) true
                       (state_machine st2)
                       (proposed st2 ++ [WriteCmd k v (node_id st)]
                        ++ [RegisterCmd k (node_id st)]))).
  { unfold r1, write. rewrite Hl. cbn [negb]. fold st1. fold st2.
    change (new_CacheLine k v MODIFIED now 0 true) with line.
    unfold _register_location, submit_if_leader, set_lru.
    cbn [is_leader node_id lru key_locations stats state_machine proposed].
    rewrite Hl2. cbn [is_leader node_id lru key_locations stats
                      state_machine proposed].
    rewrite Hid2, Hstats2. by rewrite <- app_assoc. }
  unfold r2. rewrite H1. cbn [fst snd lru proposed].
  split; [done|]. split; [rewrite Hput; apply last_snoc|].
  split; [by rewrite Hprop2, <- app_assoc|].
  unfold read, get. cbn [lru]. rewrite Hput, get_last by done.
  by cbn.
Qed.

(** *** Statistics *)

Definition is_read (c : Call Value) : bool :=
  match c with Read _ _ => true | _ => false end.

Lemma submit_if_leader_stats command st :
  stats (submit_if_leader command st) = stats st.
Proof. unfold submit_if_leader. by destruct (is_leader st). Qed.

Lemma invalidate_others_stats k st :
  stats (_invalidate_others k st) = stats st.
Proof.
  unfold _invalidate_others. destruct (key_locations st !! k); [|done].
  destruct (bool_decide _); [done|]. apply submit_if_leader_stats.
Qed.

Lemma invalidate_accesses k st :
  total_accesses (invalidate k st).2 = total_accesses st.
Proof.
  unfold invalidate. destruct (get k (lru st)) as [[line|] c]; [|done].
  cbn [snd]. destruct (bool_decide (state line = MODIFIED)); [|done].
  unfold _write_back, submit_if_leader, total_accesses. cbn.
  by destruct (is_leader st).
Qed.

Lemma call_accesses st (c : Call Value) :
  total_accesses (call is_none st c)
  = total_accesses st + (if is_read c then 1 else 0).
Proof.
  destruct c as [k now|k v now|k|[k v n|k n|k n]];
    cbn [call _apply_cache_operation is_read].
  - unfold read, total_accesses. destruct (get k (lru st)) as [[line|] c].
    + destruct (negb (bool_decide (state line = INVALID))).
      * cbn. lia.
      * cbn zeta. cbn [is_leader set_stats set_lru state_machine].
        destruct (is_leader st); [|cbn; lia].
        destruct (state_machine st !! k) as [v|]; [|cbn; lia].
        destruct (is_none v); [cbn; lia|].
        cbn [snd]. unfold _register_location.
        rewrite submit_if_leader_stats. cbn. lia.
    + cbn zeta. cbn [is_leader set_stats set_lru state_machine].
      destruct (is_leader st); [|cbn; lia].
      destruct (state_machine st !! k) as [v|]; [|cbn; lia].
      destruct (is_none v); [cbn; lia|].
      cbn [snd]. unfold _register_location.
      rewrite submit_if_leader_stats. cbn. lia.
  - rewrite Z.add_0_r. unfold write, total_accesses.
    destruct (is_leader st); [|done].
    cbn [negb snd]. unfold _register_location.
    rewrite !submit_if_leader_stats. cbn [stats set_lru].
    by rewrite invalidate_others_stats.
  - rewrite Z.add_0_r. apply invalidate_accesses.
  - by rewrite Z.add_0_r.
  - rewrite Z.add_0_r. apply invalidate_accesses.
  - by rewrite Z.add_0_r.
Qed.

(** [total_accesses], the sum of hits and misses, grows by one
    with every read and with nothing else: after any calls it is what
    it was plus the number of reads among them. *)
Theorem total_accesses_counts_reads cs st :
  total_accesses (calls is_none cs st)
  = total_accesses st
    + Z.of_nat (length (filter (λ x, is_read x = true) cs)).
Proof.
  revert st. induction cs as [|c cs IH]; intros st.
  { cbn. lia. }
  unfold calls. cbn [foldl]. fold (calls is_none cs (call is_none st c)).
  rewrite IH, call_accesses.
  destruct (is_read c) eqn:Hr.
  - rewrite filter_cons_True by done. cbn [length]. lia.
  - rewrite filter_cons_False by (by rewrite Hr). lia.
Qed.

End WithValue.

Definition empty_follower : CacheNode nat :=
  mkCacheNode "n2" (new_LRUCache 1) ∅ (mkStats 0 0 0 0 0) false ∅ [].

(** The leader once the write of 5 under [a] is committed. *)
Definition leader_with_memory : CacheNode nat :=
  _apply_cache_operation (WriteCmd "a" 5%nat "n2") CacheProofs.empty_leader.

Lemma stored_lines_clean_witness :
  (read (λ _, false) "a" 1%Q
     (calls (λ _, false) [Write "a" 1%nat 0%Q] CacheProofs.empty_leader)).1
  = Some 1%nat.
Proof.
  refine (proj2 (proj2 (proj2
            (stored_lines_clean (λ _, false) [Write "a" 1%nat 0%Q]
               CacheProofs.empty_leader
               "a" (mkCacheLine "a" 1%nat MODIFIED 0%Q 0 true) 1%Q _ _))));
    reflexivity.
Defined.

Lemma follower_caches_nothing_witness :
  cache (lru (calls (λ _, false) [Write "a" 1%nat 0%Q; Read "a" 1%Q]
                    empty_follower)) = [].
Proof.
  refine (proj1 (follower_caches_nothing (λ _, false)
                   [Write "a" 1%nat 0%Q; Read "a" 1%Q] empty_follower
                   "a" 2%Q _ _)); reflexivity.
Defined.

Lemma read_miss_then_hit_witness :
  misses (stats (read (λ _, false) "a" 1%Q leader_with_memory).2)
  = misses (stats leader_with_memory) + 1.
Proof.
  refine (proj1 (read_miss_then_hit (λ _, false) "a" 5%nat 1%Q 2%Q
                   leader_with_memory _ _ _ _));
    [reflexivity|vm_compute; discriminate|reflexivity|reflexivity].
Defined.

(** The same leader when the state machine holds Python's [None]
    under [a] (the values being [option nat], [None] for [None]): the
    read returns nothing and the cache stays empty. *)
Definition leader_with_none : CacheNode (option nat) :=
  mkCacheNode "n1" (new_LRUCache 1) ∅ (mkStats 0 0 0 0 0) true
    {[ "a" := None ]} [].

Example read_of_stored_none :
  let r := read (λ v : option nat, bool_decide (v = None)) "a" 1%Q
                leader_with_none in
  r.1 = None ∧ cache (lru r.2) = [] ∧ proposed r.2 = [].
Proof. by vm_compute. Qed.

Lemma write_then_read_witness :
  (read (λ _, false) "a" 1%Q (write "a" 7%nat 0%Q CacheProofs.empty_leader).2).1
  = Some 7%nat.
Proof.
  refine (proj1 (proj2 (proj2 (proj2
            (write_then_read (λ _, false) "a" 7%nat 0%Q 1%Q
               CacheProofs.empty_leader
               _ _))))); [reflexivity|vm_compute; discriminate].
Defined.

End CacheOpsProofs.

(** ** More properties of the failure detector *)

Module FailureOpsProofs.
Import Failure FailureOps.

#[local] Set Warnings "-clear-no-such-hyp".

(** *** The window of intervals *)

(** The gaps between consecutive readings. *)
Fixpoint intervals (ts : list Q) : list Q :=
  match ts with
  | t0 :: (t1 :: _) as rest => (t1 - t0)%Q :: intervals rest
  | _ => []
  end.

Lemma intervals_snoc ts t :
  intervals (ts ++ [t])
  = intervals ts ++ match last ts with
                    | Some l => [(t - l)%Q]
                    | None => []
                    end.
Proof.
  induction ts as [|t0 ts IH]; [done|].
  destruct ts as [|t1 ts]; [done|].
  change (intervals ((t0 :: t1 :: ts) ++ [t]))
    with ((t1 - t0)%Q :: intervals ((t1 :: ts) ++ [t])).
  rewrite IH. done.
Qed.

Lemma deque_append_window (w : nat) (l : list Q) (x : Q) :
  deque_append w (drop (length l - w) l) x
  = drop (length (l ++ [x]) - w) (l ++ [x]).
Proof.
  unfold deque_append. rewrite !length_app, length_drop. cbn [length].
  destruct (decide (length l ≤ w)%nat) as [Hle|Hgt].
  - replace (length l - w)%nat with 0%nat by lia. rewrite drop_0.
    by replace (length l - 0 + 1 - w)%nat with (length l + 1 - w)%nat by lia.
  - replace (length l - (length l - w) + 1 - w)%nat with 1%nat by lia.
    replace (length l + 1 - w)%nat with (length l - w + 1)%nat by lia.
    rewrite <- drop_drop. f_equal. rewrite drop_app_le by lia. done.
Qed.

Lemma heartbeats_snoc arrivals a fd :
  heartbeats (arrivals ++ [a]) fd = heartbeat a.1 a.2 (heartbeats arrivals fd).
Proof. unfold heartbeats. by rewrite foldl_app. Qed.

Lemma heartbeats_window_size arrivals : ∀ fd,
  window_size (heartbeats arrivals fd) = window_size fd.
Proof.
  induction arrivals as [|a arrivals IH]; intros fd; [done|].
  unfold heartbeats. cbn [foldl]. fold (heartbeats arrivals (heartbeat a.1 a.2 fd)).
  by rewrite IH.
Qed.

Lemma heartbeats_of_node arrivals node fd :
  last_heartbeat fd !! node = None →
  heartbeat_history fd !! node = None →
  let ts := (filter (λ a, a.1 = node) arrivals).*2 in
  last_heartbeat (heartbeats arrivals fd) !! node = last ts
  ∧ default [] (heartbeat_history (heartbeats arrivals fd) !! node)
    = drop (length (intervals ts) - window_size fd) (intervals ts).
Proof.
  intros Hlast Hhist. induction arrivals as [|a arrivals IH] using rev_ind.
  { cbn. by rewrite Hlast, Hhist. }
  cbn zeta in *. destruct IH as [IHlast IHhist].
  rewrite heartbeats_snoc, filter_app, fmap_app.
  set (fd' := heartbeats arrivals fd) in *.
  set (ts := (filter (λ a, a.1 = node) arrivals).*2) in *.
  assert (Hw : window_size fd' = window_size fd)
    by apply heartbeats_window_size.
  destruct (decide (a.1 = node)) as [Ha|Ha].
  - rewrite filter_cons_True, filter_nil by done.
    cbn [fmap list_fmap]. rewrite last_snoc, intervals_snoc.
    unfold heartbeat. cbn [last_heartbeat heartbeat_history].
    rewrite Ha, !lookup_insert_eq. split; [done|].
    cbn [default from_option id]. rewrite IHlast, IHhist, Hw.
    destruct (last ts) as [l|] eqn:Hl.
    + rewrite deque_append_window. done.
    + by rewrite app_nil_r.
  - rewrite filter_cons_False, filter_nil by done.
    cbn [fmap list_fmap]. rewrite app_nil_r.
    unfold heartbeat. cbn [last_heartbeat heartbeat_history].
    by rewrite !lookup_insert_ne.
Qed.

(** X27. For a node the detector did not know, after any heartbeats
    (of this node and of others) the detector holds the clock reading of
    the node's last heartbeat and, as its history, the gaps between the
    node's consecutive heartbeats, the last [window_size] of them in
    order; so a history never has more than [window_size] entries. *)
Theorem heartbeat_history_window arrivals node fd :
  last_heartbeat fd !! node = None →
  heartbeat_history fd !! node = None →
  let ts := (filter (λ a, a.1 = node) arrivals).*2 in
  let fd' := heartbeats arrivals fd in
  last_heartbeat fd' !! node = last ts
  ∧ default [] (heartbeat_history fd' !! node)
    = drop (length (intervals ts) - window_size fd) (intervals ts)
  ∧ (length (default [] (heartbeat_history fd' !! node))
     ≤ window_size fd)%nat.
Proof.
  intros Hlast Hhist ts fd'.
  destruct (heartbeats_of_node arrivals node fd Hlast Hhist) as [H1 H2].
  split; [done|]. split; [done|].
  unfold fd'. rewrite H2, length_drop. lia.
Qed.

Lemma heartbeat_history_window_witness :
  default [] (heartbeat_history
                (heartbeats [("a", 1%Q); ("b", 2%Q); ("a", 4%Q); ("a", 9%Q)]
                   (mkFailureDetector 8 1 (1 # 2) ∅ ∅ ∅)) !! "a")
  = [(9 - 4)%Q].
Proof.
  refine (proj1 (proj2 (heartbeat_history_window
                   [("a", 1%Q); ("b", 2%Q); ("a", 4%Q); ("a", 9%Q)] "a"
                   (mkFailureDetector 8 1 (1 # 2) ∅ ∅ ∅) _ _)));
    reflexivity.
Defined.

(** *** Suspicion *)

Section WithMath.
Variable sqrt : Q → Q.
Variable exp : Q → Q.
Variable log10 : Q → option Q.

Lemma is_available_frame node now fd available fd' :
  is_available sqrt exp log10 node now fd = Some (available, fd') →
  heartbeat_history fd' = heartbeat_history fd
  ∧ last_heartbeat fd' = last_heartbeat fd
  ∧ threshold fd' = threshold fd
  ∧ suspected_nodes fd'
    = (if available then suspected_nodes fd
       else suspected_nodes fd ∪ {[node]}).
Proof.
  unfold is_available.
  destruct (phi sqrt exp log10 node now fd) as [phi_value|]; [|done].
  cbn. intros [= <- <-].
  destruct (Float_ltb phi_value (threshold fd)); cbn [negb andb]; [done|].
  destruct (decide (node ∈ suspected_nodes fd)) as [Hin|Hnin].
  - rewrite bool_decide_eq_true_2 by done. cbn [negb].
    repeat split. set_solver.
  - by rewrite bool_decide_eq_false_2.
Qed.

Lemma is_available_unknown node now fd :
  last_heartbeat fd !! node = None →
  ∃ fd', is_available sqrt exp log10 node now fd = Some (false, fd')
         ∧ suspected_nodes fd' = suspected_nodes fd ∪ {[node]}
         ∧ last_heartbeat fd' = last_heartbeat fd.
Proof.
  intros Hlast. unfold is_available, phi. rewrite Hlast. cbn.
  eexists. split; [done|].
  destruct (decide (node ∈ suspected_nodes fd)) as [Hin|Hnin].
  - rewrite bool_decide_eq_true_2 by done. cbn [negb].
    split; [set_solver|done].
  - by rewrite bool_decide_eq_false_2.
Qed.

(** X28. [is_available] answers false for a node that never sent a
    heartbeat and puts it among the suspected nodes.  Whenever it
    answers, it changes nothing but the suspected set, to which it adds
    the node exactly when the answer is false; it never takes a node out:
    a suspected node stays suspected, also when it is found available
    again, until [heartbeat] removes it. *)
Theorem is_available_suspects node now fd :
  (last_heartbeat fd !! node = None →
   ∃ fd', is_available sqrt exp log10 node now fd = Some (false, fd')
          ∧ suspected_nodes fd' = suspected_nodes fd ∪ {[node]})
  ∧ (∀ available fd',
       is_available sqrt exp log10 node now fd = Some (available, fd') →
       heartbeat_history fd' = heartbeat_history fd
       ∧ last_heartbeat fd' = last_heartbeat fd
       ∧ suspected_nodes fd ⊆ suspected_nodes fd'
       ∧ (available = false → node ∈ suspected_nodes fd')
       ∧ (available = true → suspected_nodes fd' = suspected_nodes fd))
  ∧ node ∉ suspected_nodes (heartbeat node now fd).
Proof.
  split; [|split].
  - intros Hlast.
    destruct (is_available_unknown node now fd Hlast) as (fd' & ? & ? & _).
    by exists fd'.
  - intros available fd' H.
    apply is_available_frame in H as (Hh & Hl & _ & Hs).
    split; [done|]. split; [done|]. rewrite Hs.
    destruct available; repeat split; try done; set_solver.
  - unfold heartbeat. cbn [suspected_nodes]. set_solver.
Qed.

(** X29. [reset(node)] forgets the node: afterwards its phi is
    infinite, as for a node never heard of, and it is not suspected;
    what the detector holds about other nodes is untouched; and on a
    node the detector did not know, a heartbeat followed by a reset
    gives back the detector as it was. *)
Theorem reset_forgets node now fd :
  phi sqrt exp log10 node now (reset node fd) = Some Infinity
  ∧ (node ∉ suspected_nodes (reset node fd))
  ∧ (∀ n, n ≠ node →
       heartbeat_history (reset node fd) !! n = heartbeat_history fd !! n
       ∧ last_heartbeat (reset node fd) !! n = last_heartbeat fd !! n
       ∧ (n ∈ suspected_nodes (reset node fd) ↔ n ∈ suspected_nodes fd))
  ∧ (last_heartbeat fd !! node = None →
     heartbeat_history fd !! node = None →
     node ∉ suspected_nodes fd →
     reset node (heartbeat node now fd) = fd).
Proof.
  split; [|split; [|split]].
  - unfold phi, reset. cbn [last_heartbeat]. by rewrite lookup_delete_eq.
  - unfold reset. cbn [suspected_nodes]. set_solver.
  - intros n Hn. unfold reset.
    cbn [heartbeat_history last_heartbeat suspected_nodes].
    rewrite !lookup_delete_ne by done. repeat split; set_solver.
  - intros Hlast Hhist Hsus. unfold reset, heartbeat.
    cbn [heartbeat_history last_heartbeat suspected_nodes threshold
         window_size min_std_dev].
    rewrite !delete_insert_id by done.
    replace (suspected_nodes fd ∖ {[node]} ∖ {[node]})
      with (suspected_nodes fd) by set_solver.
    by destruct fd.
Qed.

Lemma get_available_nodes_frame node_ids : ∀ fd nodes fd',
  get_available_nodes sqrt exp log10 node_ids fd = Some (nodes, fd') →
  last_heartbeat fd' = last_heartbeat fd
  ∧ nodes `sublist_of` node_ids.*1
  ∧ suspected_nodes fd ⊆ suspected_nodes fd'
  ∧ (∀ id, id ∈ node_ids.*1 → id ∈ nodes ∨ id ∈ suspected_nodes fd')
  ∧ (∀ id, id ∈ suspected_nodes fd' →
           id ∈ suspected_nodes fd ∨ id ∈ node_ids.*1).
Proof.
  induction node_ids as [|[node_id now] rest IH]; intros fd nodes fd';
    cbn [get_available_nodes].
  { intros [= <- <-]. repeat split; try done.
    - intros id Hid. by apply elem_of_nil in Hid.
    - intros id Hid. by left. }
  destruct (is_available sqrt exp log10 node_id now fd)
    as [[available fd1]|] eqn:Hav; [|done].
  destruct (get_available_nodes sqrt exp log10 rest fd1)
    as [[nodes1 fd2]|] eqn:Hrest; [|done].
  intros [= <- <-].
  apply is_available_frame in Hav as (_ & Hl1 & _ & Hs1).
  destruct (IH fd1 nodes1 fd2 Hrest) as (Hl2 & Hsub & Hmono & Hcover & Hback).
  cbn [fmap list_fmap fst].
  split; [congruence|]. split; [|split; [|split]].
  - destruct available; [by apply sublist_skip|by apply sublist_cons].
  - destruct available; rewrite Hs1 in Hmono; set_solver.
  - intros id [->|Hid]%elem_of_cons.
    + destruct available; [left; by left|].
      right. apply Hmono. rewrite Hs1. set_solver.
    + destruct (Hcover id Hid) as [Hin|Hin]; [|by right].
      left. destruct available; [by right|done].
  - intros id Hid. destruct (Hback id Hid) as [Hin|Hin].
    + rewrite Hs1 in Hin. destruct available; [by left|].
      apply elem_of_union in Hin as [Hin|Hin%elem_of_singleton];
        [by left|].
      right. subst. by left.
    + right. by right.
Qed.

(** X30. When [get_available_nodes] answers, it returns the asked
    nodes found available, in the order asked; every asked node is
    either returned or suspected afterwards, no node that was suspected
    is cleared, and only asked nodes are added to the suspected ones.
    Asked about nodes that never sent a heartbeat, it answers with the
    empty list and suspects them all. *)
Theorem get_available_nodes_covers node_ids fd :
  (∀ nodes fd',
     get_available_nodes sqrt exp log10 node_ids fd = Some (nodes, fd') →
     nodes `sublist_of` node_ids.*1
     ∧ suspected_nodes fd ⊆ suspected_nodes fd'
     ∧ (∀ id, id ∈ node_ids.*1 → id ∈ nodes ∨ id ∈ suspected_nodes fd')
     ∧ (∀ id, id ∈ suspected_nodes fd' →
              id ∈ suspected_nodes fd ∨ id ∈ node_ids.*1))
  ∧ (Forall (λ a, last_heartbeat fd !! a.1 = None) node_ids →
     ∃ fd', get_available_nodes sqrt exp log10 node_ids fd = Some ([], fd')
            ∧ suspected_nodes fd'
              = suspected_nodes fd ∪ list_to_set node_ids.*1).
Proof.
  split.
  - intros nodes fd' H.
    apply get_available_nodes_frame in H as (_ & Hsub & Hmono & Hcover & Hback).
    by repeat split.
  - revert fd. induction node_ids as [|[node_id now] rest IH]; intros fd Hall.
    { exists fd. split; [done|]. cbn. set_solver. }
    apply Forall_cons in Hall as [Hnode Hrest]. cbn [fst] in Hnode.
    destruct (is_available_unknown node_id now fd Hnode)
      as (fd1 & Hav & Hs1 & Hl1).
    destruct (IH fd1) as (fd2 & Hget & Hs2).
    { rewrite Hl1. exact Hrest. }
    exists fd2. cbn [get_available_nodes]. rewrite Hav, Hget.
    split; [done|]. rewrite Hs2, Hs1. cbn [fmap list_fmap fst list_to_set].
    set_solver.
Qed.

End WithMath.

End FailureOpsProofs.

(** ** Deadlock detection finds the cycles *)

Module DeadlockProofs.
Import Deadlock.

#[local] Set Warnings "-clear-no-such-hyp".

Section WithGraph.
Variable graph : Graph.

(** [a] waits for [b]. *)
Definition edge (a b : string) : Prop :=
  ∃ l, Dict.get graph a = Some l ∧ b ∈ l.

(** Every client of the list waits for the next one. *)
Definition chain (l : list string) : Prop :=
  ∀ i a b, l !! i = Some a → l !! S i = Some b → edge a b.

(** A chain whose last client waits for the first. *)
Definition is_cycle (cyc : list string) : Prop :=
  ∃ a b, head cyc = Some b ∧ last cyc = Some a ∧ chain cyc ∧ edge a b.

(** No chain of waits that starts at [u] goes on for ever. *)
Definition settled (u : string) : Prop := Acc (λ v u, edge u v) u.

Lemma edge_nodes a b : edge a b → a ∈ nodes graph ∧ b ∈ nodes graph.
Proof.
  intros (l & Hget & Hb). apply DictProofs.get_Some_elem in Hget.
  unfold nodes. rewrite !elem_of_list_to_set, !elem_of_app. split.
  - left. apply list_elem_of_fmap. by exists (a, l).
  - right. apply list_elem_of_In, in_concat. exists l.
    split; [|by apply list_elem_of_In].
    apply list_elem_of_In, list_elem_of_fmap. by exists (a, l).
Qed.

Lemma index_Some x l : x ∈ l → ∃ i, index x l = Some i ∧ l !! i = Some x.
Proof.
  induction l as [|y l IH]; [by intros ?%elem_of_nil|].
  intros Hin. cbn [index]. destruct (String.eqb x y) eqn:E.
  - apply String.eqb_eq in E as ->. by exists 0%nat.
  - apply String.eqb_neq in E.
    apply elem_of_cons in Hin as [?|Hin]; [done|].
    destruct (IH Hin) as (i & -> & Hi). by exists (S i).
Qed.

Lemma chain_drop i l : chain l → chain (drop i l).
Proof.
  intros H j a b. rewrite !lookup_drop.
  replace (i + S j)%nat with (S (i + j)) by lia. apply H.
Qed.

Lemma chain_snoc l x :
  chain l → (l = [] ∨ ∃ a, last l = Some a ∧ edge a x) → chain (l ++ [x]).
Proof.
  intros Hl Hlast i a b Ha Hb.
  destruct (decide (S i < length l)%nat) as [Hlt|Hge].
  - rewrite lookup_app_l in Ha by lia. rewrite lookup_app_l in Hb by lia.
    by apply (Hl i).
  - assert (S i = length l) as Hi.
    { apply lookup_lt_Some in Hb. rewrite length_app in Hb.
      cbn [length] in Hb. lia. }
    destruct Hlast as [->|(a' & Hlast & Hedge)]; [done|].
    rewrite last_lookup in Hlast. rewrite <- Hi in Hlast. cbn [pred] in Hlast.
    rewrite lookup_app_l in Ha by lia.
    rewrite lookup_app_r in Hb by lia.
    rewrite Hi, Nat.sub_diag in Hb. cbn in Hb.
    congruence.
Qed.

Lemma chain_cons_inv u l : chain (u :: l) → chain l.
Proof. intros H i a b Ha Hb. by apply (H (S i)). Qed.

Lemma last_drop (l : list string) i :
  (i < length l)%nat → last (drop i l) = last l.
Proof.
  intros Hi. rewrite !last_lookup, lookup_drop, length_drop. f_equal. lia.
Qed.

Lemma head_drop (l : list string) i : head (drop i l) = l !! i.
Proof. rewrite head_lookup, lookup_drop. f_equal. lia. Qed.

(** A client on a cycle is not settled. *)
Lemma settled_no_cycle u :
  settled u →
  ∀ l, chain (u :: l) → (∃ a, last (u :: l) = Some a ∧ edge a u) → False.
Proof.
  induction 1 as [u _ IH]. intros l Hchain (a & Hlast & Hedge).
  destruct l as [|v l].
  - cbn in Hlast. injection Hlast as <-.
    apply (IH u Hedge []); [done|]. by exists u.
  - assert (edge u v) as Huv by (by apply (Hchain 0%nat)).
    apply (IH v Huv (l ++ [u])).
    + change (v :: l ++ [u]) with ((v :: l) ++ [u]). apply chain_snoc.
      * by apply chain_cons_inv in Hchain.
      * right. exists a. split; [|done].
        by rewrite <- Hlast.
    + exists u. split; [|done].
      change (v :: l ++ [u]) with ((v :: l) ++ [u]). apply last_snoc.
Qed.

Lemma cycle_not_settled cyc :
  is_cycle cyc → ∃ u, u ∈ cyc ∧ ¬ settled u.
Proof.
  intros (a & b & Hhead & Hlast & Hchain & Hedge).
  destruct cyc as [|u l]; [done|]. cbn in Hhead. injection Hhead as <-.
  exists u. split; [by left|]. intros Hs.
  apply (settled_no_cycle u Hs l Hchain). by exists a.
Qed.

Lemma truthy_cycle cyc : is_cycle cyc → truthy (Some cyc) = true.
Proof. intros (a & b & Hhead & _). by destruct cyc. Qed.

(** What holds of the shared state whenever [dfs] is entered or left
    without a cycle: the clients on [path] are those of [rec_stack],
    each waits for the next, and every client that was visited and is
    no longer on the stack is settled. *)
Definition Inv (w : Walk) : Prop :=
  list_to_set (path w) = rec_stack w
  ∧ rec_stack w ⊆ visited w
  ∧ visited w ⊆ nodes graph
  ∧ chain (path w)
  ∧ ∀ u, u ∈ visited w → u ∉ rec_stack w → settled u.

(** What a call of [dfs] does when [n] nested calls are allowed: it
    ends with RecursionError only if [n] clients or more are still
    unvisited. *)
Definition dfs_spec (f : string → Walk → outcome) (n : nat) : Prop :=
  ∀ node w,
    Inv w → node ∈ nodes graph → node ∉ visited w →
    (path w = [] ∨ ∃ a, last (path w) = Some a ∧ edge a node) →
    match f node w with
    | Done None w' =>
        Inv w' ∧ path w' = path w ∧ rec_stack w' = rec_stack w
        ∧ visited w ⊆ visited w' ∧ node ∈ visited w'
    | Done (Some cyc) _ => is_cycle cyc
    | Raises => False
    | RecursionError => (n ≤ size (nodes graph ∖ visited w))%nat
    end.

Lemma neighbors_loop_spec f n node path0 (stack0 visited1 : gset string) :
  dfs_spec f n →
  ∀ neighbors w,
    Inv w → path w = path0 ++ [node] → rec_stack w = stack0 ∪ {[node]} →
    visited1 ⊆ visited w →
    (∀ nb, nb ∈ neighbors → edge node nb) →
    match neighbors_loop f neighbors w with
    | Done None w' =>
        Inv w' ∧ path w' = path0 ++ [node]
        ∧ rec_stack w' = stack0 ∪ {[node]}
        ∧ visited w ⊆ visited w'
        ∧ ∀ nb, nb ∈ neighbors → nb ∈ visited w' ∧ nb ∉ rec_stack w'
    | Done (Some cyc) _ => is_cycle cyc
    | Raises => False
    | RecursionError => (n ≤ size (nodes graph ∖ visited1))%nat
    end.
Proof.
  intros Hf. induction neighbors as [|nb rest IH];
    intros w HInv Hpath Hstack Hvis Hedges; cbn [neighbors_loop].
  { split; [done|]. split; [done|]. split; [done|]. split; [done|].
    intros nb Hnb. by apply elem_of_nil in Hnb. }
  assert (Hnb : edge node nb) by (apply Hedges; by left).
  assert (Hrest : ∀ nb', nb' ∈ rest → edge node nb')
    by (intros nb' H; apply Hedges; by right).
  destruct (decide (nb ∉ visited w)) as [Hfresh|Hseen].
  - rewrite bool_decide_eq_true_2 by done.
    assert (Hcall : match f nb w with
                    | Done None w' =>
                        Inv w' ∧ path w' = path w ∧ rec_stack w' = rec_stack w
                        ∧ visited w ⊆ visited w' ∧ nb ∈ visited w'
                    | Done (Some cyc) _ => is_cycle cyc
                    | Raises => False
                    | RecursionError =>
                        (n ≤ size (nodes graph ∖ visited w))%nat
                    end).
    { apply Hf; [done|by apply (edge_nodes node nb)|done|].
      right. exists node. split; [|done]. rewrite Hpath. apply last_snoc. }
    destruct (f nb w) as [[cyc|] w'| |];
      [|cbn [truthy]|destruct Hcall|].
    + by rewrite (truthy_cycle cyc Hcall).
    + destruct Hcall as (HInv' & Hpath' & Hstack' & Hvis' & Hnb').
      assert (H1 : path w' = path0 ++ [node]) by congruence.
      assert (H2 : rec_stack w' = stack0 ∪ {[node]}) by congruence.
      assert (H3 : visited1 ⊆ visited w') by (clear -Hvis Hvis'; set_solver).
      specialize (IH w' HInv' H1 H2 H3 Hrest).
      destruct (neighbors_loop f rest w') as [[cyc|] w''| |];
        [exact IH| |destruct IH|exact IH].
      destruct IH as (HInv'' & Hpath'' & Hstack'' & Hvis'' & Hall).
      split; [done|]. split; [done|]. split; [done|].
      split; [clear -Hvis' Hvis''; set_solver|].
      intros nb' [->|Hin]%elem_of_cons; [|by apply Hall].
      split; [clear -Hnb' Hvis''; set_solver|]. rewrite Hstack'', <- Hstack.
      destruct HInv as (_ & Hsub & _). clear -Hsub Hfresh. set_solver.
    + eapply Nat.le_trans; [exact Hcall|].
      apply subseteq_size. clear -Hvis. set_solver.
  - rewrite bool_decide_eq_false_2 by done.
    apply dec_stable in Hseen.
    destruct (decide (nb ∈ rec_stack w)) as [Hon|Hoff].
    + rewrite bool_decide_eq_true_2 by done.
      destruct HInv as (Hset & _ & _ & Hchain & _).
      assert (nb ∈ path w) as Hin
        by (apply (elem_of_list_to_set (C:=gset string)); by rewrite Hset).
      destruct (index_Some nb (path w) Hin) as (i & -> & Hi).
      exists node, nb. split; [by rewrite head_drop|].
      split; [|split; [by apply chain_drop|done]].
      rewrite last_drop by (by eapply lookup_lt_Some).
      rewrite Hpath. apply last_snoc.
    + rewrite bool_decide_eq_false_2 by done.
      specialize (IH w HInv Hpath Hstack Hvis Hrest).
      destruct (neighbors_loop f rest w) as [[cyc|] w'| |];
        [exact IH| |destruct IH|exact IH].
      destruct IH as (HInv' & Hpath' & Hstack' & Hvis' & Hall).
      split; [done|]. split; [done|]. split; [done|]. split; [done|].
      intros nb' [->|Hin]%elem_of_cons; [|by apply Hall].
      split; [clear -Hseen Hvis'; set_solver|].
      by rewrite Hstack', <- Hstack.
Qed.

Lemma dfs_correct depth : dfs_spec (dfs graph depth) depth.
Proof.
  induction depth as [|depth IH]; intros node w HInv Hnode Hfresh Hlast.
  { cbn [dfs]. lia. }
  cbn [dfs].
  set (w1 := mkWalk (visited w ∪ {[node]}) (rec_stack w ∪ {[node]})
                    (path w ++ [node])).
  destruct HInv as (Hset & Hsub & Huniv & Hchain & Hsettled).
  assert (Hoff : node ∉ rec_stack w) by (clear -Hsub Hfresh; set_solver).
  assert (HInv1 : Inv w1).
  { unfold Inv, w1. cbn [path rec_stack visited].
    split; [|split; [|split; [|split]]].
    - by rewrite list_to_set_snoc_L, Hset.
    - clear -Hsub. set_solver.
    - clear -Huniv Hnode. set_solver.
    - by apply chain_snoc.
    - intros u Hu Hnot.
      apply Hsettled; [clear -Hu Hnot|clear -Hnot]; set_solver. }
  assert (Hsize1 : (size (nodes graph ∖ visited w1)
                    < size (nodes graph ∖ visited w))%nat).
  { apply subset_size. unfold w1. cbn [visited]. split; [clear; set_solver|].
    intros Hback. specialize (Hback node).
    clear -Hback Hnode Hfresh. set_solver. }
  assert (Hfinish : ∀ w2,
    Inv w2 → path w2 = path w ++ [node] →
    rec_stack w2 = rec_stack w ∪ {[node]} →
    visited w1 ⊆ visited w2 →
    (∀ v, edge node v → v ∈ visited w2 ∧ v ∉ rec_stack w2) →
    match
      match path w2 with
      | [] => Raises
      | _ :: _ =>
          if bool_decide (node ∈ rec_stack w2) then
            Done None (mkWalk (visited w2) (rec_stack w2 ∖ {[node]})
                              (removelast (path w2)))
          else Raises
      end
    with
    | Done None w' =>
        Inv w' ∧ path w' = path w ∧ rec_stack w' = rec_stack w
        ∧ visited w ⊆ visited w' ∧ node ∈ visited w'
    | Done (Some cyc) _ => is_cycle cyc
    | Raises => False
    | RecursionError => (S depth ≤ size (nodes graph ∖ visited w))%nat
    end).
  { intros w2 (Hset2 & Hsub2 & Huniv2 & Hchain2 & Hsettled2)
           Hpath2 Hstack2 Hvis2 Hsucc.
    unfold w1 in Hvis2. cbn [visited] in Hvis2.
    rewrite Hpath2. destruct (path w ++ [node]) as [|x l] eqn:Happ.
    { by destruct (path w). }
    rewrite <- Happ.
    rewrite bool_decide_eq_true_2 by (rewrite Hstack2; clear; set_solver).
    rewrite removelast_last.
    assert (Hstack' : rec_stack w2 ∖ {[node]} = rec_stack w)
      by (rewrite Hstack2; clear -Hoff; set_solver).
    rewrite Hstack'.
    split; [|split; [reflexivity|split; [reflexivity|split]]].
    - unfold Inv. cbn [path rec_stack visited].
      split; [exact Hset|]. split; [clear -Hsub Hvis2; set_solver|].
      split; [exact Huniv2|]. split; [exact Hchain|].
      intros u Hu Hnot. destruct (decide (u = node)) as [->|Hne].
      + constructor. intros v Hv. destruct (Hsucc v Hv) as [Hv1 Hv2].
        by apply Hsettled2.
      + apply Hsettled2; [exact Hu|]. rewrite Hstack2.
        clear -Hnot Hne. set_solver.
    - cbn [visited]. clear -Hvis2. set_solver.
    - cbn [visited]. clear -Hvis2. set_solver. }
  destruct (Dict.get graph node) as [neighbors|] eqn:Hget.
  - assert (∀ nb, nb ∈ neighbors → edge node nb) as Hedges
      by (intros nb Hnb; by exists neighbors).
    pose proof (neighbors_loop_spec (dfs graph depth) depth node (path w)
                  (rec_stack w) (visited w1) IH neighbors w1 HInv1
                  eq_refl eq_refl (reflexivity _) Hedges) as Hloop.
    destruct (neighbors_loop (dfs graph depth) neighbors w1)
      as [[cyc|] w2| |]; [exact Hloop| |destruct Hloop|lia].
    destruct Hloop as (HInv2 & Hpath2 & Hstack2 & Hvis2 & Hall).
    apply (Hfinish w2 HInv2 Hpath2 Hstack2 Hvis2).
    intros v (l & Hl & Hv). rewrite Hget in Hl. injection Hl as <-.
    by apply Hall.
  - apply (Hfinish w1 HInv1 eq_refl eq_refl (reflexivity _)).
    intros v (l & Hl & _). congruence.
Qed.

Lemma keys_loop_spec depth :
  ∀ keys w,
    Inv w → path w = [] → rec_stack w = ∅ →
    (∀ k, k ∈ keys → k ∈ nodes graph) →
    match keys_loop graph depth keys w with
    | Done None w' =>
        Inv w' ∧ rec_stack w' = ∅ ∧ visited w ⊆ visited w'
        ∧ ∀ k, k ∈ keys → k ∈ visited w'
    | Done (Some cyc) _ => is_cycle cyc
    | Raises => False
    | RecursionError => (depth ≤ size (nodes graph))%nat
    end.
Proof.
  induction keys as [|node rest IH];
    intros w HInv Hpath Hstack Hkeys; cbn [keys_loop].
  { split; [exact HInv|]. split; [exact Hstack|]. split; [reflexivity|].
    intros k Hk. by apply elem_of_nil in Hk. }
  assert (Hrest : ∀ k, k ∈ rest → k ∈ nodes graph)
    by (intros k Hk; apply Hkeys; by right).
  destruct (decide (node ∉ visited w)) as [Hfresh|Hseen].
  - rewrite bool_decide_eq_true_2 by exact Hfresh.
    assert (Hcall : match dfs graph depth node w with
                    | Done None w' =>
                        Inv w' ∧ path w' = path w ∧ rec_stack w' = rec_stack w
                        ∧ visited w ⊆ visited w' ∧ node ∈ visited w'
                    | Done (Some cyc) _ => is_cycle cyc
                    | Raises => False
                    | RecursionError =>
                        (depth ≤ size (nodes graph ∖ visited w))%nat
                    end).
    { apply dfs_correct; [exact HInv|apply Hkeys; by left|exact Hfresh|].
      by left. }
    destruct (dfs graph depth node w) as [[cyc|] w'| |];
      [|cbn [truthy]|destruct Hcall|].
    + by rewrite (truthy_cycle cyc Hcall).
    + destruct Hcall as (HInv' & Hpath' & Hstack' & Hvis' & Hnode').
      assert (H1 : path w' = []) by congruence.
      assert (H2 : rec_stack w' = ∅) by congruence.
      specialize (IH w' HInv' H1 H2 Hrest).
      destruct (keys_loop graph depth rest w') as [[cyc|] w''| |];
        [exact IH| |destruct IH|exact IH].
      destruct IH as (HInv'' & Hstack'' & Hvis'' & Hall).
      split; [exact HInv''|]. split; [exact Hstack''|].
      split; [clear -Hvis' Hvis''; set_solver|].
      intros k [->|Hk]%elem_of_cons; [|by apply Hall].
      clear -Hnode' Hvis''. set_solver.
    + eapply Nat.le_trans; [exact Hcall|].
      apply subseteq_size. clear. set_solver.
  - rewrite bool_decide_eq_false_2 by exact Hseen.
    apply dec_stable in Hseen.
    specialize (IH w HInv Hpath Hstack Hrest).
    destruct (keys_loop graph depth rest w) as [[cyc|] w'| |];
      [exact IH| |destruct IH|exact IH].
    destruct IH as (HInv' & Hstack' & Hvis' & Hall).
    split; [exact HInv'|]. split; [exact Hstack'|]. split; [exact Hvis'|].
    intros k [->|Hk]%elem_of_cons; [|by apply Hall].
    clear -Hseen Hvis'. set_solver.
Qed.

Lemma has_cycle_spec recursion_limit :
  match has_cycle graph recursion_limit with
  | Done (Some cyc) _ => is_cycle cyc
  | Done None _ => ∀ u, settled u
  | Raises => False
  | RecursionError => (recursion_limit ≤ size (nodes graph))%nat
  end.
Proof.
  unfold has_cycle.
  assert (HInv0 : Inv (mkWalk ∅ ∅ [])).
  { unfold Inv. cbn [path rec_stack visited].
    split; [reflexivity|]. split; [reflexivity|].
    split; [clear; set_solver|]. split.
    - intros i a b Ha. by rewrite lookup_nil in Ha.
    - intros u Hu. by apply not_elem_of_empty in Hu. }
  assert (Hkeys : ∀ k, k ∈ graph.*1 → k ∈ nodes graph).
  { intros k Hk. unfold nodes. apply elem_of_list_to_set, elem_of_app.
    by left. }
  pose proof (keys_loop_spec recursion_limit graph.*1 (mkWalk ∅ ∅ [])
                HInv0 eq_refl eq_refl Hkeys) as H.
  destruct (keys_loop graph recursion_limit graph.*1 (mkWalk ∅ ∅ []))
    as [[cyc|] w| |]; [exact H| |destruct H|exact H].
  destruct H as ((_ & _ & _ & _ & Hsettled) & Hstack & _ & Hall).
  intros u. destruct (Dict.get graph u) as [l|] eqn:Hget.
  - apply Hsettled.
    + apply Hall. apply DictProofs.get_Some_elem in Hget.
      apply list_elem_of_fmap. by exists (u, l).
    + rewrite Hstack. apply not_elem_of_empty.
  - constructor. intros v (l & Hl & _). congruence.
Qed.

(** X11. Whatever depth of recursion the interpreter allows,
    [has_cycle] raises nothing but RecursionError, and that only when
    the graph mentions at least as many clients as nested calls are
    allowed: with more calls allowed than there are clients it always
    answers.  What it returns as a cycle is one: a non-empty list of
    clients each of which waits for the next, the last waiting for the
    first.  It returns [None] only when the wait-for graph has no
    cycle. *)
Theorem has_cycle_finds_cycles recursion_limit :
  match has_cycle graph recursion_limit with
  | Done (Some cyc) _ => is_cycle cyc
  | Done None _ => ∀ cyc, ¬ is_cycle cyc
  | Raises => False
  | RecursionError => (recursion_limit ≤ size (nodes graph))%nat
  end.
Proof.
  pose proof (has_cycle_spec recursion_limit) as H.
  destruct (has_cycle graph recursion_limit) as [[cyc|] w| |];
    [exact H| |destruct H|exact H].
  intros cyc Hcyc. destruct (cycle_not_settled cyc Hcyc) as (u & _ & Hu).
  apply Hu, H.
Qed.

End WithGraph.

(** A chain of four clients, each waiting for the next: with three
    nested calls of [dfs] allowed the walk ends in RecursionError, with
    four it answers that there is no cycle. *)
Definition chain4 : Graph :=
  [("a", ["b"]); ("b", ["c"]); ("c", ["d"])].

Example chain4_exceeds_limit_3 : has_cycle chain4 3 = RecursionError.
Proof. by vm_compute. Qed.

Example chain4_within_limit_4 :
  ∃ w, has_cycle chain4 4 = Done None w.
Proof. eexists. by vm_compute. Qed.

End DeadlockProofs.

(** ** A stale wait-for edge *)

Module StaleEdgeProofs.
Import Lock LockTableProofs Deadlock DeadlockProofs.

#[local] Set Warnings "-clear-no-such-hyp".

Lemma walk_of_edge g graph a b :
  walk_of g graph → edge graph a b ↔ b ∈ waits_for g a.
Proof.
  intros Hwalk. unfold edge, waits_for. rewrite <- (Hwalk a).
  destruct (Dict.get graph a) as [l|]; cbn.
  - rewrite elem_of_list_to_set. split.
    + by intros (l' & [= <-] & Hb).
    + intros Hb. by exists l.
  - split; [by intros (l' & [=] & _)|]. intros Hb.
    by apply not_elem_of_empty in Hb.
Qed.

Section Scenario.
Variables (rid c1 c2 : string) (lt : LockType) (ts1 ts2 ts3 : Q).
Hypothesis Hclients : c1 ≠ c2.

Definition st1 : LockManager := _apply_acquire rid EXCLUSIVE c1 ts1 init.
Definition st2 : LockManager := _apply_acquire rid lt c2 ts2 st1.
Definition st3 : LockManager := _apply_release rid c1 st2.
Definition st4 : LockManager := _apply_acquire rid EXCLUSIVE c1 ts3 st3.

Lemma st1_locks :
  locks st1 = <[rid := mkLockInfo rid EXCLUSIVE (∅ ∪ {[c1]}) [] ts1]> ∅
  ∧ wait_for_graph st1 = ∅.
Proof.
  unfold st1, _apply_acquire, init. cbn [locks]. rewrite lookup_empty.
  cbn [default from_option id holders].
  by rewrite bool_decide_eq_true_2.
Qed.

Lemma st2_locks :
  locks st2
  = <[rid := mkLockInfo rid EXCLUSIVE (∅ ∪ {[c1]})
               [mkLockRequest rid lt c2 ts2] ts1]> ∅
  ∧ ∀ c, waits_for (wait_for_graph st2) c
         = if decide (c2 = c) then {[c1]} else ∅.
Proof.
  destruct st1_locks as [Hl Hg].
  unfold st2, _apply_acquire. rewrite Hl, Hg, lookup_insert_eq.
  cbn [default from_option id holders lock_type].
  rewrite bool_decide_eq_false_2 by apply holders_with_client_nonempty.
  rewrite (bool_decide_eq_false_2 (EXCLUSIVE = SHARED)) by done.
  rewrite andb_false_r. cbn [locks wait_for_graph resource_id waiters
                             acquired_at app].
  split; [by rewrite insert_insert_eq|].
  intros c. rewrite add_edges_waits_for. unfold waits_for.
  rewrite !lookup_empty. cbn [default from_option id].
  destruct (decide (c2 = c)); [|done]. clear. set_solver.
Qed.

Lemma st3_locks :
  locks st3 = <[rid := mkLockInfo rid lt (∅ ∪ {[c2]}) [] ts1]> ∅
  ∧ wait_for_graph st3 = wait_for_graph st2.
Proof.
  destruct st2_locks as [Hl _].
  unfold st3, _apply_release. rewrite Hl, lookup_insert_eq.
  cbn [holders waiters sort_by_timestamp insert_by_timestamp
       resource_id lock_type acquired_at].
  assert (Hnone : (∅ ∪ {[c1]}) ∖ {[c1]} = (∅ : gset string))
    by (clear; set_solver).
  rewrite Hnone, set_fold_empty. rewrite bool_decide_eq_true_2 by done.
  cbn [req_resource_id req_lock_type req_client_id req_timestamp].
  unfold _apply_acquire. cbn [locks]. rewrite lookup_insert_eq.
  cbn [default from_option id holders].
  rewrite bool_decide_eq_true_2 by done.
  cbn [locks wait_for_graph resource_id waiters acquired_at].
  by rewrite !insert_insert_eq.
Qed.

Lemma st4_locks :
  locks st4
  = <[rid := mkLockInfo rid lt (∅ ∪ {[c2]})
               [mkLockRequest rid EXCLUSIVE c1 ts3] ts1]> ∅
  ∧ ∀ c, waits_for (wait_for_graph st4) c
         = if decide (c1 = c) then {[c2]}
           else if decide (c2 = c) then {[c1]} else ∅.
Proof.
  destruct st3_locks as [Hl Hg]. destruct st2_locks as [_ Hw].
  unfold st4, _apply_acquire. rewrite Hl, lookup_insert_eq.
  cbn [default from_option id holders lock_type].
  rewrite bool_decide_eq_false_2 by apply holders_with_client_nonempty.
  rewrite (bool_decide_eq_false_2 (EXCLUSIVE = SHARED)) by done.
  cbn [andb locks wait_for_graph resource_id waiters acquired_at app].
  split; [by rewrite insert_insert_eq|].
  intros c. rewrite add_edges_waits_for, Hg, !Hw.
  destruct (decide (c1 = c)) as [<-|Hc]; [|done].
  rewrite decide_False by done. clear. set_solver.
Qed.

(** X12. The edges that [_apply_release] leaves behind make
    [has_cycle] report a deadlock that is none.  From the empty table:
    [c1] takes a lock exclusively, [c2] asks for it and waits, [c1]
    releases and the lock goes to [c2], then [c1] asks again and
    waits.  Now [c2] holds the lock and waits for nothing, yet the graph
    still says that [c2] waits for [c1], and [has_cycle], allowed more
    nested calls than the graph has clients, returns a cycle through
    [c1] and [c2]. *)
Theorem stale_edge_reports_deadlock graph recursion_limit :
  walk_of (wait_for_graph st4) graph →
  (size (nodes graph) < recursion_limit)%nat →
  _is_lock_held rid c2 st4 = true
  ∧ (∀ r lock, locks st4 !! r = Some lock →
               Forall (λ w, req_client_id w ≠ c2) (waiters lock))
  ∧ c1 ∈ waits_for (wait_for_graph st4) c2
  ∧ ∃ cyc w, has_cycle graph recursion_limit = Done (Some cyc) w
             ∧ is_cycle graph cyc ∧ c1 ∈ cyc ∧ c2 ∈ cyc.
Proof.
  intros Hwalk Hlimit. destruct st4_locks as [Hl Hw].
  split; [|split; [|split]].
  - unfold _is_lock_held. rewrite Hl, lookup_insert_eq. cbn [holders].
    apply bool_decide_eq_true_2. clear. set_solver.
  - intros r lock. rewrite Hl.
    destruct (decide (rid = r)) as [<-|Hr].
    + rewrite lookup_insert_eq. intros [= <-]. cbn [waiters].
      apply Forall_cons. split; [exact Hclients|apply Forall_nil_2].
    + rewrite lookup_insert_ne, lookup_empty by done. discriminate.
  - rewrite Hw. rewrite decide_False by done. rewrite decide_True by done.
    clear. set_solver.
  - assert (Hedge : ∀ a b, edge graph a b ↔ (a = c1 ∧ b = c2) ∨ (a = c2 ∧ b = c1)).
    { intros a b. rewrite (walk_of_edge _ graph a b Hwalk), Hw.
      destruct (decide (c1 = a)) as [<-|H1].
      - rewrite elem_of_singleton. split; [by left|].
        intros [[_ ->]|[-> _]]; done.
      - destruct (decide (c2 = a)) as [<-|H2].
        + rewrite elem_of_singleton. split; [by right|].
          intros [[-> _]|[_ ->]]; done.
        + split; [by intros ?%not_elem_of_empty|].
          intros [[-> _]|[-> _]]; done. }
    pose proof (has_cycle_spec graph recursion_limit) as Hspec.
    destruct (has_cycle graph recursion_limit) as [[cyc|] w| |];
      [|exfalso|destruct Hspec|lia].
    + exists cyc, w. split; [reflexivity|]. split; [exact Hspec|].
      destruct Hspec as (a & b & Hhead & Hlast & _ & Hab).
      assert (a ∈ cyc ∧ b ∈ cyc) as [Ha Hb].
      { destruct cyc as [|x l]; [discriminate Hhead|].
        cbn in Hhead. injection Hhead as ->. split; [|by left].
        rewrite last_lookup in Hlast. by eapply list_elem_of_lookup_2. }
      apply Hedge in Hab as [[-> ->]|[-> ->]]; by split.
    + assert (is_cycle graph [c1; c2]) as Hcyc.
      { exists c2, c1. split; [reflexivity|]. split; [reflexivity|].
        split; [|apply Hedge; by right].
        intros i a b Ha Hb. destruct i as [|[|i]]; cbn in Ha, Hb; [|done|done].
        injection Ha as <-. injection Hb as <-. apply Hedge. by left. }
      destruct (cycle_not_settled graph _ Hcyc) as (u & _ & Hu).
      apply Hu, Hspec.
Qed.

End Scenario.

Lemma stale_edge_reports_deadlock_witness :
  ∃ cyc w, has_cycle [("b", ["a"]); ("a", ["b"])] 1000 = Done (Some cyc) w
           ∧ is_cycle [("b", ["a"]); ("a", ["b"])] cyc
           ∧ "a" ∈ cyc ∧ "b" ∈ cyc.
Proof.
  refine (proj2 (proj2 (proj2
            (stale_edge_reports_deadlock "R" "a" "b" SHARED 1%Q 2%Q 3%Q _
               [("b", ["a"]); ("a", ["b"])] 1000 _ _))));
    [discriminate| |vm_compute; lia].
  assert (wait_for_graph (st4 "R" "a" "b" SHARED 1%Q 2%Q 3%Q)
          = <["a" := {["b"]}]> (<["b" := {["a"]}]> ∅)) as -> by reflexivity.
  intros a. destruct (decide (a = "b")) as [->|Hb]; [reflexivity|].
  destruct (decide (a = "a")) as [->|Ha]; [reflexivity|].
  rewrite !lookup_insert_ne, lookup_empty by done.
  cbn [Dict.get]. by rewrite !DictProofs.eqb_false.
Defined.

End StaleEdgeProofs.
